(** * h1-shader-packager: the archive codec and its block cipher

    A shallow embedding of [include/h1sp/crypt.hpp], [src/crypt.cpp],
    [include/h1sp/archive.hpp] and [src/archive.cpp], and the properties of
    the archive format that the specification states about them.

    Conventions of the embedding.
    - A heap array of [std::byte] is a [list byte]; a pointer into it is the
      offset ([nat]) from its first element, and a [std::span] is the pair of
      such an offset and a size.  Code that writes through a pointer takes the
      array and returns the updated array.
    - [std::uint32_t] is a [Z] in [0, 2^32) with the wrap-around written out.
    - [std::size_t] is 64 bits wide (LP64 and LLP64 targets).  The size of
      an object in memory is a [nat]; where the code computes in
      [std::size_t] with a value read from the archive, the wrap-around is
      written out.
    - Loops whose trip count is not a literal run on fuel; the lemmas about
      them show that the fuel they are given suffices.
    - The file system is what a call observes of it: the bytes a name holds
      (or [None] when it cannot be opened) and whether a name can be opened
      for writing. *)

From Stdlib Require Import ZArith List Lia Bool Arith.
From Stdlib Require Import Strings.Byte.
From Stdlib Require Strings.String.
Import ListNotations.

Local Open Scope Z_scope.

(* ------------------------------------------------------------------ *)
(** ** Bytes and memory *)

Module Mem.

Definition Z_of_byte (b : byte) : Z := Z.of_N (Byte.to_N b).

Definition byte_of_Z (z : Z) : byte :=
  match Byte.of_N (Z.to_N (z mod 256)) with
  | Some b => b
  | None => x00
  end.

(** [n] bytes starting at offset [p]. *)
Definition load (mem : list byte) (p n : nat) : list byte :=
  firstn n (skipn p mem).

(** Overwrite [length bs] bytes starting at offset [p]. *)
Definition store (mem : list byte) (p : nat) (bs : list byte) : list byte :=
  firstn p mem ++ bs ++ skipn (p + length bs) mem.

(** [std::span<std::byte>]: a pointer (offset into the owning array) and a
    size.  The default-constructed span is [{0, 0}]. *)
Record span : Type := mk_span { sp_data : nat; sp_size : nat }.

Definition span_empty : span := mk_span 0 0.
Definition span_first (s : span) (n : nat) : span := mk_span (sp_data s) n.
Definition span_last (s : span) (n : nat) : span :=
  mk_span (sp_data s + (sp_size s - n)) n.
Definition span_subspan (s : span) (off n : nat) : span :=
  mk_span (sp_data s + off) n.
Definition span_bytes (mem : list byte) (s : span) : list byte :=
  load mem (sp_data s) (sp_size s).
Definition span_in (s : span) (mem : list byte) : Prop :=
  (sp_data s + sp_size s <= length mem)%nat.

End Mem.
Import Mem.

(* ------------------------------------------------------------------ *)
(** ** io.hpp *)

Module IO.

Inductive endian : Type := little | big.

Fixpoint le_combine (bs : list byte) : Z :=
  match bs with
  | [] => 0
  | b :: bs' => Z_of_byte b + 256 * le_combine bs'
  end.

Fixpoint le_split (n : nat) (v : Z) : list byte :=
  match n with
  | O => []
  | S n' => byte_of_Z v :: le_split n' (v / 256)
  end.

(** Modelled from the spec: [h1sp/io.hpp] is not among the sources; the
    spec fixes the wire format it implements: a 32-bit word is four bytes,
    least significant first for the little-endian order that the archive
    and the cipher use (most significant first for the other order).
    [deserialize<std::uint32_t>(p, e)] reads the word at [p]. *)
Definition deserialize (e : endian) (mem : list byte) (p : nat) : Z :=
  match e with
  | little => le_combine (load mem p 4)
  | big => le_combine (rev (load mem p 4))
  end.

(** Modelled from the spec: [h1sp/io.hpp] is not among the sources.
    [serialize(v, p, e)] writes the four bytes of the 32-bit word [v] at
    [p] and returns the pointer past them. *)
Definition serialize (e : endian) (v : Z) (mem : list byte) (p : nat)
  : list byte * nat :=
  match e with
  | little => (store mem p (le_split 4 v), (p + 4)%nat)
  | big => (store mem p (rev (le_split 4 v)), (p + 4)%nat)
  end.

End IO.
Import IO.

(* ------------------------------------------------------------------ *)
(** ** crypt.hpp / crypt.cpp *)

Module Crypt.

(** Arithmetic of [std::uint32_t]. *)
Definition u32 (z : Z) : Z := z mod 2 ^ 32.

(** [struct tea]. *)
Record tea : Type := mk_tea { tea_endian : endian; tea_key : list Z }.

Definition tea_chunk_size : nat := 2 * 4.

Definition key_word (t : tea) (i : nat) : Z := u32 (nth i (tea_key t) 0).

Definition delta : Z := 0x9E3779B9.

(** The body of the loop of [tea::encrypt_chunk], on [(sum, v0, v1)]. *)
Definition encrypt_round (t : tea) (st : Z * Z * Z) : Z * Z * Z :=
  let '(sum, v0, v1) := st in
  let k0 := key_word t 0 in
  let k1 := key_word t 1 in
  let k2 := key_word t 2 in
  let k3 := key_word t 3 in
  let sum := u32 (sum + delta) in
  let v0 := u32 (v0 + Z.lxor (Z.lxor (u32 (u32 (Z.shiftl v1 4) + k0))
                                      (u32 (v1 + sum)))
                             (u32 (Z.shiftr v1 5 + k1))) in
  let v1 := u32 (v1 + Z.lxor (Z.lxor (u32 (u32 (Z.shiftl v0 4) + k2))
                                      (u32 (v0 + sum)))
                             (u32 (Z.shiftr v0 5 + k3))) in
  (sum, v0, v1).

(** The body of the loop of [tea::decrypt_chunk]. *)
Definition decrypt_round (t : tea) (st : Z * Z * Z) : Z * Z * Z :=
  let '(sum, v0, v1) := st in
  let k0 := key_word t 0 in
  let k1 := key_word t 1 in
  let k2 := key_word t 2 in
  let k3 := key_word t 3 in
  let v1 := u32 (v1 - Z.lxor (Z.lxor (u32 (u32 (Z.shiftl v0 4) + k2))
                                      (u32 (v0 + sum)))
                             (u32 (Z.shiftr v0 5 + k3))) in
  let v0 := u32 (v0 - Z.lxor (Z.lxor (u32 (u32 (Z.shiftl v1 4) + k0))
                                      (u32 (v1 + sum)))
                             (u32 (Z.shiftr v1 5 + k1))) in
  let sum := u32 (sum - delta) in
  (sum, v0, v1).

(** [tea::encrypt_chunk(chunk)]: the eight bytes at [chunk] in place. *)
Definition tea_encrypt_chunk (t : tea) (mem : list byte) (chunk : nat)
  : list byte :=
  let v0 := deserialize (tea_endian t) mem chunk in
  let v1 := deserialize (tea_endian t) mem (chunk + 4) in
  let '(_, v0, v1) := Nat.iter 32 (encrypt_round t) (0, v0, v1) in
  let '(mem, _) := serialize (tea_endian t) v0 mem chunk in
  let '(mem, _) := serialize (tea_endian t) v1 mem (chunk + 4) in
  mem.

(** [tea::decrypt_chunk(chunk)]. *)
Definition tea_decrypt_chunk (t : tea) (mem : list byte) (chunk : nat)
  : list byte :=
  let v0 := deserialize (tea_endian t) mem chunk in
  let v1 := deserialize (tea_endian t) mem (chunk + 4) in
  let '(_, v0, v1) := Nat.iter 32 (decrypt_round t) (0xC6EF3720, v0, v1) in
  let '(mem, _) := serialize (tea_endian t) v0 mem chunk in
  let '(mem, _) := serialize (tea_endian t) v1 mem (chunk + 4) in
  mem.

(** [h1_tea]. *)
Definition h1_tea : tea :=
  mk_tea little [0x3FFFFFDD; 0x7FC3; 0xE5; 0x3FFFEF].

(** The concepts [InPlaceEncryptionScheme] and [InPlaceDecryptionScheme]. *)
Class InPlaceEncryptionScheme (Scheme : Type) : Type := {
  enc_chunk_size : Scheme -> nat;
  encrypt_chunk : Scheme -> list byte -> nat -> list byte
}.

Class InPlaceDecryptionScheme (Scheme : Type) : Type := {
  dec_chunk_size : Scheme -> nat;
  decrypt_chunk : Scheme -> list byte -> nat -> list byte
}.

#[export] Instance tea_encryption : InPlaceEncryptionScheme tea :=
  {| enc_chunk_size := fun _ => tea_chunk_size;
     encrypt_chunk := tea_encrypt_chunk |}.

#[export] Instance tea_decryption : InPlaceDecryptionScheme tea :=
  {| dec_chunk_size := fun _ => tea_chunk_size;
     decrypt_chunk := tea_decrypt_chunk |}.

(** The [for] loop of [encrypt_buffer] and of [decrypt_buffer]:
    [for (chunk = ..; chunk != end; chunk += chunk_size) f(chunk)]. *)
Fixpoint chunk_loop (fuel : nat) (f : list byte -> nat -> list byte)
    (chunk_size chunk end_ : nat) (mem : list byte) : list byte :=
  if Nat.eqb chunk end_ then mem
  else match fuel with
       | O => mem
       | S fuel' =>
           chunk_loop fuel' f chunk_size (chunk + chunk_size)%nat end_
             (f mem chunk)
       end.

(** [encrypt_buffer(scheme, buf)]. *)
Definition encrypt_buffer {Scheme} `{InPlaceEncryptionScheme Scheme}
    (scheme : Scheme) (mem : list byte) (buf : span) : list byte :=
  let len := sp_size buf in
  let chunk_size := enc_chunk_size scheme in
  if (len <? chunk_size)%nat then mem
  else
    let mem :=
      chunk_loop len (encrypt_chunk scheme) chunk_size
        (sp_data buf) (sp_data buf + len - len mod chunk_size)%nat mem in
    if negb (Nat.eqb (len mod chunk_size) 0)
    then encrypt_chunk scheme mem (sp_data buf + len - chunk_size)%nat
    else mem.

(** [decrypt_buffer(scheme, buf)]. *)
Definition decrypt_buffer {Scheme} `{InPlaceDecryptionScheme Scheme}
    (scheme : Scheme) (mem : list byte) (buf : span) : list byte :=
  let len := sp_size buf in
  let chunk_size := dec_chunk_size scheme in
  if (len <? chunk_size)%nat || (len <=? 0)%nat then mem
  else
    let mem :=
      if negb (Nat.eqb (len mod chunk_size) 0)
      then decrypt_chunk scheme mem (sp_data buf + len - chunk_size)%nat
      else mem in
    let buf := span_first buf (sp_size buf - len mod chunk_size) in
    chunk_loop len (decrypt_chunk scheme) chunk_size
      (sp_data buf) (sp_data buf + sp_size buf)%nat mem.

End Crypt.
Import Crypt.

(* ------------------------------------------------------------------ *)
(** ** The digest: [compute_md5_digest] *)

Module Digest.

Definition MD5_DIGEST_LENGTH : nat := 16.

(** The sixteen digits that [printf]'s [x] conversion uses. *)
Definition hex_digits : list byte :=
  [x30; x31; x32; x33; x34; x35; x36; x37; x38; x39;
   x61; x62; x63; x64; x65; x66].

(** [std::snprintf(strbuf, 3, "%02hhx", d)]: the two characters written. *)
Definition snprintf_02hhx (d : byte) : list byte :=
  [nth (Z.to_nat (Z_of_byte d / 16)) hex_digits x30;
   nth (Z.to_nat (Z_of_byte d mod 16)) hex_digits x30].

(** [compute_md5_digest(buf)], over OpenSSL's [MD5], which fills the
    [MD5_DIGEST_LENGTH] bytes of [digest]. *)
Definition compute_md5_digest (MD5 : list byte -> list byte)
    (buf : list byte) : list byte :=
  let digest := MD5 buf in
  fold_left (fun result d => result ++ snprintf_02hhx d) digest [].

(** [s.c_str()] read together with its terminator. *)
Definition c_str (s : list byte) : list byte := s ++ [x00].

End Digest.
Import Digest.

(* ------------------------------------------------------------------ *)
(** ** The MD5 function of RFC 1321

    OpenSSL's [MD5] is outside the repository; the codec is verified for any
    function that returns [MD5_DIGEST_LENGTH] bytes.  The function of the
    RFC is defined here to run the codec on concrete archives. *)

Module RFC1321.

Definition rotl32 (x : Z) (c : Z) : Z :=
  u32 (Z.lor (Z.shiftl x c) (Z.shiftr x (32 - c))).

Definition not32 (x : Z) : Z := Z.lxor x 0xFFFFFFFF.

Definition shifts : list Z :=
  [7; 12; 17; 22; 7; 12; 17; 22; 7; 12; 17; 22; 7; 12; 17; 22;
   5; 9; 14; 20; 5; 9; 14; 20; 5; 9; 14; 20; 5; 9; 14; 20;
   4; 11; 16; 23; 4; 11; 16; 23; 4; 11; 16; 23; 4; 11; 16; 23;
   6; 10; 15; 21; 6; 10; 15; 21; 6; 10; 15; 21; 6; 10; 15; 21].

Definition sines : list Z :=
  [ 0xd76aa478; 0xe8c7b756; 0x242070db; 0xc1bdceee;
    0xf57c0faf; 0x4787c62a; 0xa8304613; 0xfd469501;
    0x698098d8; 0x8b44f7af; 0xffff5bb1; 0x895cd7be;
    0x6b901122; 0xfd987193; 0xa679438e; 0x49b40821;
    0xf61e2562; 0xc040b340; 0x265e5a51; 0xe9b6c7aa;
    0xd62f105d; 0x02441453; 0xd8a1e681; 0xe7d3fbc8;
    0x21e1cde6; 0xc33707d6; 0xf4d50d87; 0x455a14ed;
    0xa9e3e905; 0xfcefa3f8; 0x676f02d9; 0x8d2a4c8a;
    0xfffa3942; 0x8771f681; 0x6d9d6122; 0xfde5380c;
    0xa4beea44; 0x4bdecfa9; 0xf6bb4b60; 0xbebfbc70;
    0x289b7ec6; 0xeaa127fa; 0xd4ef3085; 0x04881d05;
    0xd9d4d039; 0xe6db99e5; 0x1fa27cf8; 0xc4ac5665;
    0xf4292244; 0x432aff97; 0xab9423a7; 0xfc93a039;
    0x655b59c3; 0x8f0ccc92; 0xffeff47d; 0x85845dd1;
    0x6fa87e4f; 0xfe2ce6e0; 0xa3014314; 0x4e0811a1;
    0xf7537e82; 0xbd3af235; 0x2ad7d2bb; 0xeb86d391 ].

Definition padding (len : nat) : list byte :=
  x80 :: repeat x00 (Z.to_nat ((55 - Z.of_nat len) mod 64))
      ++ le_split 8 (8 * Z.of_nat len).

Definition step (block : list byte) (st : Z * Z * Z * Z) (i : nat)
  : Z * Z * Z * Z :=
  let '(a, b, c, d) := st in
  let '(f, g) :=
    match (i / 16)%nat with
    | 0%nat => (Z.lor (Z.land b c) (Z.land (not32 b) d), i)
    | 1%nat => (Z.lor (Z.land d b) (Z.land (not32 d) c),
                ((5 * i + 1) mod 16)%nat)
    | 2%nat => (Z.lxor (Z.lxor b c) d, ((3 * i + 5) mod 16)%nat)
    | _ => (Z.lxor c (Z.lor b (not32 d)), ((7 * i) mod 16)%nat)
    end in
  let m := le_combine (load block (4 * g) 4) in
  let f := u32 (f + a + nth i sines 0 + m) in
  (d, u32 (b + rotl32 f (nth i shifts 0)), b, c).

Definition compress (st : Z * Z * Z * Z) (block : list byte)
  : Z * Z * Z * Z :=
  let '(a0, b0, c0, d0) := st in
  let '(a, b, c, d) := fold_left (step block) (seq 0 64) st in
  (u32 (a0 + a), u32 (b0 + b), u32 (c0 + c), u32 (d0 + d)).

Fixpoint blocks (n : nat) (msg : list byte) (st : Z * Z * Z * Z)
  : Z * Z * Z * Z :=
  match n with
  | O => st
  | S n' => blocks n' (skipn 64 msg) (compress st (firstn 64 msg))
  end.

Definition md5 (msg : list byte) : list byte :=
  let padded := msg ++ padding (length msg) in
  let '(a, b, c, d) :=
    blocks (length padded / 64) padded
      (0x67452301, 0xefcdab89, 0x98badcfe, 0x10325476) in
  le_split 4 a ++ le_split 4 b ++ le_split 4 c ++ le_split 4 d.

End RFC1321.

(* ------------------------------------------------------------------ *)
(** ** archive.hpp / archive.cpp *)

Module Archive.

(** Arithmetic of [std::size_t]. *)
Definition size_t (z : Z) : Z := z mod 2 ^ 64.

(** [sizeof(chunk_size_type)]. *)
Definition sizeof_chunk_size_type : nat := 4.

(** [struct byte_buffer]: the owned array ([None] for the null pointer).
    [nbytes] is the length of the array wherever the code builds one. *)
Record byte_buffer : Type := mk_byte_buffer { buffer : option (list byte) }.

Definition nbytes (b : byte_buffer) : nat :=
  match buffer b with Some l => length l | None => O end.

Definition contents (b : byte_buffer) : list byte :=
  match buffer b with Some l => l | None => [] end.

(** [byte_buffer{}]. *)
Definition byte_buffer_empty : byte_buffer := mk_byte_buffer None.

(** [byte_buffer::operator bool]. *)
Definition byte_buffer_bool (b : byte_buffer) : bool :=
  match buffer b with Some _ => true | None => false end.

(** [byte_buffer::range]. *)
Definition range_of (b : byte_buffer) : span := mk_span 0 (nbytes b).

(** [read_file(file)].  [file] is what the file system holds under the
    name: [None] when [fopen] fails, otherwise the bytes of the file
    ([ftell] and [fread] are taken to succeed on an open file). *)
Definition read_file (file : option (list byte)) : byte_buffer :=
  let result := byte_buffer_empty in
  match file with
  | None => result
  | Some bytes =>
      let size := length bytes in
      if (size <=? 0)%nat then result
      else mk_byte_buffer (Some bytes)
  end.

(** [write_file(file, buf)]: whether it succeeded and the bytes the file
    holds afterwards, when it was opened. *)
Definition write_file (opens : bool) (buf : list byte)
  : bool * option (list byte) :=
  if opens then (true, Some buf) else (false, None).

Module read_error.
Inductive t : Type := success | could_not_open_file | archive_data_is_corrupt.
End read_error.

Module write_error.
Inductive t : Type := success | no_data_to_write | could_not_open_file.
End write_error.

(** What [read_from_file] prints on [stderr]. *)
Inductive diagnostic : Type :=
| md5_did_not_match (computed needed : list byte)
| error_at_archive_member (member : Z).

(** [class archive]: [data] is a span into the array of [filebuf]. *)
Record archive : Type := mk_archive { filebuf : byte_buffer; data : span }.

(** [archive{}]. *)
Definition archive_empty : archive := mk_archive byte_buffer_empty span_empty.

(** [class archive_enumerator]: [range] is a span into the array it was
    created over, which its member functions read. *)
Record archive_enumerator : Type := mk_enumerator { range : span }.

Definition is_at_end (e : archive_enumerator) : bool :=
  Nat.eqb (sp_size (range e)) 0.

Definition has_error (mem : list byte) (e : archive_enumerator) : bool :=
  if is_at_end e then false
  else if (sp_size (range e) <? sizeof_chunk_size_type)%nat then true
  else
    let chunk_size := deserialize little mem (sp_data (range e)) in
    if size_t (chunk_size + Z.of_nat sizeof_chunk_size_type)
         >? Z.of_nat (sp_size (range e))
    then true
    else false.

Definition finished (mem : list byte) (e : archive_enumerator) : bool :=
  is_at_end e || has_error mem e.

Definition advance (mem : list byte) (e : archive_enumerator)
  : archive_enumerator :=
  if negb (finished mem e) then
    let chunk_size := deserialize little mem (sp_data (range e)) in
    mk_enumerator
      (span_last (range e)
         (Z.to_nat (size_t (size_t (Z.of_nat (sp_size (range e)) - chunk_size)
                            - Z.of_nat sizeof_chunk_size_type))))
  else e.

(** [archive_enumerator::data]. *)
Definition enumerator_data (mem : list byte) (e : archive_enumerator)
  : span :=
  if finished mem e then span_empty
  else
    let chunk_size := deserialize little mem (sp_data (range e)) in
    span_subspan (range e) sizeof_chunk_size_type (Z.to_nat chunk_size).

(** [archive::enumerate]. *)
Definition enumerate (a : archive) : archive_enumerator :=
  mk_enumerator (data a).

(** [for (; e; e.advance()) f(e.data())], the loop of [archive::for_each];
    the visitor's effect is a transition of a state [St]. *)
Fixpoint for_each_loop {St : Type} (fuel : nat) (mem : list byte)
    (f : span -> St -> St) (e : archive_enumerator) (st : St) : St :=
  if negb (finished mem e) then
    match fuel with
    | O => st
    | S fuel' =>
        for_each_loop fuel' mem f (advance mem e) (f (enumerator_data mem e) st)
    end
  else st.

(** [archive::for_each(f) const]. *)
Definition for_each {St : Type} (a : archive) (f : span -> St -> St)
    (st : St) : St :=
  for_each_loop (S (sp_size (data a))) (contents (filebuf a)) f
    (enumerate a) st.

(** The members of an archive, as [for_each] visits them. *)
Definition members (a : archive) : list (list byte) :=
  for_each a
    (fun s acc => acc ++ [span_bytes (contents (filebuf a)) s]) [].

(** [for (; e; e.advance()) { ++member; }] in [read_from_file]. *)
Fixpoint member_loop (fuel : nat) (mem : list byte)
    (e : archive_enumerator) (member : Z) : archive_enumerator * Z :=
  if negb (finished mem e) then
    match fuel with
    | O => (e, member)
    | S fuel' => member_loop fuel' mem (advance mem e) (member + 1)
    end
  else (e, member).

Fixpoint bytes_eqb (a b : list byte) : bool :=
  match a, b with
  | [], [] => true
  | x :: a', y :: b' => Byte.eqb x y && bytes_eqb a' b'
  | _, _ => false
  end.

Section Codec.

(** OpenSSL's [MD5]. *)
Variable MD5 : list byte -> list byte.

(** The indeterminate value that [new std::byte[n]] leaves at each
    index of the fresh array. *)
Variable indeterminate : nat -> byte.

Definition new_bytes (n : nat) : list byte := map indeterminate (seq 0 n).

(** [archive::read_from_file(file)]: the result, the archive afterwards
    and the diagnostics printed. *)
Definition read_from_file (file : option (list byte)) (a : archive)
  : read_error.t * archive * list diagnostic :=
  let buf := read_file file in
  if negb (byte_buffer_bool buf) then
    (read_error.could_not_open_file, a, [])
  else if (nbytes buf <? 34)%nat then
    (read_error.archive_data_is_corrupt, a, [])
  else
    let archive_data := span_first (range_of buf) (nbytes buf - 33) in
    let archive_md5 := span_last (range_of buf) 33 in
    let mem := decrypt_buffer h1_tea (contents buf) (range_of buf) in
    let md5_str := compute_md5_digest MD5 (span_bytes mem archive_data) in
    let md5_sv := firstn (length md5_str + 1) (c_str md5_str) in
    if negb (bytes_eqb (span_bytes mem archive_md5) md5_sv) then
      (read_error.archive_data_is_corrupt, a,
       [md5_did_not_match md5_str (span_bytes mem archive_md5)])
    else
      let '(e, member) :=
        member_loop (S (sp_size archive_data)) mem
          (mk_enumerator archive_data) 0 in
      if has_error mem e then
        (read_error.archive_data_is_corrupt, a,
         [error_at_archive_member member])
      else
        (read_error.success,
         mk_archive (mk_byte_buffer (Some mem)) archive_data, []).

(** The loop over [member_bufs] in [load_members_from], on the array
    and the cursor. *)
Definition write_member (st : list byte * nat) (member : byte_buffer)
  : list byte * nat :=
  let '(mem, cursor) := st in
  let '(mem, cursor) :=
    serialize little (u32 (Z.of_nat (nbytes member))) mem cursor in
  let bytes := span_bytes (contents member) (range_of member) in
  (store mem cursor bytes, (cursor + length bytes)%nat).

(** [archive::load_members_from(member_bufs)]. *)
Definition load_members_from (member_bufs : list byte_buffer)
    (a : archive) : archive :=
  let total_size :=
    (fold_left (fun size buf => size + nbytes buf) member_bufs 0
     + sizeof_chunk_size_type * length member_bufs
     + 33)%nat in
  let buf := mk_byte_buffer (Some (new_bytes total_size)) in
  let '(mem, cursor) :=
    fold_left write_member member_bufs (contents buf, O) in
  let digest :=
    compute_md5_digest MD5
      (span_bytes mem (span_first (range_of buf) (nbytes buf - 33))) in
  let mem := store mem cursor (firstn 33 (c_str digest)) in
  let filebuf := mk_byte_buffer (Some mem) in
  mk_archive filebuf (span_first (range_of filebuf) (nbytes buf - 33)).

(** [archive::flush_to_file(file)]: the result, the archive afterwards
    and the bytes written when the file was opened.  [opens] tells
    whether [fopen(file, "wb")] succeeds. *)
Definition flush_to_file (opens : bool) (a : archive)
  : write_error.t * archive * option (list byte) :=
  if (sp_size (data a) <? sizeof_chunk_size_type)%nat then
    (write_error.no_data_to_write, a, None)
  else if negb opens then
    (write_error.could_not_open_file, a, None)
  else
    let mem :=
      encrypt_buffer h1_tea (contents (filebuf a)) (range_of (filebuf a)) in
    let a' := mk_archive (mk_byte_buffer (Some mem)) (data a) in
    (write_error.success, archive_empty,
     Some (load (contents (filebuf a')) 0 (nbytes (filebuf a')))).

(** Assemble, flush to a file that opens, read the file into a fresh
    archive and enumerate it. *)
Definition round_trip (member_bufs : list byte_buffer)
  : option (list (list byte)) :=
  let a := load_members_from member_bufs archive_empty in
  match flush_to_file true a with
  | (write_error.success, _, Some file) =>
      match read_from_file (Some file) archive_empty with
      | (read_error.success, a', _) => Some (members a')
      | _ => None
      end
  | _ => None
  end.

End Codec.

End Archive.
Import Archive.

(* ------------------------------------------------------------------ *)
(** ** The whole-buffer policy, in the words of the specification *)

Module Policy.

(** One cipher block as a function of its eight bytes. *)
Definition tea_block_encrypt (t : tea) (block : list byte) : list byte :=
  tea_encrypt_chunk t block 0.

Definition tea_block_decrypt (t : tea) (block : list byte) : list byte :=
  tea_decrypt_chunk t block 0.

(** Transform the eight bytes that start at offset [p]; keep the rest. *)
Definition on_block (f : list byte -> list byte) (p : nat)
    (buf : list byte) : list byte :=
  firstn p buf ++ f (load buf p 8) ++ skipn (p + 8) buf.

(** All complete blocks, front to back. *)
Definition complete_blocks (f : list byte -> list byte) (buf : list byte)
  : list byte :=
  fold_left (fun b i => on_block f (8 * i) b) (seq 0 (length buf / 8)) buf.

(** Encrypt all complete blocks from the front; if a remainder exists,
    re-encrypt the block that ends at the buffer's end. *)
Definition encrypt_policy (E : list byte -> list byte) (buf : list byte)
  : list byte :=
  let len := length buf in
  if (len <? 8)%nat then buf
  else
    let buf := complete_blocks E buf in
    if Nat.eqb (len mod 8) 0 then buf else on_block E (len - 8) buf.

(** If a remainder exists, first decrypt the block that ends at the
    buffer's end; then decrypt all complete blocks from the front over the
    buffer truncated to the last whole-block boundary. *)
Definition decrypt_policy (D : list byte -> list byte) (buf : list byte)
  : list byte :=
  let len := length buf in
  if (len <? 8)%nat then buf
  else
    let buf := if Nat.eqb (len mod 8) 0 then buf
               else on_block D (len - 8) buf in
    let whole := (len - len mod 8)%nat in
    complete_blocks D (firstn whole buf) ++ skipn whole buf.

End Policy.
Import Policy.

(* ------------------------------------------------------------------ *)
(** ** The file format, in the words of the specification *)

Module Format.

(** [Chunk := LengthLE32 || Payload[Length]]. *)
Definition chunk (payload : list byte) : list byte :=
  le_split 4 (Z.of_nat (length payload)) ++ payload.

(** [ChunkRegion := Chunk*]. *)
Definition chunk_region (payloads : list (list byte)) : list byte :=
  concat (map chunk payloads).

(** [Trailer := HexDigest[32] || 0x00], for the digest function [MD5]. *)
Definition trailer (MD5 : list byte -> list byte) (region : list byte)
  : list byte :=
  compute_md5_digest MD5 region ++ [x00].

(** A payload whose length the 32-bit length field can hold. *)
Definition fits_length_field (payload : list byte) : Prop :=
  Z.of_nat (length payload) < 2 ^ 32.

(** The bytes [rest] do not start with a chunk: they are not empty, and
    the length field does not fit or the declared length plus 4 overruns
    them. *)
Definition corrupt_chunk (rest : list byte) : Prop :=
  rest <> [] /\
  ((length rest < 4)%nat \/
   le_combine (firstn 4 rest) + 4 > Z.of_nat (length rest)).

(** The [k]-th chunk (counting from 1) is the first corrupt one: [k - 1]
    chunks come first. *)
Definition first_corrupt_at (k : nat) (region : list byte) : Prop :=
  exists payloads rest,
    region = chunk_region payloads ++ rest /\
    k = S (length payloads) /\
    Forall fits_length_field payloads /\
    corrupt_chunk rest.

End Format.
Import Format.

(* ------------------------------------------------------------------ *)
(** ** Vocabulary of the proofs *)

Module Vocabulary.

Definition word_of (e : endian) (bs : list byte) : Z :=
  match e with little => le_combine bs | big => le_combine (rev bs) end.

Definition bytes_of_word (e : endian) (v : Z) : list byte :=
  match e with little => le_split 4 v | big => rev (le_split 4 v) end.

Definition in_u32 (z : Z) : Prop := 0 <= z < 2 ^ 32.

(** The state of the rounds: the accumulator and the two words. *)
Definition in_range (st : Z * Z * Z) : Prop :=
  let '(sum, v0, v1) := st in in_u32 sum /\ in_u32 v0 /\ in_u32 v1.

(** The words that the two chunk functions compute. *)
Definition encrypt_words (t : tea) (v0 v1 : Z) : Z * Z :=
  let '(_, a, b) := Nat.iter 32 (encrypt_round t) (0, v0, v1) in (a, b).

Definition decrypt_words (t : tea) (v0 v1 : Z) : Z * Z :=
  let '(_, a, b) := Nat.iter 32 (decrypt_round t) (0xC6EF3720, v0, v1) in
  (a, b).

(** Both chunk functions read two words, map them and write them back. *)
Definition chunk_op (w : Z -> Z -> Z * Z) (e : endian) (mem : list byte)
    (p : nat) : list byte :=
  let v0 := deserialize e mem p in
  let v1 := deserialize e mem (p + 4) in
  fst (serialize e (snd (w v0 v1))
         (fst (serialize e (fst (w v0 v1)) mem p)) (p + 4)).

(** [f] on each of the first [k] blocks of [l]. *)
Fixpoint map_blocks (f : list byte -> list byte) (k : nat) (l : list byte)
  : list byte :=
  match k with
  | O => l
  | S k' => f (firstn 8 l) ++ map_blocks f k' (skipn 8 l)
  end.

Definition keeps_blocks (f : list byte -> list byte) : Prop :=
  forall b, length b = 8%nat -> length (f b) = 8%nat.

Definition whole (buf : list byte) : span := mk_span 0 (length buf).

(** What [read_from_file] does once the checks before the counting
    loop have passed. *)
Definition validate (buf : list byte) (region_size : nat) (a : archive)
  : read_error.t * archive * list diagnostic :=
  let '(e, member) :=
    member_loop (S region_size) buf
      (mk_enumerator (mk_span 0 region_size)) 0 in
  if has_error buf e then
    (read_error.archive_data_is_corrupt, a,
     [error_at_archive_member member])
  else
    (read_error.success,
     mk_archive (mk_byte_buffer (Some buf)) (mk_span 0 region_size), []).

(** The fresh storage used when an archive is assembled below. *)
Definition zeroed : nat -> byte := fun _ => x00.

Definition member (bytes : list byte) : byte_buffer :=
  mk_byte_buffer (Some bytes).

(** A chunk region whose first chunk declares five bytes and has none,
    and the file that holds it. *)
Definition overrun_region : list byte := [x05; x00; x00; x00].

Definition overrun_file : list byte :=
  Eval vm_compute in
    encrypt_buffer h1_tea
      (overrun_region ++ trailer RFC1321.md5 overrun_region)
      (mk_span 0 37).

End Vocabulary.
Import Vocabulary.

(* ------------------------------------------------------------------ *)
(** ** archive.hpp: the [for_each] that can stop early *)

Module ForEach.

(** [for (auto e = enumerate(); e; e.advance())
       { auto result = f(e.data()); if (result) return result; }
     return std::nullopt;].
    The visitor returns its result and the state it leaves; [truthy] is the
    contextual conversion of a result to [bool]. *)
Fixpoint for_each_until_loop {St R : Type} (fuel : nat) (mem : list byte)
    (truthy : R -> bool) (f : span -> St -> R * St)
    (e : archive_enumerator) (st : St) : option R * St :=
  if negb (finished mem e) then
    match fuel with
    | O => (None, st)
    | S fuel' =>
        let '(result, st) := f (enumerator_data mem e) st in
        if truthy result then (Some result, st)
        else for_each_until_loop fuel' mem truthy f (advance mem e) st
    end
  else (None, st).

(** [archive::for_each(f)], the overload that returns an optional. *)
Definition for_each_until {St R : Type} (a : archive) (truthy : R -> bool)
    (f : span -> St -> R * St) (st : St) : option R * St :=
  for_each_until_loop (S (sp_size (data a))) (contents (filebuf a)) truthy f
    (enumerate a) st.

End ForEach.
Import ForEach.

(* ------------------------------------------------------------------ *)
(** ** main.cpp *)

(** The string literals of [main.cpp], as the bytes of the C strings. *)
Module Literals.

Import Stdlib.Strings.String.
Local Open Scope string_scope.

Definition lit_h : list byte := Eval cbv in list_byte_of_string "-h".
Definition lit_help : list byte := Eval cbv in list_byte_of_string "--help".
Definition lit_u : list byte := Eval cbv in list_byte_of_string "-u".
Definition lit_unpack : list byte :=
  Eval cbv in list_byte_of_string "--unpack".
Definition lit_p : list byte := Eval cbv in list_byte_of_string "-p".
Definition lit_pack : list byte := Eval cbv in list_byte_of_string "--pack".
Definition lit_pc : list byte := Eval cbv in list_byte_of_string "-pc".
Definition lit_ce : list byte := Eval cbv in list_byte_of_string "-ce".
Definition lit_fx : list byte := Eval cbv in list_byte_of_string "-fx".
Definition lit_vsh : list byte := Eval cbv in list_byte_of_string "-vsh".
Definition prefix_fx : list byte := Eval cbv in list_byte_of_string "fx/".
Definition prefix_vsh : list byte := Eval cbv in list_byte_of_string "vsh/".
Definition ext_fx : list byte := Eval cbv in list_byte_of_string "fx".
Definition ext_vsh : list byte := Eval cbv in list_byte_of_string "vsh".
Definition dot : list byte := Eval cbv in list_byte_of_string ".".
Definition h1sp : list byte := Eval cbv in list_byte_of_string "h1sp".

Definition could_not_open_file : list byte :=
  Eval cbv in list_byte_of_string "could not open file".
Definition archive_is_corrupt : list byte :=
  Eval cbv in list_byte_of_string "archive is corrupt".
Definition failed_to_write_member : list byte :=
  Eval cbv in
    list_byte_of_string "failed to write member to corresponding file".
Definition missing_members : list byte :=
  Eval cbv in list_byte_of_string "loaded archive has missing members".
Definition failed_to_read_member_file : list byte :=
  Eval cbv in list_byte_of_string "failed to read member file".
Definition no_data_to_write : list byte :=
  Eval cbv in list_byte_of_string "no data to write".
Definition could_not_open_output_file : list byte :=
  Eval cbv in list_byte_of_string "could not open output file for writing".
Definition unsupported_operation_mode : list byte :=
  Eval cbv in list_byte_of_string "unsupported operation mode".

End Literals.

Module Main.

Module client_version.
Inductive t : Type := unspecified | pc | ce.
End client_version.

Module archive_type.
Inductive t : Type := unspecified | fx | vsh.
End archive_type.

Module operation_mode.
Inductive t : Type := unspecified | unpack | pack.
End operation_mode.

(** [struct operation_context]; [file] and [prefix] are C strings. *)
Record operation_context : Type := mk_operation_context {
  mode : operation_mode.t;
  client : client_version.t;
  type : archive_type.t;
  file : list byte;
  prefix : list byte
}.

(** The local [enum unpack_error] of [perform_unpack_operation]. *)
Inductive unpack_error : Type :=
| unpack_success | unpack_too_many_members | unpack_write_error.

Definition unpack_error_value (e : unpack_error) : Z :=
  match e with
  | unpack_success => 0
  | unpack_too_many_members => 1
  | unpack_write_error => 2
  end.

(** The conversion of an [unpack_error] to [bool]. *)
Definition unpack_error_bool (e : unpack_error) : bool :=
  negb (unpack_error_value e =? 0).

Definition unpack_error_eqb (a b : unpack_error) : bool :=
  unpack_error_value a =? unpack_error_value b.

(** What the functions of [main.cpp] print, and what [read_from_file]
    prints under them. *)
Inductive output : Type :=
| print_usage (binpath : list byte)
| puts_invalid_use
| printf_operation_failed (reason : list byte)
| printf_failed_to_write_member (name : list byte)
| printf_unpacked (i : Z) (prefix : list byte)
| fprintf_on_file (filepath : list byte)
| printed_by_read (d : diagnostic).

(** [std::snprintf(buf, 1024, "%s%s.%s", prefix, name, extension)]: the
    string left in the buffer of 1024 characters. *)
Definition snprintf_path (prefix name extension : list byte) : list byte :=
  firstn 1023 (prefix ++ name ++ Literals.dot ++ extension).

Definition get_archive_member_extension (type : archive_type.t)
  : list byte :=
  match type with
  | archive_type.vsh => Literals.ext_vsh
  | archive_type.fx => Literals.ext_fx
  | _ => []
  end.

Definition EXIT_SUCCESS : Z := 0.
Definition EXIT_FAILURE : Z := 1.

Section Program.

(** OpenSSL's [MD5] and the contents of fresh arrays, as for the codec. *)
Variable MD5 : list byte -> list byte.
Variable indeterminate : nat -> byte.

(** The tables of [names.cpp], which is not among the sources: the names
    of the members, as C strings. *)
Variable retail_fx_names : list (list byte).
Variable custom_fx_names : list (list byte).
Variable vs_names : list (list byte).

(** The file system during one run: what [fopen(path, "rb")] and the
    reads after it give, and whether [fopen(path, "wb")] succeeds. *)
Variable fs_read : list byte -> option (list byte).
Variable fs_opens : list byte -> bool.

(** [argv[1] == "--help"] compares two pointers; this is its result. *)
Variable argv1_is_the_literal : bool.

Definition get_names (client : client_version.t) (type : archive_type.t)
  : list (list byte) :=
  match type with
  | archive_type.vsh => vs_names
  | archive_type.fx =>
      match client with
      | client_version.pc => retail_fx_names
      | client_version.ce => custom_fx_names
      | _ => []
      end
  | _ => []
  end.

(** The lambda passed to [for_each] in [perform_unpack_operation]; its
    state is [i] and the files written so far. *)
Definition unpack_visitor (prefix extension : list byte)
    (names : list (list byte)) (data : list byte)
    (st : nat * list (list byte * list byte))
  : unpack_error * (nat * list (list byte * list byte)) :=
  let '(i, written) := st in
  if (length names <=? i)%nat then (unpack_too_many_members, st)
  else
    let name := nth i names [] in
    let dstname := snprintf_path prefix name extension in
    match write_file (fs_opens dstname) data with
    | (false, _) => (unpack_write_error, st)
    | (true, _) => (unpack_success, (S i, written ++ [(dstname, data)]))
    end.

(** [perform_unpack_operation(op)]: the reason returned ([None] for
    [nullptr]), the files written in order, and what was printed. *)
Definition perform_unpack_operation (op : operation_context)
  : option (list byte) * list (list byte * list byte) * list output :=
  let '(error, archive, diagnostics) :=
    read_from_file MD5 (fs_read (file op)) archive_empty in
  let printed := map printed_by_read diagnostics in
  match error with
  | read_error.could_not_open_file =>
      (Some Literals.could_not_open_file, [], printed)
  | read_error.archive_data_is_corrupt =>
      (Some Literals.archive_is_corrupt, [], printed)
  | read_error.success =>
      let extension := get_archive_member_extension (type op) in
      let names := get_names (client op) (type op) in
      let '(result, (i, written)) :=
        for_each_until archive unpack_error_bool
          (fun data =>
             unpack_visitor (prefix op) extension names
               (span_bytes (contents (filebuf archive)) data))
          (O, []) in
      let error :=
        match result with Some r => r | None => unpack_success end in
      if unpack_error_eqb error unpack_success then
        (None, written, printed ++ [printf_unpacked (Z.of_nat i) (prefix op)])
      else if unpack_error_eqb error unpack_too_many_members then
        (None, written, printed ++ [printf_unpacked (Z.of_nat i) (prefix op)])
      else if unpack_error_bool unpack_write_error then
        (Some Literals.failed_to_write_member, written,
         printed ++ [printf_failed_to_write_member (nth i names [])])
      else if (i <? length names)%nat then
        (Some Literals.missing_members, written, printed)
      else
        (None, written, printed ++ [printf_unpacked (Z.of_nat i) (prefix op)])
  end.

(** The loop of [perform_pack_operation] that loads the member files:
    the buffers read, or the path of the first file that gave none. *)
Fixpoint load_member_files (prefix extension : list byte)
    (names : list (list byte)) (filebufs : list byte_buffer)
  : list byte + list byte_buffer :=
  match names with
  | [] => inr filebufs
  | name :: names' =>
      let filepath := snprintf_path prefix name extension in
      let filebuf := read_file (fs_read filepath) in
      if negb (byte_buffer_bool filebuf) then inl filepath
      else load_member_files prefix extension names' (filebufs ++ [filebuf])
  end.

(** [perform_pack_operation(op)]. *)
Definition perform_pack_operation (op : operation_context)
  : option (list byte) * list (list byte * list byte) * list output :=
  let names := get_names (client op) (type op) in
  let extension := get_archive_member_extension (type op) in
  match load_member_files (prefix op) extension names [] with
  | inl filepath =>
      (Some Literals.failed_to_read_member_file, [],
       [fprintf_on_file filepath])
  | inr filebufs =>
      let archive := load_members_from MD5 indeterminate filebufs
                       archive_empty in
      let '(result, _, written) :=
        flush_to_file (fs_opens (file op)) archive in
      let files :=
        match written with
        | Some bytes => [(file op, bytes)]
        | None => []
        end in
      match result with
      | write_error.success => (None, files, [])
      | write_error.no_data_to_write =>
          (Some Literals.no_data_to_write, files, [])
      | write_error.could_not_open_file =>
          (Some Literals.could_not_open_output_file, files, [])
      end
  end.

(** [perform_operation(op)]; its assertions hold for every context that
    [main] builds and are left out. *)
Definition perform_operation (op : operation_context)
  : option (list byte) * list (list byte * list byte) * list output :=
  match mode op with
  | operation_mode.unpack => perform_unpack_operation op
  | operation_mode.pack => perform_pack_operation op
  | _ => (Some Literals.unsupported_operation_mode, [], [])
  end.

(** [main(argc, argv)], with [argc] the number of strings in [argv]: the
    exit status, the files written and what was printed. *)
Definition main (argv : list (list byte))
  : Z * list (list byte * list byte) * list output :=
  let argc := length argv in
  let arg := fun i => nth i argv [] in
  let binpath := if (1 <=? argc)%nat then arg 0%nat else Literals.h1sp in
  if (2 <=? argc)%nat
     && (bytes_eqb (arg 1%nat) Literals.lit_h || argv1_is_the_literal)
  then (EXIT_SUCCESS, [], [print_usage binpath])
  else if ((5 <=? argc)%nat && (argc <=? 6)%nat)
          && (bytes_eqb (arg 1%nat) Literals.lit_u
              || bytes_eqb (arg 1%nat) Literals.lit_unpack
              || bytes_eqb (arg 1%nat) Literals.lit_p
              || bytes_eqb (arg 1%nat) Literals.lit_pack)
          && (bytes_eqb (arg 2%nat) Literals.lit_pc
              || bytes_eqb (arg 2%nat) Literals.lit_ce)
          && (bytes_eqb (arg 3%nat) Literals.lit_fx
              || bytes_eqb (arg 3%nat) Literals.lit_vsh)
  then
    let op :=
      mk_operation_context
        (if bytes_eqb (arg 1%nat) Literals.lit_u
            || bytes_eqb (arg 1%nat) Literals.lit_unpack
         then operation_mode.unpack else operation_mode.pack)
        (if bytes_eqb (arg 2%nat) Literals.lit_pc
         then client_version.pc else client_version.ce)
        (if bytes_eqb (arg 3%nat) Literals.lit_fx
         then archive_type.fx else archive_type.vsh)
        (arg 4%nat)
        (if (6 <=? argc)%nat then arg 5%nat
         else if bytes_eqb (arg 3%nat) Literals.lit_fx
              then Literals.prefix_fx
              else Literals.prefix_vsh) in
    let '(reason, written, printed) := perform_operation op in
    match reason with
    | Some r =>
        (EXIT_FAILURE, written, printed ++ [printf_operation_failed r])
    | None => (EXIT_SUCCESS, written, printed)
    end
  else (EXIT_FAILURE, [], [puts_invalid_use; print_usage binpath]).

End Program.

End Main.
Import Main.

(* ------------------------------------------------------------------ *)
(** ** Vocabulary of the further properties *)

Module MoreVocabulary.

(** The value of a hexadecimal digit character. *)
Definition hex_value (c : byte) : Z :=
  let v := Z_of_byte c in
  if v <? 0x3a then v - 0x30 else v - 0x61 + 10.

(** Visiting a list of members in order until a result is truthy. *)
Fixpoint visit_until {St R : Type} (truthy : R -> bool)
    (f : list byte -> St -> R * St) (ms : list (list byte)) (st : St)
  : option R * St :=
  match ms with
  | [] => (None, st)
  | m :: ms' =>
      let '(result, st) := f m st in
      if truthy result then (Some result, st)
      else visit_until truthy f ms' st
  end.

(** The file that holds the three members [], [1,2,3,4,5] and [9,9,9]. *)
Definition three_file : list byte :=
  Eval vm_compute in
    match flush_to_file true
            (load_members_from RFC1321.md5 zeroed
               [member []; member [x01; x02; x03; x04; x05];
                member [x09; x09; x09]] archive_empty) with
    | (_, _, Some file) => file
    | _ => []
    end.

(** A file whose chunk region was changed after the trailer was computed:
    the region holds the member [0x42], the trailer is that of the member
    [0x41]. *)
Definition tampered_file : list byte :=
  Eval vm_compute in
    encrypt_buffer h1_tea
      (chunk [x42] ++ trailer RFC1321.md5 (chunk [x41])) (mk_span 0 38).

(** The archive that reading [three_file] loads. *)
Definition three_archive : archive :=
  Eval vm_compute in
    snd (fst (read_from_file RFC1321.md5 (Some three_file) archive_empty)).

(** A run of the program: the name table holds the two names "a" and "b";
    the file "i" holds [three_file], the member files "fx/a.fx" and
    "fx/b.fx" hold one and two bytes, and no other file can be read. *)
Definition two_names : list (list byte) := [[x61]; [x62]].

Definition run_fs_read (path : list byte) : option (list byte) :=
  if bytes_eqb path [x69] then Some three_file
  else if bytes_eqb path
            (snprintf_path Literals.prefix_fx [x61] Literals.ext_fx)
       then Some [x0a]
  else if bytes_eqb path
            (snprintf_path Literals.prefix_fx [x62] Literals.ext_fx)
       then Some [x0b; x0c]
  else None.

(** Every file can be opened for writing, or none but "fx/a.fx". *)
Definition run_fs_opens_all (path : list byte) : bool := true.

Definition run_fs_opens_first (path : list byte) : bool :=
  bytes_eqb path (snprintf_path Literals.prefix_fx [x61] Literals.ext_fx).

(** [h1sp -u -pc -fx i] and [h1sp -p -pc -fx o], after [main] has parsed
    them. *)
Definition run_unpack : operation_context :=
  mk_operation_context operation_mode.unpack client_version.pc
    archive_type.fx [x69] Literals.prefix_fx.

Definition run_pack : operation_context :=
  mk_operation_context operation_mode.pack client_version.pc
    archive_type.fx [x6f] Literals.prefix_fx.

End MoreVocabulary.
Import MoreVocabulary.

(* ================================================================== *)
(** * Properties *)

(* ------------------------------------------------------------------ *)
(** ** Known answers *)

Module KnownAnswers.

(** The test vector of the Tiny Encryption Algorithm: the zero block under
    the zero key. *)
Example tea_zero_vector :
  encrypt_words (mk_tea little [0; 0; 0; 0]) 0 0 = (0x41ea3a0a, 0x94baa940).
Proof. vm_compute. reflexivity. Qed.

(** The digests of the empty string and of "abc" (RFC 1321, A.5), as
    [compute_md5_digest] prints them. *)
Example md5_empty :
  compute_md5_digest RFC1321.md5 []
  = [x64; x34; x31; x64; x38; x63; x64; x39; x38; x66; x30; x30; x62; x32;
     x30; x34; x65; x39; x38; x30; x30; x39; x39; x38; x65; x63; x66; x38;
     x34; x32; x37; x65].
Proof. vm_compute. reflexivity. Qed.

Example md5_abc :
  compute_md5_digest RFC1321.md5 [x61; x62; x63]
  = [x39; x30; x30; x31; x35; x30; x39; x38; x33; x63; x64; x32; x34; x66;
     x62; x30; x64; x36; x39; x36; x33; x66; x37; x64; x32; x38; x65; x31;
     x37; x66; x37; x32].
Proof. vm_compute. reflexivity. Qed.

(** An empty file is read as a file that cannot be opened. *)
Example read_file_empty : read_file (Some []) = read_file None.
Proof. reflexivity. Qed.

End KnownAnswers.

(* ------------------------------------------------------------------ *)
(** ** Bytes, words and memory *)

Module MemFacts.

Lemma Z_of_byte_range (b : byte) : 0 <= Z_of_byte b < 256.
Proof.
  unfold Z_of_byte. pose proof (Byte.to_N_bounded b). lia.
Qed.

Lemma byte_of_Z_of_byte (b : byte) : byte_of_Z (Z_of_byte b) = b.
Proof.
  unfold byte_of_Z. pose proof (Z_of_byte_range b) as Hb.
  rewrite Z.mod_small by exact Hb.
  unfold Z_of_byte. rewrite N2Z.id, Byte.of_to_N. reflexivity.
Qed.

Lemma Z_of_byte_of_Z (z : Z) : Z_of_byte (byte_of_Z z) = z mod 256.
Proof.
  unfold byte_of_Z, Z_of_byte.
  assert (Hr : 0 <= z mod 256 < 256) by (apply Z.mod_pos_bound; lia).
  destruct (Byte.of_N (Z.to_N (z mod 256))) as [b|] eqn:E.
  - apply Byte.to_of_N in E. rewrite E. lia.
  - apply Byte.of_N_None_iff in E. lia.
Qed.

Lemma le_combine_range (bs : list byte) :
  0 <= le_combine bs < 256 ^ Z.of_nat (length bs).
Proof.
  induction bs as [|b bs IH].
  - simpl. lia.
  - cbn [le_combine length]. rewrite Nat2Z.inj_succ, Z.pow_succ_r by lia.
    pose proof (Z_of_byte_range b). lia.
Qed.

Lemma le_split_combine (bs : list byte) :
  le_split (length bs) (le_combine bs) = bs.
Proof.
  induction bs as [|b bs IH].
  - reflexivity.
  - cbn [le_combine length le_split].
    pose proof (Z_of_byte_range b) as Hb.
    f_equal.
    + replace (Z_of_byte b + 256 * le_combine bs)
        with (Z_of_byte b + le_combine bs * 256) by lia.
      unfold byte_of_Z. rewrite Z.mod_add by lia.
      rewrite Z.mod_small by exact Hb.
      unfold Z_of_byte. rewrite N2Z.id, Byte.of_to_N. reflexivity.
    + replace ((Z_of_byte b + 256 * le_combine bs) / 256)
        with (le_combine bs); [exact IH|].
      replace (Z_of_byte b + 256 * le_combine bs)
        with (Z_of_byte b + le_combine bs * 256) by lia.
      rewrite Z.div_add by lia. rewrite Z.div_small by exact Hb. lia.
Qed.

Lemma le_combine_split (n : nat) (v : Z) :
  le_combine (le_split n v) = v mod 256 ^ Z.of_nat n.
Proof.
  revert v. induction n as [|n IH]; intros v.
  - simpl. rewrite Z.mod_1_r. reflexivity.
  - cbn [le_split le_combine]. rewrite IH, Z_of_byte_of_Z.
    rewrite Nat2Z.inj_succ, Z.pow_succ_r by lia.
    rewrite (Z.rem_mul_r v 256 (256 ^ Z.of_nat n)); lia.
Qed.

Lemma length_le_split (n : nat) (v : Z) : length (le_split n v) = n.
Proof.
  revert v. induction n as [|n IH]; intros v; simpl; [|rewrite IH];
    reflexivity.
Qed.

Lemma length_store (mem : list byte) (p : nat) (bs : list byte) :
  (p + length bs <= length mem)%nat ->
  length (store mem p bs) = length mem.
Proof.
  intros H. unfold store.
  rewrite !length_app, length_firstn, length_skipn. lia.
Qed.

(** Reading and writing inside the middle part of an array. *)
Lemma load_app_l (pre l : list byte) (k n : nat) :
  load (pre ++ l) (length pre + k) n = load l k n.
Proof.
  unfold load. rewrite skipn_app.
  rewrite skipn_all2 by lia.
  replace (length pre + k - length pre)%nat with k by lia.
  reflexivity.
Qed.

Lemma store_app_l (pre l : list byte) (k : nat) (bs : list byte) :
  store (pre ++ l) (length pre + k) bs = pre ++ store l k bs.
Proof.
  unfold store. rewrite firstn_app, skipn_app.
  rewrite firstn_all2 by lia. rewrite (skipn_all2 pre) by lia.
  replace (length pre + k - length pre)%nat with k by lia.
  replace (length pre + k + length bs - length pre)%nat
    with (k + length bs)%nat by lia.
  rewrite <- app_assoc. reflexivity.
Qed.

Lemma load_prefix (l post : list byte) (k n : nat) :
  (k + n <= length l)%nat -> load (l ++ post) k n = load l k n.
Proof.
  intros H. unfold load. rewrite skipn_app, firstn_app.
  rewrite length_skipn.
  replace (n - (length l - k))%nat with O by lia.
  rewrite firstn_O, app_nil_r. reflexivity.
Qed.

Lemma store_prefix (l post : list byte) (k : nat) (bs : list byte) :
  (k + length bs <= length l)%nat ->
  store (l ++ post) k bs = store l k bs ++ post.
Proof.
  intros H. unfold store. rewrite firstn_app, skipn_app.
  replace (k - length l)%nat with O by lia.
  replace (k + length bs - length l)%nat with O by lia.
  rewrite firstn_O, skipn_O, app_nil_r, <- !app_assoc. reflexivity.
Qed.

Lemma split_at (mem : list byte) (p n : nat) :
  mem = firstn p mem ++ load mem p n ++ skipn (p + n) mem.
Proof.
  unfold load.
  rewrite <- (firstn_skipn p mem) at 1. f_equal.
  rewrite <- (firstn_skipn n (skipn p mem)) at 1. f_equal.
  rewrite skipn_skipn. f_equal. lia.
Qed.

Lemma length_load (mem : list byte) (p n : nat) :
  (p + n <= length mem)%nat -> length (load mem p n) = n.
Proof.
  intros H. unfold load. rewrite length_firstn, length_skipn. lia.
Qed.

End MemFacts.
Import MemFacts.

(* ------------------------------------------------------------------ *)
(** ** The cipher on one block *)

Module TeaFacts.

Lemma u32_range (z : Z) : in_u32 (u32 z).
Proof. unfold in_u32, u32. apply Z.mod_pos_bound. lia. Qed.

Lemma u32_add_sub (a f : Z) : in_u32 a -> u32 (u32 (a + f) - f) = a.
Proof.
  unfold in_u32, u32. intros Ha.
  rewrite Zminus_mod_idemp_l.
  replace (a + f - f) with a by lia.
  apply Z.mod_small. exact Ha.
Qed.

Lemma word_of_range (e : endian) (bs : list byte) :
  length bs = 4%nat -> in_u32 (word_of e bs).
Proof.
  intros H. unfold in_u32, word_of.
  destruct e.
  - pose proof (le_combine_range bs) as R. rewrite H in R. exact R.
  - pose proof (le_combine_range (rev bs)) as R.
    rewrite length_rev, H in R. exact R.
Qed.

Lemma word_of_bytes (e : endian) (v : Z) :
  in_u32 v -> word_of e (bytes_of_word e v) = v.
Proof.
  unfold in_u32, word_of, bytes_of_word. intros Hv.
  destruct e; rewrite ?rev_involutive, le_combine_split;
    apply Z.mod_small; exact Hv.
Qed.

Lemma bytes_of_word_of (e : endian) (bs : list byte) :
  length bs = 4%nat -> bytes_of_word e (word_of e bs) = bs.
Proof.
  intros H. unfold word_of, bytes_of_word. destruct e.
  - rewrite <- H. apply le_split_combine.
  - rewrite <- (length_rev bs) in H. rewrite <- H, le_split_combine.
    apply rev_involutive.
Qed.

Lemma length_bytes_of_word (e : endian) (v : Z) :
  length (bytes_of_word e v) = 4%nat.
Proof.
  unfold bytes_of_word.
  destruct e; rewrite ?length_rev; apply length_le_split.
Qed.

Lemma encrypt_round_in_range (t : tea) (st : Z * Z * Z) :
  in_range (encrypt_round t st).
Proof.
  destruct st as [[s v0] v1]. unfold encrypt_round, in_range.
  repeat split; apply u32_range.
Qed.

Lemma decrypt_encrypt_round (t : tea) (st : Z * Z * Z) :
  in_range st -> decrypt_round t (encrypt_round t st) = st.
Proof.
  destruct st as [[s v0] v1]. intros (Hs & H0 & H1).
  unfold encrypt_round, decrypt_round. cbv zeta.
  rewrite (u32_add_sub v1) by exact H1.
  rewrite (u32_add_sub v0) by exact H0.
  rewrite (u32_add_sub s) by exact Hs.
  reflexivity.
Qed.

Lemma iter_S_encrypt_in_range (t : tea) (n : nat) (st : Z * Z * Z) :
  in_range (Nat.iter (S n) (encrypt_round t) st).
Proof. rewrite Nat.iter_succ. apply encrypt_round_in_range. Qed.

Lemma iter_encrypt_in_range (t : tea) (n : nat) (st : Z * Z * Z) :
  in_range st -> in_range (Nat.iter n (encrypt_round t) st).
Proof.
  intros H. destruct n as [|n]; [exact H|].
  apply iter_S_encrypt_in_range.
Qed.

Lemma decrypt_encrypt_rounds (t : tea) (n : nat) (st : Z * Z * Z) :
  in_range st ->
  Nat.iter n (decrypt_round t) (Nat.iter n (encrypt_round t) st) = st.
Proof.
  intros H. induction n as [|n IH]; [reflexivity|].
  rewrite Nat.iter_succ_r. rewrite Nat.iter_succ.
  rewrite decrypt_encrypt_round by (apply iter_encrypt_in_range; exact H).
  exact IH.
Qed.

(** The accumulator does not depend on the words. *)
Lemma encrypt_rounds_sum (t : tea) (n : nat) (s v0 v1 : Z) :
  fst (fst (Nat.iter n (encrypt_round t) (s, v0, v1)))
  = Nat.iter n (fun s => u32 (s + delta)) s.
Proof.
  induction n as [|n IH]; [reflexivity|].
  rewrite !Nat.iter_succ.
  destruct (Nat.iter n (encrypt_round t) (s, v0, v1)) as [[s' a] b].
  cbn [fst] in IH. rewrite <- IH. reflexivity.
Qed.

(** After the 32 rounds of [encrypt_chunk] the accumulator holds the
    constant that [decrypt_chunk] starts from. *)
Lemma encrypt_rounds_final_sum (t : tea) (v0 v1 : Z) :
  fst (fst (Nat.iter 32 (encrypt_round t) (0, v0, v1))) = 0xC6EF3720.
Proof. rewrite encrypt_rounds_sum. vm_compute. reflexivity. Qed.

Lemma encrypt_words_range (t : tea) (v0 v1 : Z) :
  in_u32 (fst (encrypt_words t v0 v1)) /\
  in_u32 (snd (encrypt_words t v0 v1)).
Proof.
  unfold encrypt_words.
  pose proof (iter_S_encrypt_in_range t 31 (0, v0, v1)) as R.
  destruct (Nat.iter 32 (encrypt_round t) (0, v0, v1)) as [[s a] b].
  destruct R as (_ & Ha & Hb). split; assumption.
Qed.

Lemma decrypt_encrypt_words (t : tea) (v0 v1 : Z) :
  in_u32 v0 -> in_u32 v1 ->
  decrypt_words t (fst (encrypt_words t v0 v1))
                  (snd (encrypt_words t v0 v1)) = (v0, v1).
Proof.
  intros H0 H1. unfold encrypt_words, decrypt_words.
  pose proof (encrypt_rounds_final_sum t v0 v1) as Hs.
  pose proof (decrypt_encrypt_rounds t 32 (0, v0, v1)) as Hr.
  destruct (Nat.iter 32 (encrypt_round t) (0, v0, v1)) as [[s a] b].
  cbn [fst snd] in *. subst s.
  rewrite Hr; [reflexivity|].
  split; [unfold in_u32; lia | split; assumption].
Qed.

End TeaFacts.
Import TeaFacts.

(* ------------------------------------------------------------------ *)
(** ** The cipher on the block at a pointer *)

Module ChunkFacts.

Lemma tea_encrypt_chunk_op (t : tea) (mem : list byte) (p : nat) :
  tea_encrypt_chunk t mem p
  = chunk_op (encrypt_words t) (tea_endian t) mem p.
Proof.
  unfold tea_encrypt_chunk, chunk_op, encrypt_words.
  destruct (Nat.iter 32 (encrypt_round t) _) as [[s a] b].
  destruct (tea_endian t); reflexivity.
Qed.

Lemma tea_decrypt_chunk_op (t : tea) (mem : list byte) (p : nat) :
  tea_decrypt_chunk t mem p
  = chunk_op (decrypt_words t) (tea_endian t) mem p.
Proof.
  unfold tea_decrypt_chunk, chunk_op, decrypt_words.
  destruct (Nat.iter 32 (decrypt_round t) _) as [[s a] b].
  destruct (tea_endian t); reflexivity.
Qed.

Lemma deserialize_word (e : endian) (mem : list byte) (p : nat) :
  deserialize e mem p = word_of e (load mem p 4).
Proof. destruct e; reflexivity. Qed.

Lemma serialize_word (e : endian) (v : Z) (mem : list byte) (p : nat) :
  fst (serialize e v mem p) = store mem p (bytes_of_word e v).
Proof. destruct e; reflexivity. Qed.

Section Op.

Variable w : Z -> Z -> Z * Z.
Variable e : endian.

Lemma chunk_op_store (mem : list byte) (p : nat) :
  chunk_op w e mem p
  = let v0 := word_of e (load mem p 4) in
    let v1 := word_of e (load mem (p + 4) 4) in
    store (store mem p (bytes_of_word e (fst (w v0 v1))))
          (p + 4) (bytes_of_word e (snd (w v0 v1))).
Proof.
  unfold chunk_op. rewrite !serialize_word, !deserialize_word.
  reflexivity.
Qed.

Lemma chunk_op_frame_l (pre l : list byte) (k : nat) :
  chunk_op w e (pre ++ l) (length pre + k) = pre ++ chunk_op w e l k.
Proof.
  rewrite !chunk_op_store. cbv zeta.
  rewrite <- !Nat.add_assoc, !load_app_l, !store_app_l.
  reflexivity.
Qed.

Lemma chunk_op_frame_r (l post : list byte) (k : nat) :
  (k + 8 <= length l)%nat ->
  chunk_op w e (l ++ post) k = chunk_op w e l k ++ post.
Proof.
  intros H. rewrite !chunk_op_store. cbv zeta.
  rewrite !load_prefix by lia.
  rewrite store_prefix by (rewrite length_bytes_of_word; lia).
  rewrite store_prefix; [reflexivity|].
  rewrite length_store; rewrite !length_bytes_of_word; lia.
Qed.

Lemma chunk_op_block (block : list byte) :
  length block = 8%nat ->
  chunk_op w e block 0
  = let v0 := word_of e (firstn 4 block) in
    let v1 := word_of e (skipn 4 block) in
    bytes_of_word e (fst (w v0 v1)) ++ bytes_of_word e (snd (w v0 v1)).
Proof.
  intros H. rewrite chunk_op_store. cbv zeta.
  assert (H0 : load block 0 4 = firstn 4 block) by reflexivity.
  assert (H1 : load block (0 + 4) 4 = skipn 4 block).
  { unfold load. apply firstn_all2. rewrite length_skipn. cbn. lia. }
  rewrite H0, H1.
  set (a := bytes_of_word e (fst _)). set (b := bytes_of_word e (snd _)).
  assert (La : length a = 4%nat) by apply length_bytes_of_word.
  assert (Lb : length b = 4%nat) by apply length_bytes_of_word.
  unfold store. rewrite La, Lb. cbn [Nat.add].
  rewrite firstn_O. cbn [app].
  rewrite firstn_app, La. cbn [Nat.sub]. rewrite firstn_O.
  rewrite app_nil_r, firstn_all2 by lia.
  rewrite (skipn_all2 (n := 8)); [rewrite app_nil_r; reflexivity|].
  rewrite length_app, length_skipn, La. lia.
Qed.

Lemma length_chunk_op_block (block : list byte) :
  length block = 8%nat -> length (chunk_op w e block 0) = 8%nat.
Proof.
  intros H. rewrite chunk_op_block by exact H. cbv zeta.
  rewrite length_app, !length_bytes_of_word. reflexivity.
Qed.

(** The chunk function acts on the eight bytes at [p] only. *)
Lemma chunk_op_local (mem : list byte) (p : nat) :
  (p + 8 <= length mem)%nat ->
  chunk_op w e mem p = on_block (fun b => chunk_op w e b 0) p mem.
Proof.
  intros H. unfold on_block.
  set (pre := firstn p mem). set (blk := load mem p 8).
  set (post := skipn (p + 8) mem).
  assert (E : mem = pre ++ blk ++ post) by apply split_at.
  assert (Lp : length pre = p)
    by (unfold pre; rewrite length_firstn; lia).
  replace (chunk_op w e mem p)
    with (chunk_op w e (pre ++ blk ++ post) (length pre + 0))
    by (rewrite <- E, Lp, Nat.add_0_r; reflexivity).
  rewrite chunk_op_frame_l.
  rewrite chunk_op_frame_r; [reflexivity|].
  unfold blk. rewrite length_load; lia.
Qed.

End Op.

Lemma tea_encrypt_chunk_local (t : tea) (mem : list byte) (p : nat) :
  (p + 8 <= length mem)%nat ->
  tea_encrypt_chunk t mem p = on_block (tea_block_encrypt t) p mem.
Proof.
  intros H. rewrite tea_encrypt_chunk_op, chunk_op_local by exact H.
  unfold on_block, tea_block_encrypt.
  rewrite tea_encrypt_chunk_op. reflexivity.
Qed.

Lemma tea_decrypt_chunk_local (t : tea) (mem : list byte) (p : nat) :
  (p + 8 <= length mem)%nat ->
  tea_decrypt_chunk t mem p = on_block (tea_block_decrypt t) p mem.
Proof.
  intros H. rewrite tea_decrypt_chunk_op, chunk_op_local by exact H.
  unfold on_block, tea_block_decrypt.
  rewrite tea_decrypt_chunk_op. reflexivity.
Qed.

Lemma length_tea_block_encrypt (t : tea) (block : list byte) :
  length block = 8%nat -> length (tea_block_encrypt t block) = 8%nat.
Proof.
  intros H. unfold tea_block_encrypt. rewrite tea_encrypt_chunk_op.
  apply length_chunk_op_block. exact H.
Qed.

Lemma length_tea_block_decrypt (t : tea) (block : list byte) :
  length block = 8%nat -> length (tea_block_decrypt t block) = 8%nat.
Proof.
  intros H. unfold tea_block_decrypt. rewrite tea_decrypt_chunk_op.
  apply length_chunk_op_block. exact H.
Qed.

(** Decrypting an encrypted block gives the block back. *)
Lemma tea_block_decrypt_encrypt (t : tea) (block : list byte) :
  length block = 8%nat ->
  tea_block_decrypt t (tea_block_encrypt t block) = block.
Proof.
  intros H. unfold tea_block_decrypt, tea_block_encrypt.
  rewrite tea_decrypt_chunk_op, tea_encrypt_chunk_op.
  set (e := tea_endian t).
  rewrite (chunk_op_block (encrypt_words t)) by exact H. cbv zeta.
  set (v0 := word_of e (firstn 4 block)).
  set (v1 := word_of e (skipn 4 block)).
  assert (L0 : length (firstn 4 block) = 4%nat)
    by (rewrite length_firstn; lia).
  assert (L1 : length (skipn 4 block) = 4%nat)
    by (rewrite length_skipn; lia).
  assert (R0 : in_u32 v0) by (apply word_of_range; exact L0).
  assert (R1 : in_u32 v1) by (apply word_of_range; exact L1).
  destruct (encrypt_words_range t v0 v1) as [Ra Rb].
  rewrite chunk_op_block
    by (rewrite length_app, !length_bytes_of_word; reflexivity).
  cbv zeta.
  rewrite firstn_app, skipn_app, !length_bytes_of_word.
  rewrite firstn_all2 by (rewrite length_bytes_of_word; lia).
  rewrite skipn_all2 by (rewrite length_bytes_of_word; lia).
  cbn [Nat.sub firstn skipn app]. rewrite app_nil_r.
  rewrite !word_of_bytes by assumption.
  rewrite decrypt_encrypt_words by assumption.
  cbn [fst snd]. unfold v0, v1.
  rewrite !bytes_of_word_of by assumption.
  apply firstn_skipn.
Qed.

End ChunkFacts.
Import ChunkFacts.

(* ------------------------------------------------------------------ *)
(** ** The cipher on a whole buffer *)

Module BufferFacts.

Lemma on_block_app (f : list byte -> list byte) (pre rest : list byte) :
  (8 <= length rest)%nat ->
  on_block f (length pre) (pre ++ rest)
  = pre ++ f (firstn 8 rest) ++ skipn 8 rest.
Proof.
  intros H. unfold on_block.
  rewrite firstn_app, Nat.sub_diag, firstn_O, app_nil_r.
  rewrite firstn_all2 by lia.
  replace (length pre) with (length pre + 0)%nat at 1 by lia.
  rewrite load_app_l. unfold load at 1. rewrite skipn_O.
  rewrite skipn_app, skipn_all2 by lia.
  replace (length pre + 8 - length pre)%nat with 8%nat by lia.
  reflexivity.
Qed.

Lemma length_on_block (f : list byte -> list byte) (p : nat)
    (buf : list byte) :
  keeps_blocks f -> (p + 8 <= length buf)%nat ->
  length (on_block f p buf) = length buf.
Proof.
  intros Hf H. unfold on_block.
  rewrite !length_app, Hf by (apply length_load; exact H).
  rewrite length_firstn, length_skipn. lia.
Qed.

Lemma on_block_inverse (D E : list byte -> list byte) (p : nat)
    (buf : list byte) :
  keeps_blocks E ->
  (forall b, length b = 8%nat -> D (E b) = b) ->
  (p + 8 <= length buf)%nat ->
  on_block D p (on_block E p buf) = buf.
Proof.
  intros HE HDE H.
  rewrite (split_at buf p 8) at 1 2.
  set (pre := firstn p buf). set (blk := load buf p 8).
  set (post := skipn (p + 8) buf).
  assert (Lp : length pre = p) by (unfold pre; rewrite length_firstn; lia).
  assert (Lb : length blk = 8%nat) by (apply length_load; exact H).
  rewrite <- Lp.
  rewrite on_block_app by (rewrite length_app; lia).
  rewrite firstn_app, Lb, Nat.sub_diag, firstn_O, app_nil_r.
  rewrite firstn_all2 by lia.
  rewrite skipn_app, Lb, Nat.sub_diag, skipn_O, skipn_all2 by lia.
  cbn [app].
  rewrite on_block_app by (rewrite length_app, HE by exact Lb; lia).
  rewrite firstn_app, HE by exact Lb.
  rewrite Nat.sub_diag, firstn_O, app_nil_r.
  rewrite firstn_all2 by (rewrite HE by exact Lb; lia).
  rewrite skipn_app, HE by exact Lb.
  rewrite Nat.sub_diag, skipn_O.
  rewrite skipn_all2 by (rewrite HE by exact Lb; lia).
  cbn [app]. rewrite HDE by exact Lb. reflexivity.
Qed.

Lemma length_map_blocks (f : list byte -> list byte) (k : nat)
    (l : list byte) :
  keeps_blocks f -> (8 * k <= length l)%nat ->
  length (map_blocks f k l) = length l.
Proof.
  intros Hf. revert l. induction k as [|k IH]; intros l H; [reflexivity|].
  cbn [map_blocks]. rewrite length_app.
  rewrite Hf by (rewrite length_firstn; lia).
  rewrite IH by (rewrite length_skipn; lia).
  rewrite length_skipn. lia.
Qed.

Lemma map_blocks_app (f : list byte -> list byte) (k : nat)
    (body post : list byte) :
  (8 * k <= length body)%nat ->
  map_blocks f k (body ++ post) = map_blocks f k body ++ post.
Proof.
  revert body. induction k as [|k IH]; intros body H; [reflexivity|].
  cbn [map_blocks].
  rewrite firstn_app, skipn_app.
  replace (8 - length body)%nat with O by lia.
  rewrite firstn_O, skipn_O, app_nil_r.
  rewrite IH by (rewrite length_skipn; lia).
  rewrite app_assoc. reflexivity.
Qed.

Lemma map_blocks_inverse (D E : list byte -> list byte) (k : nat)
    (l : list byte) :
  keeps_blocks E ->
  (forall b, length b = 8%nat -> D (E b) = b) ->
  (8 * k <= length l)%nat ->
  map_blocks D k (map_blocks E k l) = l.
Proof.
  intros HE HDE. revert l. induction k as [|k IH]; intros l H;
    [reflexivity|].
  assert (L8 : length (firstn 8 l) = 8%nat)
    by (rewrite length_firstn; lia).
  cbn [map_blocks].
  rewrite firstn_app, skipn_app, HE by exact L8.
  rewrite Nat.sub_diag, firstn_O, skipn_O, app_nil_r.
  rewrite firstn_all2 by (rewrite HE by exact L8; lia).
  rewrite skipn_all2 by (rewrite HE by exact L8; lia).
  cbn [app]. rewrite HDE by exact L8.
  rewrite IH by (rewrite length_skipn; lia).
  apply firstn_skipn.
Qed.

(** The policy's pass over the complete blocks, block by block. *)
Lemma fold_on_blocks (f : list byte -> list byte) (k a : nat)
    (pre rest : list byte) :
  keeps_blocks f ->
  length pre = (8 * a)%nat -> (8 * k <= length rest)%nat ->
  fold_left (fun b i => on_block f (8 * i) b) (seq a k) (pre ++ rest)
  = pre ++ map_blocks f k rest.
Proof.
  intros Hf. revert a pre rest.
  induction k as [|k IH]; intros a pre rest Hp H; [reflexivity|].
  cbn [seq fold_left map_blocks].
  rewrite <- Hp, on_block_app by lia.
  rewrite app_assoc.
  rewrite IH.
  - rewrite <- app_assoc. reflexivity.
  - rewrite length_app, Hf by (rewrite length_firstn; lia). lia.
  - rewrite length_skipn. lia.
Qed.

Lemma complete_blocks_map (f : list byte -> list byte) (buf : list byte) :
  keeps_blocks f ->
  complete_blocks f buf = map_blocks f (length buf / 8) buf.
Proof.
  intros Hf. unfold complete_blocks.
  apply (fold_on_blocks f (length buf / 8) 0 [] buf Hf eq_refl).
  apply Nat.Div0.mul_div_le.
Qed.

(** The pointer loop of [encrypt_buffer] and [decrypt_buffer] over [k]
    blocks: it reaches [end] within [k] steps and transforms each block. *)
Lemma chunk_loop_blocks (fc : list byte -> nat -> list byte)
    (f : list byte -> list byte) :
  keeps_blocks f ->
  (forall m q, (q + 8 <= length m)%nat -> fc m q = on_block f q m) ->
  forall (k fuel : nat) (pre rest : list byte),
    (k <= fuel)%nat -> (8 * k <= length rest)%nat ->
    chunk_loop fuel fc 8 (length pre) (length pre + 8 * k) (pre ++ rest)
    = pre ++ map_blocks f k rest.
Proof.
  intros Hf Hfc.
  induction k as [|k IH]; intros fuel pre rest Hk H.
  - replace (length pre + 8 * 0)%nat with (length pre) by lia.
    destruct fuel; cbn [chunk_loop]; rewrite Nat.eqb_refl; reflexivity.
  - destruct fuel as [|fuel]; [lia|].
    cbn [chunk_loop map_blocks].
    destruct (Nat.eqb_spec (length pre) (length pre + 8 * S k)) as [E|_];
      [lia|].
    rewrite Hfc by (rewrite length_app; lia).
    rewrite on_block_app by lia.
    rewrite app_assoc.
    replace (length pre + 8)%nat with (length (pre ++ f (firstn 8 rest))).
    2:{ rewrite length_app, Hf by (rewrite length_firstn; lia).
        reflexivity. }
    replace (length pre + 8 * S k)%nat
      with (length (pre ++ f (firstn 8 rest)) + 8 * k)%nat.
    2:{ rewrite length_app, Hf by (rewrite length_firstn; lia). lia. }
    rewrite IH.
    + rewrite <- app_assoc. reflexivity.
    + lia.
    + rewrite length_skipn. lia.
Qed.

End BufferFacts.
Import BufferFacts.

Module PolicyFacts.

Lemma on_block_frame (f : list byte -> list byte) (q : nat)
    (pre body post : list byte) :
  (q + 8 <= length body)%nat ->
  on_block f (length pre + q) (pre ++ body ++ post)
  = pre ++ on_block f q body ++ post.
Proof.
  intros H. unfold on_block.
  rewrite firstn_app_2, load_app_l, load_prefix by lia.
  rewrite <- Nat.add_assoc, skipn_app, skipn_all2 by lia.
  replace (length pre + (q + 8) - length pre)%nat with (q + 8)%nat by lia.
  rewrite firstn_app, skipn_app.
  replace (q - length body)%nat with O by lia.
  replace (q + 8 - length body)%nat with O by lia.
  rewrite firstn_O, skipn_O, app_nil_r, <- !app_assoc. reflexivity.
Qed.

(** A span inside an array cuts it in three. *)
Lemma span_split (mem : list byte) (s : span) :
  span_in s mem ->
  mem = firstn (sp_data s) mem ++ span_bytes mem s
        ++ skipn (sp_data s + sp_size s) mem
  /\ length (firstn (sp_data s) mem) = sp_data s
  /\ length (span_bytes mem s) = sp_size s.
Proof.
  unfold span_in, span_bytes. intros H. split; [apply split_at|].
  split; [rewrite length_firstn; lia | apply length_load; exact H].
Qed.

Lemma span_of_parts (pre body post : list byte) :
  let s := mk_span (length pre) (length body) in
  let mem := pre ++ body ++ post in
  span_in s mem /\ firstn (sp_data s) mem = pre /\ span_bytes mem s = body
  /\ skipn (sp_data s + sp_size s) mem = post.
Proof.
  cbv zeta. unfold span_in, span_bytes. cbn [sp_data sp_size].
  split; [rewrite !length_app; lia|].
  split.
  - rewrite firstn_app, Nat.sub_diag, firstn_O, app_nil_r.
    apply firstn_all2. lia.
  - split.
    + replace (length pre) with (length pre + 0)%nat at 1 by lia.
      rewrite load_app_l, load_prefix by lia.
      unfold load. rewrite skipn_O. apply firstn_all2. lia.
    + rewrite app_assoc, <- length_app.
      rewrite skipn_app, Nat.sub_diag, skipn_O, skipn_all2 by lia.
      reflexivity.
Qed.

Section Scheme.

(** A chunk function [fc] that acts as [f] on the block at its
    pointer. *)
Variable fc : list byte -> nat -> list byte.
Variable f : list byte -> list byte.
Hypothesis f_keeps : keeps_blocks f.
Hypothesis fc_local :
  forall m q, (q + 8 <= length m)%nat -> fc m q = on_block f q m.

Lemma fc_frame (q : nat) (pre body post : list byte) :
  (q + 8 <= length body)%nat ->
  fc (pre ++ body ++ post) (length pre + q)
  = pre ++ on_block f q body ++ post.
Proof.
  intros H. rewrite fc_local by (rewrite !length_app; lia).
  apply on_block_frame. exact H.
Qed.

Lemma loop_frame (fuel : nat) (pre body post : list byte) :
  (length body / 8 <= fuel)%nat ->
  chunk_loop fuel fc 8 (length pre) (length pre + 8 * (length body / 8))
    (pre ++ body ++ post)
  = pre ++ map_blocks f (length body / 8) body ++ post.
Proof.
  intros H.
  pose proof (Nat.Div0.mul_div_le (length body) 8) as Hk.
  rewrite (chunk_loop_blocks fc f f_keeps fc_local)
    by (rewrite ?length_app; lia).
  rewrite map_blocks_app by exact Hk. reflexivity.
Qed.

End Scheme.

Lemma whole_blocks (n : nat) :
  (n - n mod 8 = 8 * (n / 8))%nat.
Proof. pose proof (Nat.div_mod_eq n 8). lia. Qed.

Lemma tea_encrypt_keeps (t : tea) : keeps_blocks (tea_block_encrypt t).
Proof. intros b. apply length_tea_block_encrypt. Qed.

Lemma tea_decrypt_keeps (t : tea) : keeps_blocks (tea_block_decrypt t).
Proof. intros b. apply length_tea_block_decrypt. Qed.

Lemma length_encrypt_policy (E : list byte -> list byte)
    (buf : list byte) :
  keeps_blocks E -> length (encrypt_policy E buf) = length buf.
Proof.
  intros HE. unfold encrypt_policy.
  pose proof (Nat.Div0.mul_div_le (length buf) 8) as Hk.
  assert (L : length (complete_blocks E buf) = length buf).
  { rewrite complete_blocks_map by exact HE.
    apply length_map_blocks; assumption. }
  destruct (Nat.ltb_spec (length buf) 8) as [|Hn]; [reflexivity|].
  destruct (Nat.eqb (length buf mod 8) 0); [exact L|].
  rewrite length_on_block; [exact L | exact HE | lia].
Qed.

(** [encrypt_buffer] follows the encryption policy on the bytes of the
    span and leaves the bytes around it. *)
Lemma encrypt_buffer_policy (t : tea) (mem : list byte) (s : span) :
  span_in s mem ->
  encrypt_buffer t mem s
  = firstn (sp_data s) mem
    ++ encrypt_policy (tea_block_encrypt t) (span_bytes mem s)
    ++ skipn (sp_data s + sp_size s) mem.
Proof.
  intros Hin. destruct (span_split mem s Hin) as (E & Lp & Lb).
  set (pre := firstn (sp_data s) mem) in *.
  set (body := span_bytes mem s) in *.
  set (post := skipn (sp_data s + sp_size s) mem) in *.
  unfold encrypt_buffer, encrypt_policy.
  change (enc_chunk_size t) with 8%nat.
  change (encrypt_chunk t) with (tea_encrypt_chunk t).
  rewrite Lb.
  destruct (Nat.ltb_spec (sp_size s) 8) as [|Hn]; [exact E|].
  assert (M : chunk_loop (sp_size s) (tea_encrypt_chunk t) 8 (sp_data s)
                (sp_data s + sp_size s - sp_size s mod 8) mem
              = pre ++ map_blocks (tea_block_encrypt t) (length body / 8) body
                ++ post).
  { rewrite <- (loop_frame (tea_encrypt_chunk t) (tea_block_encrypt t)
                  (tea_encrypt_keeps t) (tea_encrypt_chunk_local t)
                  (sp_size s))
      by (rewrite Lb; apply Nat.Div0.div_le_upper_bound; lia).
    rewrite <- E, Lp, Lb, <- whole_blocks. f_equal.
    pose proof (Nat.mod_upper_bound (sp_size s) 8). lia. }
  cbv zeta. rewrite M. clear M.
  rewrite complete_blocks_map by apply tea_encrypt_keeps.
  destruct (Nat.eqb (sp_size s mod 8) 0); cbn [negb]; [reflexivity|].
  replace (sp_data s + sp_size s - 8)%nat
    with (length pre + (sp_size s - 8))%nat by lia.
  apply (fc_frame (tea_encrypt_chunk t) (tea_block_encrypt t)
           (tea_encrypt_chunk_local t)).
  rewrite length_map_blocks; [lia | apply tea_encrypt_keeps |].
  apply Nat.Div0.mul_div_le.
Qed.

(** [decrypt_buffer] follows the decryption policy. *)
Lemma decrypt_buffer_policy (t : tea) (mem : list byte) (s : span) :
  span_in s mem ->
  decrypt_buffer t mem s
  = firstn (sp_data s) mem
    ++ decrypt_policy (tea_block_decrypt t) (span_bytes mem s)
    ++ skipn (sp_data s + sp_size s) mem.
Proof.
  intros Hin. destruct (span_split mem s Hin) as (E & Lp & Lb).
  set (pre := firstn (sp_data s) mem) in *.
  set (body := span_bytes mem s) in *.
  set (post := skipn (sp_data s + sp_size s) mem) in *.
  unfold decrypt_buffer, decrypt_policy.
  change (dec_chunk_size t) with 8%nat.
  change (decrypt_chunk t) with (tea_decrypt_chunk t).
  cbn [span_first sp_data sp_size].
  rewrite Lb.
  destruct (Nat.ltb_spec (sp_size s) 8) as [|Hn]; [exact E|].
  destruct (Nat.leb_spec (sp_size s) 0) as [|_]; [lia|]. cbn [orb].
  set (body1 := if Nat.eqb (sp_size s mod 8) 0 then body
                else on_block (tea_block_decrypt t) (sp_size s - 8) body).
  assert (L1 : length body1 = sp_size s).
  { unfold body1. destruct (Nat.eqb (sp_size s mod 8) 0); [exact Lb|].
    rewrite length_on_block; [exact Lb | apply tea_decrypt_keeps | lia]. }
  assert (M1 : (if negb (Nat.eqb (sp_size s mod 8) 0)
                then tea_decrypt_chunk t mem (sp_data s + sp_size s - 8)
                else mem) = pre ++ body1 ++ post).
  { unfold body1. destruct (Nat.eqb (sp_size s mod 8) 0); cbn [negb];
      [exact E|].
    replace (sp_data s + sp_size s - 8)%nat
      with (length pre + (sp_size s - 8))%nat by lia.
    rewrite E at 1.
    apply (fc_frame (tea_decrypt_chunk t) (tea_block_decrypt t)
             (tea_decrypt_chunk_local t)).
    lia. }
  cbv zeta. rewrite M1.
  rewrite whole_blocks.
  assert (M : chunk_loop (sp_size s) (tea_decrypt_chunk t) 8 (sp_data s)
                (sp_data s + 8 * (sp_size s / 8)) (pre ++ body1 ++ post)
              = pre ++ map_blocks (tea_block_decrypt t) (length body1 / 8)
                         body1 ++ post).
  { rewrite <- (loop_frame (tea_decrypt_chunk t) (tea_block_decrypt t)
                  (tea_decrypt_keeps t) (tea_decrypt_chunk_local t)
                  (sp_size s))
      by (rewrite L1; apply Nat.Div0.div_le_upper_bound; lia).
    rewrite Lp, L1. reflexivity. }
  rewrite M. clear M. rewrite <- L1.
  pose proof (Nat.Div0.mul_div_le (length body1) 8) as Hk.
  assert (Lf : length (firstn (8 * (length body1 / 8)) body1)
               = (8 * (length body1 / 8))%nat)
    by (rewrite length_firstn; lia).
  rewrite complete_blocks_map by apply tea_decrypt_keeps.
  rewrite Lf.
  replace (8 * (length body1 / 8) / 8)%nat with (length body1 / 8)%nat
    by (rewrite Nat.mul_comm, Nat.div_mul by lia; reflexivity).
  rewrite <- (map_blocks_app _ _ (firstn _ body1) (skipn _ body1)) by lia.
  rewrite firstn_skipn. reflexivity.
Qed.

(** The decryption policy undoes the encryption policy. *)
Lemma decrypt_encrypt_policy (D E : list byte -> list byte)
    (buf : list byte) :
  keeps_blocks E -> keeps_blocks D ->
  (forall b, length b = 8%nat -> D (E b) = b) ->
  decrypt_policy D (encrypt_policy E buf) = buf.
Proof.
  intros HE HD HDE.
  pose proof (length_encrypt_policy E buf HE) as L.
  unfold decrypt_policy. rewrite L. clear L.
  unfold encrypt_policy.
  pose proof (Nat.Div0.mul_div_le (length buf) 8) as Hk.
  assert (Lc : length (complete_blocks E buf) = length buf).
  { rewrite complete_blocks_map by exact HE.
    apply length_map_blocks; assumption. }
  destruct (Nat.ltb_spec (length buf) 8) as [|Hn]; [reflexivity|].
  assert (B1 : (if Nat.eqb (length buf mod 8) 0
                then if Nat.eqb (length buf mod 8) 0
                     then complete_blocks E buf
                     else on_block E (length buf - 8) (complete_blocks E buf)
                else on_block D (length buf - 8)
                       (if Nat.eqb (length buf mod 8) 0
                        then complete_blocks E buf
                        else on_block E (length buf - 8)
                               (complete_blocks E buf)))
               = complete_blocks E buf).
  { destruct (Nat.eqb (length buf mod 8) 0); [reflexivity|].
    apply on_block_inverse; [exact HE | exact HDE | lia]. }
  rewrite B1. rewrite whole_blocks.
  assert (Lf : length (firstn (8 * (length buf / 8)) (complete_blocks E buf))
               = (8 * (length buf / 8))%nat)
    by (rewrite length_firstn; lia).
  rewrite (complete_blocks_map D) by exact HD.
  rewrite Lf.
  replace (8 * (length buf / 8) / 8)%nat with (length buf / 8)%nat
    by (rewrite Nat.mul_comm, Nat.div_mul by lia; reflexivity).
  rewrite <- map_blocks_app by lia.
  rewrite firstn_skipn.
  rewrite complete_blocks_map by exact HE.
  apply map_blocks_inverse; assumption.
Qed.

(** Decrypting the span that was encrypted restores the array. *)
Lemma decrypt_encrypt_buffer (t : tea) (mem : list byte) (s : span) :
  span_in s mem ->
  decrypt_buffer t (encrypt_buffer t mem s) s = mem.
Proof.
  intros Hin. destruct (span_split mem s Hin) as (E & Lp & Lb).
  rewrite encrypt_buffer_policy by exact Hin.
  set (pre := firstn (sp_data s) mem) in *.
  set (body := span_bytes mem s) in *.
  set (post := skipn (sp_data s + sp_size s) mem) in *.
  set (body' := encrypt_policy (tea_block_encrypt t) body).
  assert (Lb' : length body' = sp_size s).
  { unfold body'. rewrite length_encrypt_policy by apply tea_encrypt_keeps.
    exact Lb. }
  destruct (span_of_parts pre body' post) as (Hin' & Hpre & Hbody & Hpost).
  rewrite Lp, Lb' in Hin', Hpre, Hbody, Hpost.
  replace (mk_span (sp_data s) (sp_size s)) with s in *
    by (destruct s; reflexivity).
  rewrite decrypt_buffer_policy by exact Hin'.
  rewrite Hpre, Hbody, Hpost. unfold body'.
  rewrite decrypt_encrypt_policy.
  - symmetry. exact E.
  - apply tea_encrypt_keeps.
  - apply tea_decrypt_keeps.
  - apply tea_block_decrypt_encrypt.
Qed.

End PolicyFacts.
Import PolicyFacts.

(* ------------------------------------------------------------------ *)
(** ** Assembling an archive *)

Module AssembleFacts.

Lemma length_hex (ds acc : list byte) :
  length (fold_left (fun result d => result ++ snprintf_02hhx d) ds acc)
  = (length acc + 2 * length ds)%nat.
Proof.
  revert acc. induction ds as [|d ds IH]; intros acc; cbn [fold_left length].
  - lia.
  - rewrite IH, length_app. cbn [snprintf_02hhx length]. lia.
Qed.

Lemma length_compute_md5_digest (MD5 : list byte -> list byte)
    (buf : list byte) :
  length (MD5 buf) = MD5_DIGEST_LENGTH ->
  length (compute_md5_digest MD5 buf) = 32%nat.
Proof.
  intros H. unfold compute_md5_digest. rewrite length_hex, H. reflexivity.
Qed.

Lemma length_trailer (MD5 : list byte -> list byte) (region : list byte) :
  length (MD5 region) = MD5_DIGEST_LENGTH ->
  length (trailer MD5 region) = 33%nat.
Proof.
  intros H. unfold trailer.
  rewrite length_app, length_compute_md5_digest by exact H. reflexivity.
Qed.

(** The bytes that [range()] of a member spans. *)
Lemma span_bytes_range_of (b : byte_buffer) :
  span_bytes (contents b) (range_of b) = contents b.
Proof.
  unfold span_bytes, range_of, nbytes, contents, load. cbn [sp_data sp_size].
  destruct (buffer b) as [l|]; [|reflexivity].
  rewrite skipn_O. apply firstn_all.
Qed.

Lemma nbytes_contents (b : byte_buffer) : nbytes b = length (contents b).
Proof. unfold nbytes, contents. destruct (buffer b); reflexivity. Qed.

Lemma length_chunk (payload : list byte) :
  length (chunk payload) = (4 + length payload)%nat.
Proof. unfold chunk. rewrite length_app, length_le_split. reflexivity. Qed.

Lemma le_split_u32 (v : Z) : le_split 4 (u32 v) = le_split 4 v.
Proof.
  assert (G : forall n a b, a mod 256 ^ Z.of_nat n = b mod 256 ^ Z.of_nat n ->
                            le_split n a = le_split n b).
  { induction n as [|n IH]; intros a b H; [reflexivity|].
    rewrite Nat2Z.inj_succ, Z.pow_succ_r in H by lia.
    rewrite !(Z.rem_mul_r _ 256 (256 ^ Z.of_nat n)) in H by lia.
    assert (H0 : a mod 256 = b mod 256).
    { pose proof (Z.mod_pos_bound a 256). pose proof (Z.mod_pos_bound b 256).
      assert (E : (a mod 256 + 256 * ((a / 256) mod 256 ^ Z.of_nat n)) mod 256
                  = (b mod 256 + 256 * ((b / 256) mod 256 ^ Z.of_nat n))
                      mod 256) by (rewrite H; reflexivity).
      rewrite !(Z.mul_comm 256), !Z.mod_add, !Z.mod_mod in E by lia.
      exact E. }
    cbn [le_split]. f_equal.
    - unfold byte_of_Z. rewrite H0. reflexivity.
    - apply IH. lia. }
  apply G. unfold u32. change (256 ^ Z.of_nat 4) with (2 ^ 32).
  apply Z.mod_mod. lia.
Qed.

Lemma store_at_end (done junk bs : list byte) :
  store (done ++ junk) (length done) bs
  = done ++ bs ++ skipn (length bs) junk.
Proof.
  replace (length done) with (length done + 0)%nat by lia.
  rewrite store_app_l. unfold store. rewrite firstn_O. reflexivity.
Qed.

Section Assemble.

Variable MD5 : list byte -> list byte.
Variable indeterminate : nat -> byte.

(** One member written at the cursor. *)
Lemma write_member_chunk (done junk : list byte) (member : byte_buffer) :
  write_member (done ++ junk, length done) member
  = ((done ++ chunk (contents member))
       ++ skipn (length (chunk (contents member))) junk,
     length (done ++ chunk (contents member))).
Proof.
  unfold write_member, serialize, chunk.
  rewrite span_bytes_range_of, nbytes_contents, le_split_u32.
  rewrite store_at_end.
  set (hdr := le_split 4 (Z.of_nat (length (contents member)))).
  assert (Lh : length hdr = 4%nat) by apply length_le_split.
  rewrite Lh.
  replace (length done + 4)%nat with (length (done ++ hdr))
    by (rewrite length_app; lia).
  rewrite app_assoc, store_at_end.
  rewrite skipn_skipn, !length_app, Lh.
  rewrite <- !app_assoc.
  replace (length (contents member) + 4)%nat
    with (4 + length (contents member))%nat by lia.
  rewrite Nat.add_assoc. reflexivity.
Qed.

(** The members written one after the other. *)
Lemma write_members_region (members : list byte_buffer) :
  forall done junk,
    fold_left write_member members (done ++ junk, length done)
    = ((done ++ chunk_region (map contents members))
         ++ skipn (length (chunk_region (map contents members))) junk,
       length (done ++ chunk_region (map contents members))).
Proof.
  induction members as [|m ms IH]; intros done junk.
  - cbn [fold_left map chunk_region concat length].
    rewrite app_nil_r, skipn_O. reflexivity.
  - cbn [fold_left map]. rewrite write_member_chunk, IH.
    unfold chunk_region. cbn [map concat].
    rewrite skipn_skipn, !length_app, <- !app_assoc.
    rewrite (Nat.add_comm (length (concat _)) (length (chunk _))).
    rewrite Nat.add_assoc. reflexivity.
Qed.

Lemma total_size_region (members : list byte_buffer) :
  (fold_left (fun size buf => size + nbytes buf) members 0
   + sizeof_chunk_size_type * length members)%nat
  = length (chunk_region (map contents members)).
Proof.
  assert (G : forall acc,
             (fold_left (fun size buf => size + nbytes buf) members acc
              + sizeof_chunk_size_type * length members)%nat
             = (acc + length (chunk_region (map contents members)))%nat).
  { induction members as [|m ms IH]; intros acc.
    - cbn. lia.
    - cbn [fold_left map length]. unfold chunk_region in *.
      cbn [map concat]. rewrite length_app, length_chunk.
      specialize (IH (acc + nbytes m)%nat).
      rewrite nbytes_contents in *. unfold sizeof_chunk_size_type in *.
      lia. }
  apply G.
Qed.

Lemma length_new_bytes (n : nat) : length (new_bytes indeterminate n) = n.
Proof. unfold new_bytes. rewrite length_map, length_seq. reflexivity. Qed.

(** [load_members_from] builds the chunk region of the members followed
    by the trailer, whatever the fresh array held. *)
Lemma load_members_from_format (members : list byte_buffer) (a : archive) :
  (forall b, length (MD5 b) = MD5_DIGEST_LENGTH) ->
  let region := chunk_region (map contents members) in
  load_members_from MD5 indeterminate members a
  = mk_archive (mk_byte_buffer (Some (region ++ trailer MD5 region)))
               (mk_span 0 (length region)).
Proof.
  intros HMD5 region. unfold load_members_from.
  rewrite total_size_region. fold region.
  cbn [contents buffer nbytes].
  pose proof (write_members_region members [] (new_bytes indeterminate
                (length region + 33))) as W.
  cbn [app length] in W. fold region in W. rewrite W. clear W.
  rewrite length_new_bytes.
  replace (length region + 33 - 33)%nat with (length region) by lia.
  set (junk := skipn (length region) (new_bytes indeterminate
                                        (length region + 33))).
  assert (Lj : length junk = 33%nat)
    by (unfold junk; rewrite length_skipn, length_new_bytes; lia).
  assert (R : span_bytes (region ++ junk)
                (span_first (range_of (mk_byte_buffer
                   (Some (new_bytes indeterminate (length region + 33)))))
                   (length region)) = region).
  { unfold span_bytes, span_first, load. cbn [sp_data sp_size].
    rewrite skipn_O, firstn_app, Nat.sub_diag, firstn_O, app_nil_r.
    apply firstn_all. }
  rewrite R. clear R.
  assert (T : firstn 33 (c_str (compute_md5_digest MD5 region))
              = trailer MD5 region).
  { apply firstn_all2. fold (trailer MD5 region).
    rewrite length_trailer by apply HMD5. lia. }
  rewrite T. clear T.
  rewrite store_at_end, length_trailer by apply HMD5.
  rewrite skipn_all2 by lia. rewrite app_nil_r.
  unfold span_first, range_of. cbn [sp_data]. reflexivity.
Qed.

End Assemble.

End AssembleFacts.
Import AssembleFacts.

(* ------------------------------------------------------------------ *)
(** ** The enumerator *)

Module EnumFacts.

Lemma deserialize_range (e : endian) (mem : list byte) (p : nat) :
  0 <= deserialize e mem p < 2 ^ 32.
Proof.
  assert (G : forall bs, (length bs <= 4)%nat -> 0 <= le_combine bs < 2 ^ 32).
  { intros bs H. pose proof (le_combine_range bs) as R.
    assert (256 ^ Z.of_nat (length bs) <= 256 ^ 4)
      by (apply Z.pow_le_mono_r; lia).
    change (256 ^ 4) with (2 ^ 32) in *. lia. }
  assert (L : (length (load mem p 4) <= 4)%nat)
    by (unfold load; rewrite length_firstn; lia).
  unfold deserialize. destruct e; apply G; rewrite ?length_rev; exact L.
Qed.

(** The length field that a view starts with. *)
Lemma deserialize_view (mem : list byte) (s : span) :
  (4 <= sp_size s)%nat ->
  deserialize little mem (sp_data s)
  = le_combine (firstn 4 (span_bytes mem s)).
Proof.
  intros H. unfold deserialize, span_bytes, load.
  rewrite firstn_firstn. replace (Nat.min 4 (sp_size s)) with 4%nat by lia.
  reflexivity.
Qed.

Lemma size_t_small (z : Z) : 0 <= z < 2 ^ 64 -> size_t z = z.
Proof. intros H. unfold size_t. apply Z.mod_small. exact H. Qed.

(** [has_error], case by case. *)
Lemma has_error_true_iff (mem : list byte) (e : archive_enumerator) :
  has_error mem e = true <->
  sp_size (range e) <> O /\
  ((sp_size (range e) < 4)%nat \/
   deserialize little mem (sp_data (range e)) + 4
     > Z.of_nat (sp_size (range e))).
Proof.
  unfold has_error, is_at_end, sizeof_chunk_size_type.
  pose proof (deserialize_range little mem (sp_data (range e))) as R.
  destruct (Nat.eqb_spec (sp_size (range e)) 0) as [E0|N0].
  - split; [discriminate | intros [H _]; contradiction].
  - destruct (Nat.ltb_spec (sp_size (range e)) 4) as [L4|G4].
    + split; [intros _; split; [exact N0 | left; exact L4] | reflexivity].
    + rewrite size_t_small by (change (Z.of_nat 4) with 4; lia).
      change (Z.of_nat 4) with 4.
      destruct (Z.gtb_spec (deserialize little mem (sp_data (range e)) + 4)
                  (Z.of_nat (sp_size (range e)))) as [Gt|Le].
      * split; [intros _; split; [exact N0 | right; lia] | reflexivity].
      * split; [discriminate | intros [_ [H|H]]; lia].
Qed.

Lemma finished_false_iff (mem : list byte) (e : archive_enumerator) :
  finished mem e = false <->
  (4 <= sp_size (range e))%nat /\
  deserialize little mem (sp_data (range e)) + 4
    <= Z.of_nat (sp_size (range e)).
Proof.
  unfold finished.
  pose proof (has_error_true_iff mem e) as HE.
  unfold is_at_end in *.
  destruct (Nat.eqb_spec (sp_size (range e)) 0) as [E0|N0]; cbn [orb].
  - split; [discriminate | lia].
  - destruct (has_error mem e).
    + split; [discriminate|]. intros [H4 HL].
      destruct (proj1 HE eq_refl) as [_ [H|H]]; lia.
    + split; [|reflexivity]. intros _.
      split.
      * destruct (Nat.ltb_spec (sp_size (range e)) 4) as [L4|G4];
          [|exact G4].
        assert (false = true) by (apply HE; split; [exact N0 | left; exact L4]).
        discriminate.
      * destruct (Z.leb_spec
                    (deserialize little mem (sp_data (range e)) + 4)
                    (Z.of_nat (sp_size (range e)))) as [Le|Gt]; [exact Le|].
        assert (false = true)
          by (apply HE; split; [exact N0 | right; lia]).
        discriminate.
Qed.

(** Advancing an unfinished enumerator shrinks its view, so a loop over
    [advance] ends within [sp_size] steps. *)
Lemma advance_shrinks (mem : list byte) (e : archive_enumerator) :
  finished mem e = false ->
  (sp_size (range (advance mem e)) < sp_size (range e))%nat.
Proof.
  intros F. unfold advance. rewrite F. cbn [negb range span_last sp_size].
  apply finished_false_iff in F. destruct F as [H4 HL].
  pose proof (deserialize_range little mem (sp_data (range e))) as R.
  unfold sizeof_chunk_size_type. change (Z.of_nat 4) with 4.
  set (L := deserialize little mem (sp_data (range e))) in *.
  set (sz := sp_size (range e)) in *.
  destruct (Z.ltb_spec (Z.of_nat sz) (2 ^ 64)) as [Small|Big].
  - rewrite (size_t_small (Z.of_nat sz - L)) by lia.
    rewrite size_t_small by lia. lia.
  - pose proof (Z.mod_pos_bound (size_t (Z.of_nat sz - L) - 4) (2 ^ 64)
                  ltac:(lia)) as B.
    unfold size_t at 1. lia.
Qed.

Lemma member_loop_finishes (mem : list byte) (fuel : nat) :
  forall e n, (sp_size (range e) < fuel)%nat ->
              finished mem (fst (member_loop fuel mem e n)) = true.
Proof.
  induction fuel as [|fuel IH]; intros e n H; [lia|].
  cbn [member_loop].
  destruct (finished mem e) eqn:F; cbn [negb fst]; [exact F|].
  apply IH. pose proof (advance_shrinks mem e F). lia.
Qed.

(** More fuel than the size of the view changes nothing. *)
Lemma for_each_loop_fuel {St : Type} (mem : list byte)
    (f : span -> St -> St) (fuel fuel' : nat) :
  forall e st,
    (sp_size (range e) < fuel)%nat -> (sp_size (range e) < fuel')%nat ->
    for_each_loop fuel mem f e st = for_each_loop fuel' mem f e st.
Proof.
  revert fuel'. induction fuel as [|fuel IH]; intros fuel' e st H H';
    [lia|].
  destruct fuel' as [|fuel']; [lia|].
  cbn [for_each_loop].
  destruct (finished mem e) eqn:F; cbn [negb]; [reflexivity|].
  pose proof (advance_shrinks mem e F).
  apply IH; lia.
Qed.

Lemma deserialize_chunk_header (pre payload rest : list byte) :
  fits_length_field payload ->
  deserialize little (pre ++ chunk payload ++ rest) (length pre)
  = Z.of_nat (length payload).
Proof.
  unfold fits_length_field. intros H. unfold deserialize, chunk.
  replace (length pre) with (length pre + 0)%nat by lia.
  rewrite load_app_l, <- app_assoc.
  rewrite load_prefix by (rewrite length_le_split; lia).
  unfold load. rewrite skipn_O, firstn_all2
    by (rewrite length_le_split; lia).
  rewrite le_combine_split. change (256 ^ Z.of_nat 4) with (2 ^ 32).
  apply Z.mod_small. lia.
Qed.

(** One step over a well-formed chunk. *)
Lemma enumerator_step (pre payload rest : list byte) (sz : nat) :
  fits_length_field payload ->
  (4 + length payload <= sz)%nat -> Z.of_nat sz < 2 ^ 64 ->
  let mem := pre ++ chunk payload ++ rest in
  let e := mk_enumerator (mk_span (length pre) sz) in
  finished mem e = false /\
  advance mem e
  = mk_enumerator (mk_span (length (pre ++ chunk payload))
                           (sz - (4 + length payload))) /\
  span_bytes mem (enumerator_data mem e) = payload.
Proof.
  intros Hfit Hsz Hsmall mem e.
  pose proof (deserialize_chunk_header pre payload rest Hfit) as HL.
  fold mem in HL.
  assert (F : finished mem e = false).
  { apply finished_false_iff. cbn [e range sp_size sp_data].
    rewrite HL. lia. }
  split; [exact F|].
  unfold advance, enumerator_data. rewrite F.
  cbn [negb e range sp_size sp_data]. rewrite HL.
  unfold sizeof_chunk_size_type. change (Z.of_nat 4) with 4.
  rewrite (size_t_small (Z.of_nat sz - _)) by lia.
  rewrite size_t_small by lia.
  split.
  - unfold span_last. cbn [sp_data sp_size].
    rewrite length_app, length_chunk. f_equal. f_equal; lia.
  - unfold span_subspan, span_bytes. cbn [sp_data sp_size].
    rewrite Nat2Z.id. unfold mem, chunk.
    rewrite load_app_l, <- app_assoc.
    unfold load.
    rewrite skipn_app, length_le_split, Nat.sub_diag, skipn_O.
    rewrite skipn_all2 by (rewrite length_le_split; lia). cbn [app].
    rewrite firstn_app, Nat.sub_diag, firstn_O, app_nil_r.
    apply firstn_all.
Qed.

Lemma length_chunk_region_cons (x : list byte) (ps : list (list byte)) :
  length (chunk_region (x :: ps))
  = (4 + length x + length (chunk_region ps))%nat.
Proof.
  unfold chunk_region. cbn [map concat].
  rewrite length_app, length_chunk. reflexivity.
Qed.

Lemma length_chunk_region_ge (ps : list (list byte)) :
  (4 * length ps <= length (chunk_region ps))%nat.
Proof.
  induction ps as [|x ps IH]; [cbn; lia|].
  rewrite length_chunk_region_cons. cbn [length]. lia.
Qed.

(** The counting loop of [read_from_file] over well-formed chunks. *)
Lemma member_loop_region (payloads : list (list byte)) :
  forall (pre rest : list byte) (r : nat) (n : Z) (fuel : nat),
    Forall fits_length_field payloads ->
    Z.of_nat (length (chunk_region payloads) + r) < 2 ^ 64 ->
    let mem := pre ++ chunk_region payloads ++ rest in
    member_loop (length payloads + fuel) mem
      (mk_enumerator
         (mk_span (length pre) (length (chunk_region payloads) + r))) n
    = member_loop fuel mem
        (mk_enumerator
           (mk_span (length (pre ++ chunk_region payloads)) r))
        (n + Z.of_nat (length payloads)).
Proof.
  induction payloads as [|x ps IH]; intros pre rest r n fuel Hfit Hsmall.
  - cbn [chunk_region map concat length Nat.add app].
    rewrite app_nil_r, Z.add_0_r. reflexivity.
  - cbv zeta. inversion Hfit as [|? ? Hx Hps]; subst.
    rewrite length_chunk_region_cons in *.
    change (length (x :: ps) + fuel)%nat with (S (length ps + fuel)).
    cbn [member_loop].
    assert (EQ : pre ++ chunk_region (x :: ps) ++ rest
                 = pre ++ chunk x ++ (chunk_region ps ++ rest)).
    { unfold chunk_region. cbn [map concat]. rewrite <- app_assoc.
      reflexivity. }
    rewrite EQ.
    destruct (enumerator_step pre x (chunk_region ps ++ rest)
                (4 + length x + length (chunk_region ps) + r) Hx
                ltac:(lia) Hsmall) as (F & A & _).
    rewrite F, A. cbn [negb].
    replace (4 + length x + length (chunk_region ps) + r - (4 + length x))%nat
      with (length (chunk_region ps) + r)%nat by lia.
    replace (pre ++ chunk x ++ chunk_region ps ++ rest)
      with ((pre ++ chunk x) ++ chunk_region ps ++ rest)
      by (rewrite <- app_assoc; reflexivity).
    rewrite IH by (try assumption; lia).
    f_equal.
    + do 2 f_equal. unfold chunk_region. cbn [map concat].
      rewrite <- !app_assoc. reflexivity.
    + cbn [length]. lia.
Qed.

(** The visiting loop of [for_each] over well-formed chunks, for the
    visitor that records the bytes of each member. *)
Lemma for_each_loop_region (payloads : list (list byte)) :
  forall (pre rest : list byte) (r : nat) (acc : list (list byte))
         (fuel : nat),
    Forall fits_length_field payloads ->
    Z.of_nat (length (chunk_region payloads) + r) < 2 ^ 64 ->
    let mem := pre ++ chunk_region payloads ++ rest in
    for_each_loop (length payloads + fuel) mem
      (fun s acc => acc ++ [span_bytes mem s])
      (mk_enumerator
         (mk_span (length pre) (length (chunk_region payloads) + r))) acc
    = for_each_loop fuel mem
        (fun s acc => acc ++ [span_bytes mem s])
        (mk_enumerator
           (mk_span (length (pre ++ chunk_region payloads)) r))
        (acc ++ payloads).
Proof.
  induction payloads as [|x ps IH]; intros pre rest r acc fuel Hfit Hsmall.
  - cbn [chunk_region map concat length Nat.add app].
    rewrite !app_nil_r. reflexivity.
  - cbv zeta. inversion Hfit as [|? ? Hx Hps]; subst.
    rewrite length_chunk_region_cons in *.
    change (length (x :: ps) + fuel)%nat with (S (length ps + fuel)).
    cbn [for_each_loop].
    assert (EQ : pre ++ chunk_region (x :: ps) ++ rest
                 = pre ++ chunk x ++ (chunk_region ps ++ rest)).
    { unfold chunk_region. cbn [map concat]. rewrite <- app_assoc.
      reflexivity. }
    rewrite EQ.
    destruct (enumerator_step pre x (chunk_region ps ++ rest)
                (4 + length x + length (chunk_region ps) + r) Hx
                ltac:(lia) Hsmall) as (F & A & D).
    rewrite F, A, D. cbn [negb].
    replace (4 + length x + length (chunk_region ps) + r - (4 + length x))%nat
      with (length (chunk_region ps) + r)%nat by lia.
    replace (pre ++ chunk x ++ chunk_region ps ++ rest)
      with ((pre ++ chunk x) ++ chunk_region ps ++ rest)
      by (rewrite <- app_assoc; reflexivity).
    rewrite IH by (try assumption; lia).
    f_equal.
    + do 2 f_equal. unfold chunk_region. cbn [map concat].
      rewrite <- !app_assoc. reflexivity.
    + rewrite <- app_assoc. reflexivity.
Qed.

End EnumFacts.
Import EnumFacts.

(* ------------------------------------------------------------------ *)
(** ** Reading and flushing *)

Module CodecFacts.

Lemma bytes_eqb_refl (l : list byte) : bytes_eqb l l = true.
Proof.
  induction l as [|x l IH]; [reflexivity|].
  cbn [bytes_eqb]. rewrite IH.
  assert (Byte.eqb x x = true) as ->
    by (apply Byte.byte_dec_lb; reflexivity).
  reflexivity.
Qed.

Lemma span_in_whole (buf : list byte) : span_in (whole buf) buf.
Proof. unfold span_in, whole. cbn [sp_data sp_size]. lia. Qed.

Lemma length_encrypt_buffer (t : tea) (mem : list byte) (s : span) :
  span_in s mem -> length (encrypt_buffer t mem s) = length mem.
Proof.
  intros Hin. destruct (span_split mem s Hin) as (E & Lp & Lb).
  rewrite encrypt_buffer_policy by exact Hin.
  rewrite E at 4.
  rewrite !length_app, length_encrypt_policy by apply tea_encrypt_keeps.
  reflexivity.
Qed.

Lemma length_decrypt_buffer (t : tea) (mem : list byte) (s : span) :
  span_in s mem -> length (decrypt_buffer t mem s) = length mem.
Proof.
  intros Hin. destruct (span_split mem s Hin) as (E & Lp & Lb).
  rewrite decrypt_buffer_policy by exact Hin.
  rewrite E at 4. rewrite !length_app. do 2 f_equal.
  unfold decrypt_policy.
  set (body := span_bytes mem s) in *.
  destruct (Nat.ltb_spec (length body) 8) as [|Hn]; [reflexivity|].
  set (body1 := if Nat.eqb (length body mod 8) 0 then body else _).
  assert (L1 : length body1 = length body).
  { unfold body1. destruct (Nat.eqb (length body mod 8) 0); [reflexivity|].
    apply length_on_block; [apply tea_decrypt_keeps | lia]. }
  pose proof (Nat.mod_upper_bound (length body) 8 ltac:(lia)) as Hr.
  rewrite length_app, complete_blocks_map by apply tea_decrypt_keeps.
  rewrite length_map_blocks.
  - rewrite length_firstn, length_skipn. lia.
  - apply tea_decrypt_keeps.
  - apply Nat.Div0.mul_div_le.
Qed.

(** A successful flush writes the encrypted array. *)
Lemma flush_loaded (buf : list byte) (n : nat) :
  (4 <= n)%nat ->
  flush_to_file true (mk_archive (mk_byte_buffer (Some buf)) (mk_span 0 n))
  = (write_error.success, archive_empty,
     Some (encrypt_buffer h1_tea buf (whole buf))).
Proof.
  intros H. unfold flush_to_file, sizeof_chunk_size_type.
  cbn [data filebuf sp_size negb contents buffer].
  destruct (Nat.ltb_spec n 4) as [|_]; [lia|].
  unfold range_of, nbytes. cbn [buffer]. fold (whole buf).
  unfold load. rewrite skipn_O, firstn_all. reflexivity.
Qed.

Section Read.

Variable MD5 : list byte -> list byte.
Hypothesis MD5_length : forall b, length (MD5 b) = MD5_DIGEST_LENGTH.

(** Reading a file that decrypts to a non-empty region and the trailer
    of that region. *)
Lemma read_decrypted (file region : list byte) (a : archive) :
  region <> [] ->
  decrypt_buffer h1_tea file (whole file) = region ++ trailer MD5 region ->
  read_from_file MD5 (Some file) a
  = validate (region ++ trailer MD5 region) (length region) a.
Proof.
  intros Hne Hdec.
  assert (Lt : length (trailer MD5 region) = 33%nat)
    by (apply length_trailer, MD5_length).
  assert (Lr : (1 <= length region)%nat)
    by (destruct region; [contradiction | cbn; lia]).
  assert (Lf : length file = (length region + 33)%nat).
  { rewrite <- (length_decrypt_buffer h1_tea file (whole file))
      by apply span_in_whole.
    rewrite Hdec, length_app, Lt. reflexivity. }
  unfold read_from_file, read_file.
  destruct (Nat.leb_spec (length file) 0) as [|_]; [lia|].
  cbn [byte_buffer_bool buffer negb].
  unfold range_of, nbytes, contents. cbn [buffer].
  destruct (Nat.ltb_spec (length file) 34) as [|_]; [lia|].
  fold (whole file). rewrite Hdec. unfold whole.
  rewrite Lf. replace (length region + 33 - 33)%nat with (length region)
    by lia.
  assert (R : span_bytes (region ++ trailer MD5 region)
                (span_first (mk_span 0 (length region + 33))
                   (length region)) = region).
  { unfold span_bytes, span_first, load. cbn [sp_data sp_size].
    rewrite skipn_O, firstn_app, Nat.sub_diag, firstn_O, app_nil_r.
    apply firstn_all. }
  assert (T : span_bytes (region ++ trailer MD5 region)
                (span_last (mk_span 0 (length region + 33)) 33)
              = trailer MD5 region).
  { unfold span_bytes, span_last, load. cbn [sp_data sp_size].
    replace (0 + (length region + 33 - 33))%nat with (length region)
      by lia.
    rewrite skipn_app, Nat.sub_diag, skipn_O, skipn_all2 by lia.
    cbn [app]. apply firstn_all2. lia. }
  rewrite R, T.
  assert (V : firstn (length (compute_md5_digest MD5 region) + 1)
                (c_str (compute_md5_digest MD5 region))
              = trailer MD5 region).
  { unfold c_str, trailer. apply firstn_all2.
    rewrite length_app. cbn [length]. lia. }
  rewrite V, bytes_eqb_refl. cbn [negb].
  unfold validate, span_first. cbn [sp_data sp_size]. reflexivity.
Qed.

(** Reading what a flush wrote. *)
Lemma read_encrypted (region : list byte) (a : archive) :
  region <> [] ->
  read_from_file MD5
    (Some (encrypt_buffer h1_tea (region ++ trailer MD5 region)
             (whole (region ++ trailer MD5 region)))) a
  = validate (region ++ trailer MD5 region) (length region) a.
Proof.
  intros Hne. apply read_decrypted; [exact Hne|].
  set (buf := region ++ trailer MD5 region).
  assert (W : whole (encrypt_buffer h1_tea buf (whole buf)) = whole buf).
  { unfold whole at 1. rewrite length_encrypt_buffer
      by apply span_in_whole. reflexivity. }
  rewrite W. apply decrypt_encrypt_buffer, span_in_whole.
Qed.

(** A region of well-formed chunks passes the counting loop. *)
Lemma validate_region (payloads : list (list byte)) (post : list byte)
    (a : archive) :
  Forall fits_length_field payloads ->
  Z.of_nat (length (chunk_region payloads)) < 2 ^ 64 ->
  validate (chunk_region payloads ++ post)
    (length (chunk_region payloads)) a
  = (read_error.success,
     mk_archive (mk_byte_buffer (Some (chunk_region payloads ++ post)))
                (mk_span 0 (length (chunk_region payloads))), []).
Proof.
  intros Hfit Hsmall. unfold validate.
  pose proof (length_chunk_region_ge payloads) as Hge.
  pose proof (member_loop_region payloads [] post 0 0
                (S (length (chunk_region payloads)) - length payloads)
                Hfit ltac:(rewrite Nat.add_0_r; exact Hsmall)) as M.
  cbv zeta in M. cbn [app length] in M.
  rewrite Nat.add_0_r in M.
  replace (length payloads
           + (S (length (chunk_region payloads)) - length payloads))%nat
    with (S (length (chunk_region payloads))) in M by lia.
  rewrite M. clear M.
  destruct (S (length (chunk_region payloads)) - length payloads)%nat;
    cbn [member_loop finished is_at_end range sp_size Nat.eqb orb negb
         has_error]; reflexivity.
Qed.

(** The members of an archive whose region is made of well-formed
    chunks. *)
Lemma members_region (payloads : list (list byte)) (post : list byte) :
  Forall fits_length_field payloads ->
  Z.of_nat (length (chunk_region payloads)) < 2 ^ 64 ->
  members
    (mk_archive (mk_byte_buffer (Some (chunk_region payloads ++ post)))
                (mk_span 0 (length (chunk_region payloads))))
  = payloads.
Proof.
  intros Hfit Hsmall. unfold members, for_each, enumerate.
  cbn [data filebuf contents buffer sp_size].
  pose proof (length_chunk_region_ge payloads) as Hge.
  pose proof (for_each_loop_region payloads [] post 0 []
                (S (length (chunk_region payloads)) - length payloads)
                Hfit ltac:(rewrite Nat.add_0_r; exact Hsmall)) as M.
  cbv zeta in M. cbn [app length] in M.
  rewrite Nat.add_0_r in M.
  replace (length payloads
           + (S (length (chunk_region payloads)) - length payloads))%nat
    with (S (length (chunk_region payloads))) in M by lia.
  rewrite M. clear M.
  destruct (S (length (chunk_region payloads)) - length payloads)%nat;
    cbn [for_each_loop finished is_at_end range sp_size Nat.eqb orb negb];
    reflexivity.
Qed.

End Read.

End CodecFacts.
Import CodecFacts.

(* ================================================================== *)
(** * The claims of the specification *)

Module CipherClaims.

(** C2. Cipher involution: for every array and every span inside it, of
    any size (0 included) and with any bytes, [decrypt_buffer] with
    [h1_tea] after [encrypt_buffer] with [h1_tea] restores the array; and
    on a span of fewer than 8 bytes each of the two leaves the array as it
    is. *)
Theorem cipher_involution (mem : list byte) (buf : span) :
  span_in buf mem ->
  decrypt_buffer h1_tea (encrypt_buffer h1_tea mem buf) buf = mem /\
  ((sp_size buf < 8)%nat ->
   encrypt_buffer h1_tea mem buf = mem /\
   decrypt_buffer h1_tea mem buf = mem).
Proof.
  intros Hin. split; [apply decrypt_encrypt_buffer; exact Hin|].
  intros Hlt. unfold encrypt_buffer, decrypt_buffer.
  change (enc_chunk_size h1_tea) with 8%nat.
  change (dec_chunk_size h1_tea) with 8%nat.
  destruct (Nat.ltb_spec (sp_size buf) 8) as [_|]; [|lia].
  split; reflexivity.
Qed.

Lemma cipher_involution_witness :
  let mem := [x00; x01; x02; x03; x04; x05; x06; x07; x08; x09; x0a; x0b;
              x0c] in
  let buf := mk_span 1 11 in
  span_in buf mem /\
  decrypt_buffer h1_tea (encrypt_buffer h1_tea mem buf) buf = mem.
Proof.
  cbv zeta.
  assert (Hin : span_in (mk_span 1 11)
                  [x00; x01; x02; x03; x04; x05; x06; x07; x08; x09; x0a;
                   x0b; x0c])
    by (unfold span_in; cbn [sp_data sp_size length Nat.add]; lia).
  split; [exact Hin|].
  exact (proj1 (cipher_involution _ _ Hin)).
Defined.

(** C3. The order of the whole-buffer routines: on the bytes of the span
    [encrypt_buffer] encrypts all complete 8-byte blocks front to back
    and then, iff the size is not a multiple of 8, encrypts again the 8
    bytes that end at the end of the span; [decrypt_buffer] first, iff the
    size is not a multiple of 8, decrypts the 8 bytes that end at the end
    of the span and then decrypts front to back the complete blocks of
    the span cut at the last whole-block boundary.  Both leave the bytes
    around the span as they are. *)
Theorem buffer_policy (mem : list byte) (buf : span) :
  span_in buf mem -> (8 <= sp_size buf)%nat ->
  encrypt_buffer h1_tea mem buf
  = firstn (sp_data buf) mem
    ++ encrypt_policy (tea_block_encrypt h1_tea) (span_bytes mem buf)
    ++ skipn (sp_data buf + sp_size buf) mem
  /\
  decrypt_buffer h1_tea mem buf
  = firstn (sp_data buf) mem
    ++ decrypt_policy (tea_block_decrypt h1_tea) (span_bytes mem buf)
    ++ skipn (sp_data buf + sp_size buf) mem.
Proof.
  intros Hin _. split.
  - apply encrypt_buffer_policy. exact Hin.
  - apply decrypt_buffer_policy. exact Hin.
Qed.

Lemma buffer_policy_witness :
  let mem := [x00; x01; x02; x03; x04; x05; x06; x07; x08; x09; x0a; x0b;
              x0c; x0d; x0e; x0f; x10; x11; x12; x13] in
  let buf := mk_span 0 19 in
  span_in buf mem /\ (8 <= sp_size buf)%nat /\
  encrypt_buffer h1_tea mem buf
  = firstn (sp_data buf) mem
    ++ encrypt_policy (tea_block_encrypt h1_tea) (span_bytes mem buf)
    ++ skipn (sp_data buf + sp_size buf) mem.
Proof.
  cbv zeta.
  assert (Hin : span_in (mk_span 0 19)
                  [x00; x01; x02; x03; x04; x05; x06; x07; x08; x09; x0a;
                   x0b; x0c; x0d; x0e; x0f; x10; x11; x12; x13])
    by (unfold span_in; cbn [sp_data sp_size length Nat.add]; lia).
  assert (H8 : (8 <= sp_size (mk_span 0 19))%nat) by (cbn [sp_size]; lia).
  split; [exact Hin|]. split; [exact H8|].
  exact (proj1 (buffer_policy _ _ Hin H8)).
Defined.

End CipherClaims.

Module EnumeratorClaims.

(** C4. [has_error] and [finished]: on an empty view [has_error] is
    false; on a non-empty view it is true if and only if the view holds
    fewer than 4 bytes or the 32-bit little-endian length read at the
    cursor plus 4 exceeds the size of the view; [finished] is
    [is_at_end] or [has_error]. *)
Theorem has_error_finished (mem : list byte) (e : archive_enumerator) :
  let size := sp_size (range e) in
  let L := le_combine (firstn 4 (span_bytes mem (range e))) in
  (size = O -> has_error mem e = false) /\
  (size <> O ->
   (has_error mem e = true <->
    (size < 4)%nat \/ L + 4 > Z.of_nat size)) /\
  finished mem e = is_at_end e || has_error mem e.
Proof.
  cbv zeta. split; [|split].
  - intros H0. unfold has_error, is_at_end. rewrite H0. reflexivity.
  - intros Hne. rewrite has_error_true_iff.
    destruct (Nat.ltb_spec (sp_size (range e)) 4) as [Lt|Ge].
    + split; [intros _; left; exact Lt | intros _; split; [exact Hne|]].
      left; exact Lt.
    + rewrite deserialize_view by exact Ge.
      split; [intros [_ H]; exact H | intros H; split; [exact Hne|exact H]].
  - reflexivity.
Qed.

Lemma has_error_finished_witness :
  has_error [x05; x00; x00; x00; x01] (mk_enumerator (mk_span 0 5)) = true.
Proof.
  assert (Hne : sp_size (range (mk_enumerator (mk_span 0 5))) <> O)
    by (cbn [range sp_size]; discriminate).
  refine (proj2 (proj1 (proj2 (has_error_finished
                                 [x05; x00; x00; x00; x01]
                                 (mk_enumerator (mk_span 0 5)))) Hne) _).
  right. vm_compute. reflexivity.
Defined.

End EnumeratorClaims.

Module CodecClaims.

Lemma md5_length (msg : list byte) :
  length (RFC1321.md5 msg) = MD5_DIGEST_LENGTH.
Proof.
  unfold RFC1321.md5.
  destruct (RFC1321.blocks _ _ _) as [[[a b] c] d].
  rewrite !length_app, !length_le_split. reflexivity.
Qed.

Lemma round_trip_format (MD5 : list byte -> list byte)
    (indeterminate : nat -> byte) (member_bufs : list byte_buffer) :
  (forall b, length (MD5 b) = MD5_DIGEST_LENGTH) ->
  member_bufs <> [] ->
  let region := chunk_region (map contents member_bufs) in
  round_trip MD5 indeterminate member_bufs
  = match validate (region ++ trailer MD5 region) (length region)
            archive_empty with
    | (read_error.success, a', _) => Some (members a')
    | _ => None
    end.
Proof.
  intros HMD5 Hne region. unfold round_trip.
  rewrite load_members_from_format by exact HMD5. fold region.
  assert (L4 : (4 <= length region)%nat).
  { pose proof (length_chunk_region_ge (map contents member_bufs)) as G.
    fold region in G. rewrite length_map in G.
    destruct member_bufs; [contradiction | cbn [length] in G; lia]. }
  rewrite flush_loaded by exact L4.
  rewrite read_encrypted; [reflexivity | exact HMD5 |].
  intros E. rewrite E in L4. cbn in L4. lia.
Qed.

(** C1 (as amended). Round trip: for every non-empty ordered list of
    byte buffers, each possibly empty and each shorter than 2^32 bytes
    (so that the 32-bit length field holds its size), whose chunk region
    is addressable by [std::size_t], loading the codec with
    [load_members_from], flushing it with [flush_to_file], reading the
    bytes written with [read_from_file] into a fresh codec and
    enumerating it yields exactly the original buffers, in order. *)
Theorem round_trip_members (MD5 : list byte -> list byte)
    (indeterminate : nat -> byte) (member_bufs : list byte_buffer) :
  (forall b, length (MD5 b) = MD5_DIGEST_LENGTH) ->
  member_bufs <> [] ->
  Forall (fun m => fits_length_field (contents m)) member_bufs ->
  Z.of_nat (length (chunk_region (map contents member_bufs))) < 2 ^ 64 ->
  round_trip MD5 indeterminate member_bufs
  = Some (map contents member_bufs).
Proof.
  intros HMD5 Hne Hfit Hsmall.
  rewrite round_trip_format by assumption. cbv zeta.
  assert (Hfit' : Forall fits_length_field (map contents member_bufs))
    by (apply Forall_map; exact Hfit).
  rewrite validate_region by assumption.
  rewrite members_region by assumption. reflexivity.
Qed.

Lemma round_trip_members_witness :
  round_trip RFC1321.md5 zeroed
    [member []; member [x01; x02; x03; x04; x05]; member [x09; x09; x09]]
  = Some [[]; [x01; x02; x03; x04; x05]; [x09; x09; x09]].
Proof.
  refine (round_trip_members RFC1321.md5 zeroed
            [member []; member [x01; x02; x03; x04; x05];
             member [x09; x09; x09]] md5_length _ _ _).
  - discriminate.
  - repeat constructor; unfold fits_length_field;
      cbn [contents member buffer length]; lia.
  - vm_compute. reflexivity.
Defined.

(** The recording visitor only appends. *)
Lemma for_each_loop_appends (mem : list byte) (fuel : nat) :
  forall e acc, exists tl,
    for_each_loop fuel mem (fun s acc => acc ++ [span_bytes mem s]) e acc
    = acc ++ tl.
Proof.
  induction fuel as [|fuel IH]; intros e acc; cbn [for_each_loop].
  - exists []. rewrite app_nil_r. destruct (negb _); reflexivity.
  - destruct (negb (finished mem e)).
    + destruct (IH (advance mem e)
                  (acc ++ [span_bytes mem (enumerator_data mem e)]))
        as [tl E].
      rewrite E, <- app_assoc. eexists. reflexivity.
    + exists []. rewrite app_nil_r. reflexivity.
Qed.

(** A member of exactly 2^32 bytes gets the length field 0, and the
    archive read back starts with an empty member. *)
Lemma oversized_member (MD5 : list byte -> list byte)
    (indeterminate : nat -> byte) (big : list byte) :
  (forall b, length (MD5 b) = MD5_DIGEST_LENGTH) ->
  Z.of_nat (length big) = 2 ^ 32 ->
  round_trip MD5 indeterminate [member big] <> Some [big].
Proof.
  intros HMD5 Hbig.
  rewrite round_trip_format by (assumption || discriminate). cbv zeta.
  cbn [map contents member buffer].
  assert (C : chunk_region [big] = chunk_region [[]] ++ big).
  { unfold chunk_region, chunk. cbn [map concat length app].
    rewrite Hbig, app_nil_r.
    replace (le_split 4 (2 ^ 32)) with (le_split 4 (Z.of_nat 0))
      by (vm_compute; reflexivity).
    rewrite <- app_assoc. reflexivity. }
  unfold validate.
  destruct (member_loop _ _ _ _) as [e n].
  destruct (has_error _ e); [discriminate|].
  unfold members, for_each, enumerate.
  cbn [data filebuf contents buffer sp_size].
  rewrite C.
  set (post := trailer MD5 (chunk_region [[]] ++ big)).
  assert (Hsmall : Z.of_nat (length (chunk_region [[]]) + length big)
                   < 2 ^ 64).
  { rewrite Nat2Z.inj_add, Hbig.
    change (Z.of_nat (length (chunk_region [[]]))) with 4. lia. }
  pose proof (for_each_loop_region [[]] [] (big ++ post) (length big) []
                (length (chunk_region [[]] ++ big))
                ltac:(repeat constructor; unfold fits_length_field;
                      cbn [length]; lia) Hsmall) as M.
  cbv zeta in M.
  change (length [[]] + length (chunk_region [[]] ++ big))%nat
    with (S (length (chunk_region [[]] ++ big))) in M.
  rewrite <- length_app in M.
  change ([] ++ chunk_region [[]] ++ big ++ post)
    with (chunk_region [[]] ++ big ++ post) in M.
  rewrite app_assoc in M.
  change (length (@nil byte)) with O in M.
  rewrite M. clear M.
  destruct (for_each_loop_appends
              ((chunk_region [[]] ++ big) ++ post)
              (length (chunk_region [[]] ++ big))
              (mk_enumerator
                 (mk_span (length ([] ++ chunk_region [[]])) (length big)))
              ([] ++ [[]])) as [tl E].
  rewrite E. cbn [app].
  intros H. injection H as H _.
  rewrite <- H in Hbig. cbn in Hbig. lia.
Qed.

(** C1, as stated, fails: a single member of 2^32 bytes does not come
    back from the round trip. *)
Lemma round_trip_members_counterexample :
  (forall b, length (RFC1321.md5 b) = MD5_DIGEST_LENGTH) /\
  [member (repeat x00 (Z.to_nat (2 ^ 32)))] <> [] /\
  round_trip RFC1321.md5 zeroed [member (repeat x00 (Z.to_nat (2 ^ 32)))]
  <> Some (map contents [member (repeat x00 (Z.to_nat (2 ^ 32)))]).
Proof.
  split; [exact md5_length|]. split; [discriminate|].
  apply oversized_member; [exact md5_length|].
  rewrite repeat_length. apply Z2Nat.id. apply Z.pow_nonneg. lia.
Qed.

Lemma has_error_corrupt (pre bad post : list byte) :
  corrupt_chunk bad ->
  has_error (pre ++ bad ++ post)
    (mk_enumerator (mk_span (length pre) (length bad))) = true.
Proof.
  intros [Hne Hbad]. apply has_error_true_iff. cbn [range sp_size sp_data].
  split; [destruct bad; [contradiction | discriminate]|].
  destruct (Nat.ltb_spec (length bad) 4) as [Lt|Ge]; [left; exact Lt|].
  right. destruct Hbad as [Lt|Gt]; [lia|].
  rewrite (deserialize_view _ (mk_span (length pre) (length bad)))
    by exact Ge.
  destruct (span_of_parts pre bad post) as (_ & _ & B & _).
  rewrite B. exact Gt.
Qed.

(** C5 (as amended). When the [k]-th chunk (counting from 1) of a chunk
    region addressable by [std::size_t] is the first corrupt one, and
    the file decrypts to that region followed by its trailer, the
    counting loop of [read_from_file] stops with [has_error] true at that
    chunk, [read_from_file] fails with [archive_data_is_corrupt] and
    leaves the codec as it was, and the index printed is [k - 1], the
    number of chunks before the corrupt one. *)
Theorem corrupt_chunk_reported (MD5 : list byte -> list byte)
    (file region : list byte) (k : nat) (a : archive) :
  (forall b, length (MD5 b) = MD5_DIGEST_LENGTH) ->
  first_corrupt_at k region ->
  Z.of_nat (length region) < 2 ^ 64 ->
  decrypt_buffer h1_tea file (mk_span 0 (length file))
  = region ++ trailer MD5 region ->
  let buf := region ++ trailer MD5 region in
  (exists e,
      member_loop (S (length region)) buf
        (mk_enumerator (mk_span 0 (length region))) 0
      = (e, Z.of_nat k - 1) /\
      has_error buf e = true) /\
  read_from_file MD5 (Some file) a
  = (read_error.archive_data_is_corrupt, a,
     [error_at_archive_member (Z.of_nat k - 1)]).
Proof.
  intros HMD5 (ps & bad & Hreg & Hk & Hfit & Hbad) Hsmall Hdec buf.
  assert (Hne : region <> []).
  { destruct Hbad as [Hb _]. rewrite Hreg. intros E.
    apply app_eq_nil in E. destruct E as [_ E]. contradiction. }
  assert (Hlen : length region
                 = (length (chunk_region ps) + length bad)%nat)
    by (rewrite Hreg, length_app; reflexivity).
  pose proof (length_chunk_region_ge ps) as Hge.
  set (e := mk_enumerator
              (mk_span (length ([] ++ chunk_region ps)) (length bad))).
  assert (Hbuf : buf = [] ++ chunk_region ps ++ (bad ++ trailer MD5 region))
    by (unfold buf; rewrite Hreg, <- app_assoc; reflexivity).
  assert (HE : has_error buf e = true).
  { unfold e. rewrite Hbuf. cbn [app].
    rewrite app_assoc. rewrite <- app_assoc.
    apply has_error_corrupt. exact Hbad. }
  assert (M : member_loop (S (length region)) buf
                (mk_enumerator (mk_span 0 (length region))) 0
              = (e, Z.of_nat k - 1)).
  { pose proof (member_loop_region ps [] (bad ++ trailer MD5 region)
                  (length bad) 0 (S (length region) - length ps) Hfit
                  ltac:(rewrite <- Hlen; exact Hsmall)) as M.
    cbv zeta in M. rewrite <- Hbuf, <- Hlen in M.
    replace (length ps + (S (length region) - length ps))%nat
      with (S (length region)) in M by lia.
    change (length (@nil byte)) with O in M.
    rewrite M. fold e.
    replace (0 + Z.of_nat (length ps)) with (Z.of_nat k - 1) by lia.
    assert (F : finished buf e = true)
      by (unfold finished; rewrite HE; apply orb_true_r).
    destruct (S (length region) - length ps)%nat;
      cbn [member_loop]; rewrite F; reflexivity. }
  split; [exists e; split; assumption|].
  rewrite (read_decrypted MD5 HMD5 file region a Hne Hdec).
  unfold validate. fold buf. rewrite M, HE. reflexivity.
Qed.

Lemma overrun_first_corrupt : first_corrupt_at 1 overrun_region.
Proof.
  exists [], overrun_region. repeat split.
  - constructor.
  - discriminate.
  - right. vm_compute. reflexivity.
Qed.

Lemma overrun_decrypts :
  decrypt_buffer h1_tea overrun_file (mk_span 0 (length overrun_file))
  = overrun_region ++ trailer RFC1321.md5 overrun_region.
Proof. vm_compute. reflexivity. Qed.

Lemma corrupt_chunk_reported_witness :
  read_from_file RFC1321.md5 (Some overrun_file) archive_empty
  = (read_error.archive_data_is_corrupt, archive_empty,
     [error_at_archive_member (Z.of_nat 1 - 1)]).
Proof.
  refine (proj2 (corrupt_chunk_reported RFC1321.md5 overrun_file
                   overrun_region 1 archive_empty md5_length
                   overrun_first_corrupt _ overrun_decrypts)).
  vm_compute. reflexivity.
Defined.

(** C5, as stated, fails: the first chunk is the corrupt one and the
    index printed is 0, not 1. *)
Lemma corrupt_chunk_reported_counterexample :
  first_corrupt_at 1 overrun_region /\
  decrypt_buffer h1_tea overrun_file (mk_span 0 (length overrun_file))
  = overrun_region ++ trailer RFC1321.md5 overrun_region /\
  read_from_file RFC1321.md5 (Some overrun_file) archive_empty
  = (read_error.archive_data_is_corrupt, archive_empty,
     [error_at_archive_member 0]) /\
  read_from_file RFC1321.md5 (Some overrun_file) archive_empty
  <> (read_error.archive_data_is_corrupt, archive_empty,
      [error_at_archive_member (Z.of_nat 1)]).
Proof.
  split; [exact overrun_first_corrupt|].
  split; [exact overrun_decrypts|].
  assert (R : read_from_file RFC1321.md5 (Some overrun_file) archive_empty
              = (read_error.archive_data_is_corrupt, archive_empty,
                 [error_at_archive_member 0]))
    by (vm_compute; reflexivity).
  split; [exact R|]. rewrite R. discriminate.
Qed.

(** C6 (as amended). Truncation: for every input of 33 bytes or fewer,
    [read_from_file] fails and leaves the codec as it was; the failure is
    [archive_data_is_corrupt] when the input has at least one byte, and
    [could_not_open_file] when it has none, [read_file] returning its
    empty buffer for an empty file as for a file it cannot open. *)
Theorem truncated_file (MD5 : list byte -> list byte) (bytes : list byte)
    (a : archive) :
  (length bytes <= 33)%nat ->
  (bytes <> [] ->
   read_from_file MD5 (Some bytes) a
   = (read_error.archive_data_is_corrupt, a, [])) /\
  (bytes = [] ->
   read_from_file MD5 (Some bytes) a
   = (read_error.could_not_open_file, a, [])).
Proof.
  intros Hlen. unfold read_from_file, read_file. split.
  - intros Hne.
    destruct (Nat.leb_spec (length bytes) 0) as [L0|_].
    + destruct bytes; [contradiction | cbn [length] in L0; lia].
    + cbn [byte_buffer_bool buffer negb]. unfold nbytes. cbn [buffer].
      destruct (Nat.ltb_spec (length bytes) 34) as [_|]; [reflexivity|lia].
  - intros ->. reflexivity.
Qed.

Lemma truncated_file_witness :
  read_from_file RFC1321.md5 (Some [x2a]) archive_empty
  = (read_error.archive_data_is_corrupt, archive_empty, []).
Proof.
  refine (proj1 (truncated_file RFC1321.md5 [x2a] archive_empty _) _).
  - cbn [length]. lia.
  - discriminate.
Defined.

(** C6, as stated, fails: an input of length 0 fails with
    [could_not_open_file], not with [archive_data_is_corrupt]. *)
Lemma truncated_file_counterexample :
  (length (@nil byte) <= 33)%nat /\
  fst (fst (read_from_file RFC1321.md5 (Some []) archive_empty))
  = read_error.could_not_open_file /\
  fst (fst (read_from_file RFC1321.md5 (Some []) archive_empty))
  <> read_error.archive_data_is_corrupt.
Proof.
  split; [cbn [length]; lia|]. split; [reflexivity|].
  cbn. discriminate.
Qed.

(** C7. A failed read is atomic: whenever [read_from_file] returns a
    value other than [success], the buffer and the chunk-region view that
    the codec holds are those it held before the call. *)
Theorem read_failure_keeps_state (MD5 : list byte -> list byte)
    (file : option (list byte)) (a : archive) :
  fst (fst (read_from_file MD5 file a)) <> read_error.success ->
  snd (fst (read_from_file MD5 file a)) = a.
Proof.
  unfold read_from_file.
  destruct (negb (byte_buffer_bool (read_file file))); [reflexivity|].
  destruct (nbytes (read_file file) <? 34)%nat; [reflexivity|].
  destruct (negb (bytes_eqb _ _)); [reflexivity|].
  destruct (member_loop _ _ _ _) as [e member].
  destruct (has_error _ e); [reflexivity|].
  cbn [fst snd]. intros H. contradiction H. reflexivity.
Qed.

Lemma read_failure_keeps_state_witness :
  snd (fst (read_from_file RFC1321.md5 (Some overrun_file)
              (mk_archive (mk_byte_buffer (Some [x01])) (mk_span 0 0))))
  = mk_archive (mk_byte_buffer (Some [x01])) (mk_span 0 0).
Proof.
  refine (read_failure_keeps_state RFC1321.md5 (Some overrun_file)
            (mk_archive (mk_byte_buffer (Some [x01])) (mk_span 0 0)) _).
  vm_compute. discriminate.
Defined.

(** C8. [flush_to_file] fails with [no_data_to_write] if and only if
    the chunk region of the codec is smaller than 4 bytes; and whenever
    it returns [success] the codec is the empty one afterwards: no buffer
    and an empty chunk-region view. *)
Theorem flush_no_data_and_reset (opens : bool) (a : archive) :
  (fst (fst (flush_to_file opens a)) = write_error.no_data_to_write
   <-> (sp_size (data a) < 4)%nat) /\
  (fst (fst (flush_to_file opens a)) = write_error.success ->
   snd (fst (flush_to_file opens a)) = archive_empty /\
   buffer (filebuf (snd (fst (flush_to_file opens a)))) = None /\
   sp_size (data (snd (fst (flush_to_file opens a)))) = O).
Proof.
  unfold flush_to_file, sizeof_chunk_size_type.
  destruct (Nat.ltb_spec (sp_size (data a)) 4) as [Lt|Ge]; cbn [fst snd].
  - split; [split; [intros _; exact Lt | reflexivity] | discriminate].
  - destruct opens; cbn [negb fst snd].
    + split; [split; [discriminate | lia]|].
      intros _. repeat split.
    + split; [split; [discriminate | lia] | discriminate].
Qed.

Lemma flush_no_data_and_reset_witness :
  snd (fst (flush_to_file true
              (mk_archive (mk_byte_buffer (Some overrun_file))
                          (mk_span 0 4))))
  = archive_empty.
Proof.
  refine (proj1 (proj2 (flush_no_data_and_reset true
                          (mk_archive (mk_byte_buffer (Some overrun_file))
                                      (mk_span 0 4))) _)).
  reflexivity.
Defined.

(** C10. A failed flush keeps the codec: whenever [flush_to_file]
    returns [no_data_to_write] or [could_not_open_file], the buffer and
    the chunk-region view of the codec are unchanged, so the buffer has
    not been encrypted, and nothing has been written. *)
Theorem flush_failure_keeps_state (opens : bool) (a : archive) :
  fst (fst (flush_to_file opens a)) <> write_error.success ->
  (fst (fst (flush_to_file opens a)) = write_error.no_data_to_write \/
   fst (fst (flush_to_file opens a)) = write_error.could_not_open_file) /\
  snd (fst (flush_to_file opens a)) = a /\
  snd (flush_to_file opens a) = None.
Proof.
  unfold flush_to_file.
  destruct (sp_size (data a) <? sizeof_chunk_size_type)%nat; cbn [fst snd];
    [intros _; repeat split; left; reflexivity|].
  destruct opens; cbn [negb fst snd].
  - intros H. contradiction H. reflexivity.
  - intros _. repeat split. right. reflexivity.
Qed.

Lemma flush_failure_keeps_state_witness :
  snd (fst (flush_to_file false
              (mk_archive (mk_byte_buffer (Some overrun_file))
                          (mk_span 0 4))))
  = mk_archive (mk_byte_buffer (Some overrun_file)) (mk_span 0 4).
Proof.
  refine (proj1 (proj2 (flush_failure_keeps_state false
                          (mk_archive (mk_byte_buffer (Some overrun_file))
                                      (mk_span 0 4)) _))).
  cbn. discriminate.
Defined.

(** C9. The concrete scenario: assembling the three members [],
    [1,2,3,4,5] and [9,9,9] gives a chunk region of exactly 20 bytes,
    the three chunks, followed by a 33-byte trailer, 53 bytes in all; and
    flushing, reading back and enumerating yields those three buffers in
    that order. *)
Theorem three_members (MD5 : list byte -> list byte)
    (indeterminate : nat -> byte) :
  (forall b, length (MD5 b) = MD5_DIGEST_LENGTH) ->
  let bufs := [member []; member [x01; x02; x03; x04; x05];
               member [x09; x09; x09]] in
  let a := load_members_from MD5 indeterminate bufs archive_empty in
  let region := [x00; x00; x00; x00;
                 x05; x00; x00; x00; x01; x02; x03; x04; x05;
                 x03; x00; x00; x00; x09; x09; x09] in
  data a = mk_span 0 20 /\
  span_bytes (contents (filebuf a)) (data a) = region /\
  contents (filebuf a) = region ++ trailer MD5 region /\
  length (trailer MD5 region) = 33%nat /\
  nbytes (filebuf a) = 53%nat /\
  round_trip MD5 indeterminate bufs
  = Some [[]; [x01; x02; x03; x04; x05]; [x09; x09; x09]].
Proof.
  intros HMD5 bufs a region.
  assert (Lt : length (trailer MD5 region) = 33%nat)
    by (apply length_trailer, HMD5).
  assert (A : a = mk_archive
                    (mk_byte_buffer (Some (region ++ trailer MD5 region)))
                    (mk_span 0 20)).
  { unfold a. rewrite load_members_from_format by exact HMD5.
    reflexivity. }
  rewrite A. cbn [data filebuf contents buffer nbytes].
  split; [reflexivity|]. split.
  - unfold span_bytes, load. cbn [sp_data sp_size].
    rewrite skipn_O. change 20%nat with (length region) at 1.
    rewrite firstn_app, Nat.sub_diag, firstn_O, app_nil_r.
    apply firstn_all.
  - split; [reflexivity|]. split; [exact Lt|]. split.
    + rewrite length_app, Lt. reflexivity.
    + rewrite round_trip_format by (exact HMD5 || discriminate). cbv zeta.
      change (chunk_region (map contents bufs)) with (chunk_region
        [[]; [x01; x02; x03; x04; x05]; [x09; x09; x09]]).
      assert (Hfit : Forall fits_length_field
                       [[]; [x01; x02; x03; x04; x05]; [x09; x09; x09]])
        by (repeat constructor; unfold fits_length_field; cbn [length]; lia).
      assert (Hsmall : Z.of_nat (length (chunk_region
                         [[]; [x01; x02; x03; x04; x05]; [x09; x09; x09]]))
                       < 2 ^ 64) by (vm_compute; reflexivity).
      rewrite validate_region by assumption.
      rewrite members_region by assumption. reflexivity.
Qed.

Lemma three_members_witness :
  let bufs := [member []; member [x01; x02; x03; x04; x05];
               member [x09; x09; x09]] in
  nbytes (filebuf (load_members_from RFC1321.md5 zeroed bufs archive_empty))
  = 53%nat /\
  round_trip RFC1321.md5 zeroed bufs
  = Some [[]; [x01; x02; x03; x04; x05]; [x09; x09; x09]].
Proof.
  cbv zeta.
  pose proof (three_members RFC1321.md5 zeroed md5_length) as H.
  cbv zeta in H.
  destruct H as (_ & _ & _ & _ & H53 & Hrt).
  split; [exact H53 | exact Hrt].
Defined.

End CodecClaims.

(* ================================================================== *)
(** * Further properties of the code *)

(* ------------------------------------------------------------------ *)
(** ** The cipher, in the other direction *)

Module CipherMoreFacts.

Lemma u32_sub_add (a f : Z) : in_u32 a -> u32 (u32 (a - f) + f) = a.
Proof.
  unfold in_u32, u32. intros Ha.
  rewrite Zplus_mod_idemp_l.
  replace (a - f + f) with a by lia.
  apply Z.mod_small. exact Ha.
Qed.

Lemma decrypt_round_in_range (t : tea) (st : Z * Z * Z) :
  in_range (decrypt_round t st).
Proof.
  destruct st as [[s v0] v1]. unfold decrypt_round, in_range.
  repeat split; apply u32_range.
Qed.

Lemma encrypt_decrypt_round (t : tea) (st : Z * Z * Z) :
  in_range st -> encrypt_round t (decrypt_round t st) = st.
Proof.
  destruct st as [[s v0] v1]. intros (Hs & H0 & H1).
  unfold encrypt_round, decrypt_round. cbv zeta.
  rewrite (u32_sub_add s) by exact Hs.
  rewrite (u32_sub_add v0) by exact H0.
  rewrite (u32_sub_add v1) by exact H1.
  reflexivity.
Qed.

Lemma iter_S_decrypt_in_range (t : tea) (n : nat) (st : Z * Z * Z) :
  in_range (Nat.iter (S n) (decrypt_round t) st).
Proof. rewrite Nat.iter_succ. apply decrypt_round_in_range. Qed.

Lemma encrypt_decrypt_rounds (t : tea) (n : nat) (st : Z * Z * Z) :
  in_range st ->
  Nat.iter n (encrypt_round t) (Nat.iter n (decrypt_round t) st) = st.
Proof.
  intros H. induction n as [|n IH]; [reflexivity|].
  rewrite Nat.iter_succ_r. rewrite Nat.iter_succ.
  rewrite encrypt_decrypt_round; [exact IH|].
  destruct n as [|n]; [exact H | apply iter_S_decrypt_in_range].
Qed.

Lemma decrypt_rounds_sum (t : tea) (n : nat) (s v0 v1 : Z) :
  fst (fst (Nat.iter n (decrypt_round t) (s, v0, v1)))
  = Nat.iter n (fun s => u32 (s - delta)) s.
Proof.
  induction n as [|n IH]; [reflexivity|].
  rewrite !Nat.iter_succ.
  destruct (Nat.iter n (decrypt_round t) (s, v0, v1)) as [[s' a] b].
  cbn [fst] in IH. rewrite <- IH. reflexivity.
Qed.

(** The 32 rounds of [decrypt_chunk] bring the accumulator back to the 0
    that [encrypt_chunk] starts from. *)
Lemma decrypt_rounds_final_sum (t : tea) (v0 v1 : Z) :
  fst (fst (Nat.iter 32 (decrypt_round t) (0xC6EF3720, v0, v1))) = 0.
Proof. rewrite decrypt_rounds_sum. vm_compute. reflexivity. Qed.

Lemma decrypt_words_range (t : tea) (v0 v1 : Z) :
  in_u32 (fst (decrypt_words t v0 v1)) /\
  in_u32 (snd (decrypt_words t v0 v1)).
Proof.
  unfold decrypt_words.
  pose proof (iter_S_decrypt_in_range t 31 (0xC6EF3720, v0, v1)) as R.
  destruct (Nat.iter 32 (decrypt_round t) (0xC6EF3720, v0, v1)) as [[s a] b].
  destruct R as (_ & Ha & Hb). split; assumption.
Qed.

Lemma encrypt_decrypt_words (t : tea) (v0 v1 : Z) :
  in_u32 v0 -> in_u32 v1 ->
  encrypt_words t (fst (decrypt_words t v0 v1))
                  (snd (decrypt_words t v0 v1)) = (v0, v1).
Proof.
  intros H0 H1. unfold encrypt_words, decrypt_words.
  pose proof (decrypt_rounds_final_sum t v0 v1) as Hs.
  pose proof (encrypt_decrypt_rounds t 32 (0xC6EF3720, v0, v1)) as Hr.
  destruct (Nat.iter 32 (decrypt_round t) (0xC6EF3720, v0, v1)) as [[s a] b].
  cbn [fst snd] in *. subst s.
  rewrite Hr; [reflexivity|].
  split; [unfold in_u32; lia | split; assumption].
Qed.

(** Encrypting a decrypted block gives the block back. *)
Lemma tea_block_encrypt_decrypt (t : tea) (block : list byte) :
  length block = 8%nat ->
  tea_block_encrypt t (tea_block_decrypt t block) = block.
Proof.
  intros H. unfold tea_block_decrypt, tea_block_encrypt.
  rewrite tea_decrypt_chunk_op, tea_encrypt_chunk_op.
  set (e := tea_endian t).
  rewrite (chunk_op_block (decrypt_words t)) by exact H. cbv zeta.
  set (v0 := word_of e (firstn 4 block)).
  set (v1 := word_of e (skipn 4 block)).
  assert (L0 : length (firstn 4 block) = 4%nat)
    by (rewrite length_firstn; lia).
  assert (L1 : length (skipn 4 block) = 4%nat)
    by (rewrite length_skipn; lia).
  assert (R0 : in_u32 v0) by (apply word_of_range; exact L0).
  assert (R1 : in_u32 v1) by (apply word_of_range; exact L1).
  destruct (decrypt_words_range t v0 v1) as [Ra Rb].
  rewrite chunk_op_block
    by (rewrite length_app, !length_bytes_of_word; reflexivity).
  cbv zeta.
  rewrite firstn_app, skipn_app, !length_bytes_of_word.
  rewrite firstn_all2 by (rewrite length_bytes_of_word; lia).
  rewrite skipn_all2 by (rewrite length_bytes_of_word; lia).
  cbn [Nat.sub firstn skipn app]. rewrite app_nil_r.
  rewrite !word_of_bytes by assumption.
  rewrite encrypt_decrypt_words by assumption.
  cbn [fst snd]. unfold v0, v1.
  rewrite !bytes_of_word_of by assumption.
  apply firstn_skipn.
Qed.

Lemma length_decrypt_policy (D : list byte -> list byte) (buf : list byte) :
  keeps_blocks D -> length (decrypt_policy D buf) = length buf.
Proof.
  intros HD. unfold decrypt_policy.
  destruct (Nat.ltb_spec (length buf) 8) as [|Hn]; [reflexivity|].
  set (buf1 := if Nat.eqb (length buf mod 8) 0 then buf else _).
  assert (L1 : length buf1 = length buf).
  { unfold buf1. destruct (Nat.eqb (length buf mod 8) 0); [reflexivity|].
    apply length_on_block; [exact HD | lia]. }
  pose proof (Nat.mod_upper_bound (length buf) 8 ltac:(lia)) as Hr.
  rewrite length_app, complete_blocks_map by exact HD.
  rewrite length_map_blocks.
  - rewrite length_firstn, length_skipn. lia.
  - exact HD.
  - apply Nat.Div0.mul_div_le.
Qed.

(** The encryption policy undoes the decryption policy. *)
Lemma encrypt_decrypt_policy (D E : list byte -> list byte)
    (buf : list byte) :
  keeps_blocks E -> keeps_blocks D ->
  (forall b, length b = 8%nat -> E (D b) = b) ->
  encrypt_policy E (decrypt_policy D buf) = buf.
Proof.
  intros HE HD HED.
  pose proof (length_decrypt_policy D buf HD) as L.
  unfold encrypt_policy. rewrite L. clear L.
  unfold decrypt_policy.
  destruct (Nat.ltb_spec (length buf) 8) as [|Hn]; [reflexivity|].
  pose proof (Nat.mod_upper_bound (length buf) 8 ltac:(lia)) as Hr.
  set (buf1 := if Nat.eqb (length buf mod 8) 0 then buf
               else on_block D (length buf - 8) buf).
  assert (L1 : length buf1 = length buf).
  { unfold buf1. destruct (Nat.eqb (length buf mod 8) 0); [reflexivity|].
    apply length_on_block; [exact HD | lia]. }
  rewrite whole_blocks.
  pose proof (Nat.Div0.mul_div_le (length buf) 8) as Hk.
  assert (Lf : length (firstn (8 * (length buf / 8)) buf1)
               = (8 * (length buf / 8))%nat)
    by (rewrite length_firstn; lia).
  rewrite (complete_blocks_map D) by exact HD.
  rewrite Lf.
  replace (8 * (length buf / 8) / 8)%nat with (length buf / 8)%nat
    by (rewrite Nat.mul_comm, Nat.div_mul by lia; reflexivity).
  rewrite <- (map_blocks_app _ _ (firstn _ buf1) (skipn _ buf1)) by lia.
  rewrite firstn_skipn.
  rewrite (complete_blocks_map E) by exact HE.
  rewrite length_map_blocks by (try exact HD; lia).
  rewrite L1.
  rewrite map_blocks_inverse by (try assumption; lia).
  unfold buf1.
  destruct (Nat.eqb (length buf mod 8) 0); [reflexivity|].
  apply on_block_inverse; [exact HD | exact HED | lia].
Qed.

(** Encrypting the span that was decrypted restores the array. *)
Lemma encrypt_decrypt_buffer (t : tea) (mem : list byte) (s : span) :
  span_in s mem ->
  encrypt_buffer t (decrypt_buffer t mem s) s = mem.
Proof.
  intros Hin. destruct (span_split mem s Hin) as (E & Lp & Lb).
  rewrite decrypt_buffer_policy by exact Hin.
  set (pre := firstn (sp_data s) mem) in *.
  set (body := span_bytes mem s) in *.
  set (post := skipn (sp_data s + sp_size s) mem) in *.
  set (body' := decrypt_policy (tea_block_decrypt t) body).
  assert (Lb' : length body' = sp_size s).
  { unfold body'. rewrite length_decrypt_policy by apply tea_decrypt_keeps.
    exact Lb. }
  destruct (span_of_parts pre body' post) as (Hin' & Hpre & Hbody & Hpost).
  rewrite Lp, Lb' in Hin', Hpre, Hbody, Hpost.
  replace (mk_span (sp_data s) (sp_size s)) with s in *
    by (destruct s; reflexivity).
  rewrite encrypt_buffer_policy by exact Hin'.
  rewrite Hpre, Hbody, Hpost. unfold body'.
  rewrite encrypt_decrypt_policy.
  - symmetry. exact E.
  - apply tea_encrypt_keeps.
  - apply tea_decrypt_keeps.
  - apply tea_block_encrypt_decrypt.
Qed.

End CipherMoreFacts.
Import CipherMoreFacts.

(* ------------------------------------------------------------------ *)
(** ** The digest string *)

Module DigestFacts.

Lemma compute_md5_digest_flat_map (MD5 : list byte -> list byte)
    (buf : list byte) :
  compute_md5_digest MD5 buf = flat_map snprintf_02hhx (MD5 buf).
Proof.
  unfold compute_md5_digest.
  assert (G : forall ds acc,
             fold_left (fun result d => result ++ snprintf_02hhx d) ds acc
             = acc ++ flat_map snprintf_02hhx ds).
  { induction ds as [|d ds IH]; intros acc; cbn [fold_left flat_map].
    - rewrite app_nil_r. reflexivity.
    - rewrite IH, <- app_assoc. reflexivity. }
  apply (G (MD5 buf) []).
Qed.

(** The two characters printed for a byte spell its value. *)
Lemma snprintf_02hhx_value (d : byte) :
  exists c1 c2,
    snprintf_02hhx d = [c1; c2] /\
    Z_of_byte d = 16 * hex_value c1 + hex_value c2.
Proof.
  unfold snprintf_02hhx. eexists. eexists. split; [reflexivity|].
  destruct d; vm_compute; reflexivity.
Qed.

Lemma snprintf_02hhx_inj (a b : byte) :
  snprintf_02hhx a = snprintf_02hhx b -> a = b.
Proof.
  intros H.
  destruct (snprintf_02hhx_value a) as (a1 & a2 & Ea & Va).
  destruct (snprintf_02hhx_value b) as (b1 & b2 & Eb & Vb).
  rewrite Ea, Eb in H. injection H as -> ->.
  rewrite <- (byte_of_Z_of_byte a), <- (byte_of_Z_of_byte b), Va, Vb.
  reflexivity.
Qed.

Lemma flat_map_snprintf_inj (xs ys : list byte) :
  flat_map snprintf_02hhx xs = flat_map snprintf_02hhx ys -> xs = ys.
Proof.
  revert ys. induction xs as [|x xs IH]; intros [|y ys] H.
  - reflexivity.
  - cbn in H. discriminate.
  - cbn in H. discriminate.
  - cbn [flat_map] in H.
    assert (Hx : snprintf_02hhx x = snprintf_02hhx y /\
                 flat_map snprintf_02hhx xs = flat_map snprintf_02hhx ys).
    { destruct (snprintf_02hhx_value x) as (x1 & x2 & Ex & _).
      destruct (snprintf_02hhx_value y) as (y1 & y2 & Ey & _).
      rewrite Ex, Ey in *. cbn [app] in H.
      injection H as -> -> H3. split; [reflexivity | exact H3]. }
    destruct Hx as [Hx Hr].
    f_equal; [apply snprintf_02hhx_inj; exact Hx | apply IH; exact Hr].
Qed.

Lemma snprintf_02hhx_digits (d : byte) :
  Forall (fun c => In c hex_digits) (snprintf_02hhx d).
Proof.
  pose proof (Z_of_byte_range d) as R.
  unfold snprintf_02hhx.
  apply Forall_cons; [|apply Forall_cons; [|apply Forall_nil]];
    apply nth_In; cbn [hex_digits length].
  - assert (0 <= Z_of_byte d / 16 < 16)
      by (split; [apply Z.div_pos; lia | apply Z.div_lt_upper_bound; lia]).
    lia.
  - pose proof (Z.mod_pos_bound (Z_of_byte d) 16 ltac:(lia)). lia.
Qed.

Lemma bytes_eqb_true_iff (a b : list byte) : bytes_eqb a b = true <-> a = b.
Proof.
  split; [|intros ->; apply bytes_eqb_refl].
  revert b. induction a as [|x a IH]; intros [|y b] H; cbn in H;
    try discriminate; [reflexivity|].
  apply andb_true_iff in H. destruct H as [Hx Hr].
  f_equal; [apply Byte.byte_dec_bl; exact Hx | apply IH; exact Hr].
Qed.

End DigestFacts.
Import DigestFacts.

(* ------------------------------------------------------------------ *)
(** ** Reading any file of 34 bytes or more *)

Module ReadFacts.

(** [read_from_file] on a file that passes the length test. *)
Lemma read_long_file (MD5 : list byte -> list byte) (file : list byte)
    (a : archive) :
  (34 <= length file)%nat ->
  read_from_file MD5 (Some file) a
  = let mem := decrypt_buffer h1_tea file (whole file) in
    let region := firstn (length file - 33) mem in
    let needed := skipn (length file - 33) mem in
    if bytes_eqb needed (c_str (compute_md5_digest MD5 region))
    then validate mem (length file - 33) a
    else (read_error.archive_data_is_corrupt, a,
          [md5_did_not_match (compute_md5_digest MD5 region) needed]).
Proof.
  intros Hlen. cbv zeta.
  unfold read_from_file, read_file.
  destruct (Nat.leb_spec (length file) 0) as [|_]; [lia|].
  cbn [byte_buffer_bool buffer negb].
  unfold range_of, nbytes, contents. cbn [buffer].
  destruct (Nat.ltb_spec (length file) 34) as [|_]; [lia|].
  fold (whole file).
  set (mem := decrypt_buffer h1_tea file (whole file)).
  assert (Lm : length mem = length file)
    by (apply length_decrypt_buffer, span_in_whole).
  assert (R : span_bytes mem (span_first (whole file) (length file - 33))
              = firstn (length file - 33) mem).
  { unfold span_bytes, span_first, whole, load. cbn [sp_data sp_size].
    rewrite skipn_O. reflexivity. }
  assert (T : span_bytes mem (span_last (whole file) 33)
              = skipn (length file - 33) mem).
  { unfold span_bytes, span_last, whole, load. cbn [sp_data sp_size].
    cbn [Nat.add].
    apply firstn_all2. rewrite length_skipn. lia. }
  rewrite R, T.
  set (md5_str := compute_md5_digest MD5 (firstn (length file - 33) mem)).
  assert (V : firstn (length md5_str + 1) (c_str md5_str) = c_str md5_str).
  { apply firstn_all2. unfold c_str. rewrite length_app. cbn [length]. lia. }
  rewrite V.
  destruct (bytes_eqb _ _); cbn [negb]; [|reflexivity].
  unfold validate, span_first, whole. cbn [sp_data sp_size]. reflexivity.
Qed.

End ReadFacts.
Import ReadFacts.

(* ------------------------------------------------------------------ *)
(** ** What the enumerator reads out of any bytes *)

Module ParseFacts.

Lemma load_add (mem : list byte) (p a b : nat) :
  load mem p (a + b) = load mem p a ++ load mem (p + a) b.
Proof.
  unfold load. rewrite (Nat.add_comm p a), <- skipn_skipn.
  generalize (skipn p mem) as l. clear mem p.
  induction a as [|a IH]; intros l; [reflexivity|].
  destruct l as [|x l]; cbn [Nat.add firstn skipn app].
  - rewrite firstn_nil. reflexivity.
  - rewrite IH. reflexivity.
Qed.

(** One step of an unfinished enumerator: the view is the chunk of the
    payload it yields, followed by the view it advances to. *)
Lemma step_decompose (mem : list byte) (e : archive_enumerator) :
  finished mem e = false ->
  span_in (range e) mem ->
  Z.of_nat (sp_size (range e)) < 2 ^ 64 ->
  let m := span_bytes mem (enumerator_data mem e) in
  let e' := advance mem e in
  fits_length_field m /\
  span_bytes mem (range e) = chunk m ++ span_bytes mem (range e') /\
  span_in (range e') mem /\
  (sp_size (range e') + 4 + length m = sp_size (range e))%nat /\
  sp_data (enumerator_data mem e) = (sp_data (range e) + 4)%nat /\
  sp_size (enumerator_data mem e) = length m /\
  sp_data (range e') = (sp_data (range e) + 4 + length m)%nat.
Proof.
  intros F Hin Hsmall. cbv zeta.
  pose proof (proj1 (finished_false_iff mem e) F) as [H4 HL].
  pose proof (deserialize_range little mem (sp_data (range e))) as R.
  unfold span_in in Hin.
  unfold advance, enumerator_data. rewrite F. cbn [negb].
  unfold sizeof_chunk_size_type. change (Z.of_nat 4) with 4.
  set (L := deserialize little mem (sp_data (range e))) in *.
  set (p := sp_data (range e)) in *. set (sz := sp_size (range e)) in *.
  rewrite (size_t_small (Z.of_nat sz - L)) by lia.
  rewrite size_t_small by lia.
  unfold span_subspan, span_last, span_bytes. cbn [sp_data sp_size range].
  fold p sz.
  assert (Lm : length (load mem (p + 4) (Z.to_nat L)) = Z.to_nat L)
    by (apply length_load; lia).
  rewrite Lm.
  assert (Hh : load mem p 4 = le_split 4 L).
  { unfold L, deserialize.
    rewrite <- (le_split_combine (load mem p 4)) at 1.
    rewrite length_load by lia. reflexivity. }
  split; [unfold fits_length_field; rewrite Lm; lia|].
  split.
  - replace sz with (4 + (Z.to_nat L + (sz - 4 - Z.to_nat L)))%nat at 1
      by lia.
    rewrite !load_add. unfold chunk. rewrite Lm, Z2Nat.id by lia.
    rewrite Hh, <- app_assoc. do 2 f_equal.
    replace (Z.to_nat (Z.of_nat sz - L - 4)) with (sz - 4 - Z.to_nat L)%nat
      by lia.
    f_equal. lia.
  - split; [unfold span_in; cbn [sp_data sp_size]; lia|].
    repeat split; lia.
Qed.

Section Trace.

Variable mem : list byte.

(** The visitor that records the bytes of each member. *)
Let record (s : span) (acc : list (list byte)) : list (list byte) :=
  acc ++ [span_bytes mem s].

Lemma record_loop_app (fuel : nat) :
  forall e acc,
    for_each_loop fuel mem record e acc
    = acc ++ for_each_loop fuel mem record e [].
Proof.
  induction fuel as [|fuel IH]; intros e acc; cbn [for_each_loop].
  - destruct (negb (finished mem e)); rewrite app_nil_r; reflexivity.
  - destruct (negb (finished mem e)); [|rewrite app_nil_r; reflexivity].
    rewrite IH, (IH _ (record _ [])). unfold record. cbn [app].
    rewrite <- app_assoc. reflexivity.
Qed.


Lemma for_each_until_loop_visit {St R : Type} (truthy : R -> bool)
    (f : list byte -> St -> R * St) (fuel : nat) :
  forall e st,
    for_each_until_loop fuel mem truthy (fun s => f (span_bytes mem s)) e st
    = visit_until truthy f (for_each_loop fuel mem record e []) st.
Proof.
  induction fuel as [|fuel IH]; intros e st;
    cbn [for_each_until_loop for_each_loop].
  - destruct (negb (finished mem e)); reflexivity.
  - destruct (negb (finished mem e)); [|reflexivity].
    rewrite record_loop_app. unfold record at 1. cbn [app visit_until].
    destruct (f _ st) as [result st'].
    destruct (truthy result); [reflexivity | apply IH].
Qed.

(** The counting loop and the recording loop over any bytes: the view is
    the chunk region of the members recorded, followed by the view at
    which the loop stops. *)
Lemma loops_decompose (fuel : nat) :
  forall e n,
    (sp_size (range e) < fuel)%nat ->
    span_in (range e) mem ->
    Z.of_nat (sp_size (range e)) < 2 ^ 64 ->
    let ps := for_each_loop fuel mem record e [] in
    exists e',
      member_loop fuel mem e n = (e', n + Z.of_nat (length ps)) /\
      Forall fits_length_field ps /\
      span_bytes mem (range e)
      = chunk_region ps ++ span_bytes mem (range e') /\
      finished mem e' = true.
Proof.
  induction fuel as [|fuel IH]; intros e n Hfuel Hin Hsmall; [lia|].
  cbn [member_loop for_each_loop].
  destruct (finished mem e) eqn:F; cbn [negb].
  - exists e. cbn [length chunk_region map concat app].
    rewrite Z.add_0_r. repeat split; [constructor | exact F].
  - destruct (step_decompose mem e F Hin Hsmall)
      as (Hfit & Hsplit & Hin' & Hsz & _).
    destruct (IH (advance mem e) (n + 1) ltac:(lia) Hin' ltac:(lia))
      as (e' & M & Hfits & Hrest & F').
    rewrite record_loop_app.
    change (record (enumerator_data mem e) [])
      with [span_bytes mem (enumerator_data mem e)].
    cbn [app].
    exists e'. split; [|split; [|split]].
    + rewrite M. cbn [length]. f_equal. lia.
    + constructor; assumption.
    + rewrite Hsplit, Hrest. unfold chunk_region. cbn [map concat].
      rewrite <- app_assoc. reflexivity.
    + exact F'.
Qed.

End Trace.

End ParseFacts.
Import ParseFacts.

(* ------------------------------------------------------------------ *)
(** ** What a successful read has loaded *)

Module LoadedFacts.

Lemma read_short_file (MD5 : list byte -> list byte) (file : list byte)
    (a : archive) :
  (length file < 34)%nat ->
  fst (fst (read_from_file MD5 (Some file) a)) <> read_error.success.
Proof.
  intros H. unfold read_from_file, read_file.
  destruct (Nat.leb_spec (length file) 0) as [|_];
    cbn [byte_buffer_bool byte_buffer_empty buffer negb fst];
    [discriminate|].
  unfold nbytes. cbn [buffer].
  destruct (Nat.ltb_spec (length file) 34) as [_|]; [|lia].
  cbn [fst]. discriminate.
Qed.

(** A file that [read_from_file] accepts decrypts to the chunk region of
    the members it then enumerates, followed by the digest string of that
    region and its terminator. *)
Lemma read_success_format (MD5 : list byte -> list byte)
    (file : list byte) (a a' : archive) (d : list diagnostic) :
  read_from_file MD5 (Some file) a = (read_error.success, a', d) ->
  Z.of_nat (length file) < 2 ^ 64 ->
  let ms := members a' in
  let region := chunk_region ms in
  a' = mk_archive
         (mk_byte_buffer
            (Some (region ++ c_str (compute_md5_digest MD5 region))))
         (mk_span 0 (length region)) /\
  decrypt_buffer h1_tea file (whole file)
  = region ++ c_str (compute_md5_digest MD5 region) /\
  Forall fits_length_field ms /\
  ms <> [] /\
  d = [].
Proof.
  intros Hread Hsmall.
  destruct (Nat.ltb_spec (length file) 34) as [Short|Long].
  { pose proof (read_short_file MD5 file a Short) as N.
    rewrite Hread in N. cbn [fst] in N. contradiction. }
  rewrite (read_long_file MD5 file a Long) in Hread. cbv zeta in Hread.
  set (mem := decrypt_buffer h1_tea file (whole file)) in *.
  assert (Lm : length mem = length file)
    by (apply length_decrypt_buffer, span_in_whole).
  set (n := (length file - 33)%nat) in *.
  destruct (bytes_eqb (skipn n mem) _) eqn:Eq; [|discriminate].
  apply bytes_eqb_true_iff in Eq.
  unfold validate in Hread.
  set (e0 := mk_enumerator (mk_span 0 n)) in *.
  destruct (loops_decompose mem (S n) e0 0)
    as (e' & M & Hfits & Hsplit & F).
  { cbn [e0 range sp_size]. lia. }
  { unfold span_in. cbn [e0 range sp_size sp_data]. lia. }
  { cbn [e0 range sp_size]. lia. }
  rewrite M in Hread.
  destruct (has_error mem e') eqn:HE; [discriminate|].
  injection Hread as <- <-.
  unfold finished in F. rewrite HE, orb_false_r in F.
  unfold is_at_end in F. apply Nat.eqb_eq in F.
  assert (Hms : members (mk_archive (mk_byte_buffer (Some mem)) (mk_span 0 n))
                = for_each_loop (S n) mem
                    (fun s acc => acc ++ [span_bytes mem s]) e0 [])
    by reflexivity.
  cbv zeta. rewrite Hms.
  set (ps := for_each_loop (S n) mem _ e0 []) in *.
  assert (Hregion : firstn n mem = chunk_region ps).
  { assert (B : span_bytes mem (range e0) = firstn n mem).
    { unfold span_bytes, load. cbn [e0 range sp_data sp_size].
      rewrite skipn_O. reflexivity. }
    rewrite <- B, Hsplit.
    unfold span_bytes, load. rewrite F, firstn_O, app_nil_r. reflexivity. }
  assert (Hmem : mem = chunk_region ps
                         ++ c_str (compute_md5_digest MD5 (chunk_region ps))).
  { rewrite <- Hregion, <- Eq. symmetry. apply firstn_skipn. }
  assert (Ln : n = length (chunk_region ps)).
  { rewrite <- Hregion, length_firstn. lia. }
  split; [rewrite <- Hmem, <- Ln; reflexivity|].
  split; [exact Hmem|]. split; [exact Hfits|]. split; [|reflexivity].
  intros E. rewrite E in Ln. cbn in Ln. lia.
Qed.

Lemma map_contents_member (ms : list (list byte)) :
  map contents (map member ms) = ms.
Proof.
  induction ms as [|m ms IH]; [reflexivity|].
  cbn [map]. rewrite IH. reflexivity.
Qed.

Lemma list_sum_nbytes (bufs : list byte_buffer) (acc : nat) :
  fold_left (fun size buf => size + nbytes buf)%nat bufs acc
  = (acc + list_sum (map nbytes bufs))%nat.
Proof.
  revert acc. induction bufs as [|b bufs IH]; intros acc;
    cbn [fold_left map list_sum fold_right]; [lia|].
  rewrite IH. unfold list_sum. lia.
Qed.

End LoadedFacts.
Import LoadedFacts.

(* ------------------------------------------------------------------ *)
(** ** The cipher *)

Module CipherExtras.

Lemma on_block_outside (f : list byte -> list byte) (p : nat)
    (buf : list byte) :
  keeps_blocks f -> (p + 8 <= length buf)%nat ->
  firstn p (on_block f p buf) = firstn p buf /\
  skipn (p + 8) (on_block f p buf) = skipn (p + 8) buf.
Proof.
  intros Hf H. unfold on_block.
  assert (Lp : length (firstn p buf) = p) by (rewrite length_firstn; lia).
  assert (Lb : length (f (load buf p 8)) = 8%nat)
    by (apply Hf, length_load; exact H).
  split.
  - rewrite firstn_app, Lp, Nat.sub_diag, firstn_O, app_nil_r.
    apply firstn_all2. lia.
  - rewrite app_assoc, skipn_app, length_app, Lp, Lb, Nat.sub_diag, skipn_O.
    rewrite skipn_all2 by (rewrite length_app; lia). reflexivity.
Qed.

(** X1. The two chunk functions of [tea], for any key and either byte
    order, are inverses of each other on the eight bytes at the pointer,
    in both directions, and they change no other byte and not the size of
    the array. *)
Theorem chunk_functions_inverse (t : tea) (mem : list byte) (chunk : nat) :
  (chunk + 8 <= length mem)%nat ->
  tea_decrypt_chunk t (tea_encrypt_chunk t mem chunk) chunk = mem /\
  tea_encrypt_chunk t (tea_decrypt_chunk t mem chunk) chunk = mem /\
  length (tea_encrypt_chunk t mem chunk) = length mem /\
  length (tea_decrypt_chunk t mem chunk) = length mem /\
  firstn chunk (tea_encrypt_chunk t mem chunk) = firstn chunk mem /\
  skipn (chunk + 8) (tea_encrypt_chunk t mem chunk) = skipn (chunk + 8) mem /\
  firstn chunk (tea_decrypt_chunk t mem chunk) = firstn chunk mem /\
  skipn (chunk + 8) (tea_decrypt_chunk t mem chunk) = skipn (chunk + 8) mem.
Proof.
  intros H.
  pose proof (tea_encrypt_keeps t) as KE.
  pose proof (tea_decrypt_keeps t) as KD.
  assert (LE : length (tea_encrypt_chunk t mem chunk) = length mem).
  { rewrite tea_encrypt_chunk_local by exact H.
    apply length_on_block; assumption. }
  assert (LD : length (tea_decrypt_chunk t mem chunk) = length mem).
  { rewrite tea_decrypt_chunk_local by exact H.
    apply length_on_block; assumption. }
  split.
  { rewrite tea_decrypt_chunk_local by (rewrite LE; exact H).
    rewrite tea_encrypt_chunk_local by exact H.
    apply on_block_inverse;
      [exact KE | apply tea_block_decrypt_encrypt | exact H]. }
  split.
  { rewrite tea_encrypt_chunk_local by (rewrite LD; exact H).
    rewrite tea_decrypt_chunk_local by exact H.
    apply on_block_inverse;
      [exact KD | apply tea_block_encrypt_decrypt | exact H]. }
  split; [exact LE|]. split; [exact LD|].
  rewrite tea_encrypt_chunk_local, tea_decrypt_chunk_local by exact H.
  destruct (on_block_outside (tea_block_encrypt t) chunk mem KE H) as [A B].
  destruct (on_block_outside (tea_block_decrypt t) chunk mem KD H) as [C D].
  repeat split; assumption.
Qed.

Lemma chunk_functions_inverse_witness :
  tea_decrypt_chunk h1_tea
    (tea_encrypt_chunk h1_tea
       [x00; x01; x02; x03; x04; x05; x06; x07; x08; x09] 1) 1
  = [x00; x01; x02; x03; x04; x05; x06; x07; x08; x09].
Proof.
  assert (H : (1 + 8 <= length [x00; x01; x02; x03; x04; x05; x06; x07;
                               x08; x09])%nat)
    by (cbn [length Nat.add]; lia).
  exact (proj1 (chunk_functions_inverse h1_tea _ 1 H)).
Defined.

(** X2. For any key and either byte order, [encrypt_buffer] after
    [decrypt_buffer] on the same span restores the array, and neither of
    the two changes the size of the array. *)
Theorem buffer_functions_inverse (t : tea) (mem : list byte) (buf : span) :
  span_in buf mem ->
  encrypt_buffer t (decrypt_buffer t mem buf) buf = mem /\
  length (encrypt_buffer t mem buf) = length mem /\
  length (decrypt_buffer t mem buf) = length mem.
Proof.
  intros Hin. split; [apply encrypt_decrypt_buffer; exact Hin|].
  split; [apply length_encrypt_buffer | apply length_decrypt_buffer];
    exact Hin.
Qed.

Lemma buffer_functions_inverse_witness :
  let mem := [x00; x01; x02; x03; x04; x05; x06; x07; x08; x09; x0a; x0b;
              x0c] in
  encrypt_buffer h1_tea (decrypt_buffer h1_tea mem (mk_span 2 11))
    (mk_span 2 11) = mem.
Proof.
  cbv zeta.
  assert (Hin : span_in (mk_span 2 11)
                  [x00; x01; x02; x03; x04; x05; x06; x07; x08; x09; x0a;
                   x0b; x0c])
    by (unfold span_in; cbn [sp_data sp_size length Nat.add]; lia).
  exact (proj1 (buffer_functions_inverse h1_tea _ _ Hin)).
Defined.

End CipherExtras.

(* ------------------------------------------------------------------ *)
(** ** The digest and the enumerator *)

Module DigestExtras.

(** X3. The string of [compute_md5_digest] has two characters for each
    byte of the digest, all of them among [0-9a-f], and it determines the
    digest: two buffers with the same string have the same digest. *)
Theorem digest_string (MD5 : list byte -> list byte) (buf : list byte) :
  length (compute_md5_digest MD5 buf) = (2 * length (MD5 buf))%nat /\
  Forall (fun c => In c hex_digits) (compute_md5_digest MD5 buf) /\
  (forall buf',
      compute_md5_digest MD5 buf = compute_md5_digest MD5 buf' ->
      MD5 buf = MD5 buf').
Proof.
  split; [|split].
  - unfold compute_md5_digest. rewrite length_hex. reflexivity.
  - rewrite compute_md5_digest_flat_map.
    induction (MD5 buf) as [|d ds IH]; cbn [flat_map]; [constructor|].
    apply Forall_app. split; [apply snprintf_02hhx_digits | exact IH].
  - intros buf' H. rewrite !compute_md5_digest_flat_map in H.
    apply flat_map_snprintf_inj. exact H.
Qed.

(** X4. A changed chunk region is rejected: when the file decrypts to a
    non-empty region followed by the trailer of another region whose
    digest differs, [read_from_file] fails with [archive_data_is_corrupt],
    leaves the codec as it was and prints the two digest strings. *)
Theorem tampered_region_rejected (MD5 : list byte -> list byte)
    (file region region' : list byte) (a : archive) :
  (forall b, length (MD5 b) = MD5_DIGEST_LENGTH) ->
  region' <> [] ->
  decrypt_buffer h1_tea file (mk_span 0 (length file))
  = region' ++ trailer MD5 region ->
  MD5 region' <> MD5 region ->
  read_from_file MD5 (Some file) a
  = (read_error.archive_data_is_corrupt, a,
     [md5_did_not_match (compute_md5_digest MD5 region')
        (trailer MD5 region)]).
Proof.
  intros HMD5 Hne Hdec Hdiff.
  assert (Lt : length (trailer MD5 region) = 33%nat)
    by (apply length_trailer, HMD5).
  assert (Lf : length file = (length region' + 33)%nat).
  { rewrite <- (length_decrypt_buffer h1_tea file (whole file))
      by apply span_in_whole.
    unfold whole. rewrite Hdec, length_app, Lt. reflexivity. }
  assert (Lr : (1 <= length region')%nat)
    by (destruct region'; [contradiction | cbn [length]; lia]).
  rewrite read_long_file by lia. cbv zeta.
  unfold whole. rewrite Hdec, Lf.
  replace (length region' + 33 - 33)%nat with (length region') by lia.
  rewrite firstn_app, Nat.sub_diag, firstn_O, app_nil_r, firstn_all.
  rewrite skipn_app, Nat.sub_diag, skipn_O, skipn_all. cbn [app].
  destruct (bytes_eqb (trailer MD5 region) _) eqn:Eq; [|reflexivity].
  apply bytes_eqb_true_iff in Eq. unfold trailer, c_str in Eq.
  apply app_inv_tail in Eq.
  rewrite !compute_md5_digest_flat_map in Eq.
  apply flat_map_snprintf_inj in Eq. symmetry in Eq. contradiction.
Qed.

Lemma tampered_region_rejected_witness :
  read_from_file RFC1321.md5 (Some tampered_file) archive_empty
  = (read_error.archive_data_is_corrupt, archive_empty,
     [md5_did_not_match (compute_md5_digest RFC1321.md5 (chunk [x42]))
        (trailer RFC1321.md5 (chunk [x41]))]).
Proof.
  refine (tampered_region_rejected RFC1321.md5 tampered_file
            (chunk [x41]) (chunk [x42]) archive_empty
            CodecClaims.md5_length _ _ _).
  - vm_compute. discriminate.
  - vm_compute. reflexivity.
  - vm_compute. discriminate.
Defined.

End DigestExtras.

Module EnumeratorExtras.

(** X5. The enumerator stays inside its view.  A finished enumerator does
    not move and yields the empty span.  An unfinished one whose view lies
    inside the array yields a payload span that starts 4 bytes into the
    view and lies inside the array, and advances to a strictly smaller
    view that starts where the payload ends and ends where the view
    ended. *)
Theorem enumerator_in_range (mem : list byte) (e : archive_enumerator) :
  span_in (range e) mem ->
  Z.of_nat (sp_size (range e)) < 2 ^ 64 ->
  (finished mem e = true ->
   advance mem e = e /\ enumerator_data mem e = span_empty) /\
  (finished mem e = false ->
   let d := enumerator_data mem e in
   let r' := range (advance mem e) in
   sp_data d = (sp_data (range e) + 4)%nat /\
   sp_data r' = (sp_data d + sp_size d)%nat /\
   (sp_data r' + sp_size r' = sp_data (range e) + sp_size (range e))%nat /\
   (sp_size r' < sp_size (range e))%nat /\
   span_in d mem /\ span_in r' mem).
Proof.
  intros Hin Hsmall. split.
  - intros F. unfold advance, enumerator_data. rewrite F. split; reflexivity.
  - intros F. cbv zeta.
    destruct (step_decompose mem e F Hin Hsmall)
      as (_ & _ & Hin' & Hsz & Hd & Hs & Hr).
    unfold span_in in *. repeat split; lia.
Qed.

Lemma enumerator_in_range_witness :
  let mem := [x02; x00; x00; x00; x0a; x0b; x00; x00; x00; x00] in
  let e := mk_enumerator (mk_span 0 10) in
  (sp_data (range (advance mem e)) + sp_size (range (advance mem e))
   = sp_data (range e) + sp_size (range e))%nat.
Proof.
  cbv zeta.
  assert (Hin : span_in (range (mk_enumerator (mk_span 0 10)))
                  [x02; x00; x00; x00; x0a; x0b; x00; x00; x00; x00])
    by (unfold span_in; cbn [range sp_data sp_size length Nat.add]; lia).
  assert (Hsmall : Z.of_nat (sp_size (range (mk_enumerator (mk_span 0 10))))
                   < 2 ^ 64) by (vm_compute; reflexivity).
  assert (F : finished [x02; x00; x00; x00; x0a; x0b; x00; x00; x00; x00]
                (mk_enumerator (mk_span 0 10)) = false)
    by (vm_compute; reflexivity).
  exact (proj1 (proj2 (proj2 (proj2 (enumerator_in_range _ _ Hin Hsmall)
                                 F)))).
Defined.

End EnumeratorExtras.

(* ------------------------------------------------------------------ *)
(** ** The codec *)

Module CodecExtras.

(** X6. What [read_from_file] accepts: when it returns [success] on a
    file addressable by [std::size_t], it printed nothing, the members the
    codec then enumerates are at least one and each fits the 32-bit length
    field, the codec holds the chunk region of exactly those members
    followed by the digest string of the region and its terminator, its
    view is that region, and the file is the encryption of what the codec
    holds. *)
Theorem accepted_file (MD5 : list byte -> list byte) (file : list byte)
    (a a' : archive) (d : list diagnostic) :
  read_from_file MD5 (Some file) a = (read_error.success, a', d) ->
  Z.of_nat (length file) < 2 ^ 64 ->
  let region := chunk_region (members a') in
  d = [] /\
  members a' <> [] /\
  Forall fits_length_field (members a') /\
  buffer (filebuf a')
  = Some (region ++ c_str (compute_md5_digest MD5 region)) /\
  data a' = mk_span 0 (length region) /\
  span_bytes (contents (filebuf a')) (data a') = region /\
  file = encrypt_buffer h1_tea (contents (filebuf a'))
           (range_of (filebuf a')).
Proof.
  intros Hread Hsmall.
  destruct (read_success_format MD5 file a a' d Hread Hsmall)
    as (Ha & Hdec & Hfits & Hne & Hd).
  cbv zeta in *.
  set (region := chunk_region (members a')) in *.
  set (buf := region ++ c_str (compute_md5_digest MD5 region)) in *.
  assert (Hbuf : buffer (filebuf a') = Some buf) by (rewrite Ha; reflexivity).
  assert (Hdata : data a' = mk_span 0 (length region))
    by (rewrite Ha; reflexivity).
  assert (Lb : length buf = length file).
  { rewrite <- Hdec. apply length_decrypt_buffer, span_in_whole. }
  split; [exact Hd|]. split; [exact Hne|]. split; [exact Hfits|].
  split; [exact Hbuf|]. split; [exact Hdata|].
  unfold contents, range_of, nbytes. rewrite Hbuf, Hdata. split.
  - destruct (span_of_parts [] region
                (c_str (compute_md5_digest MD5 region))) as (_ & _ & B & _).
    exact B.
  - rewrite Lb. fold (whole file). rewrite <- Hdec.
    symmetry. apply encrypt_decrypt_buffer, span_in_whole.
Qed.

Lemma accepted_file_witness :
  members three_archive <> [] /\
  three_file = encrypt_buffer h1_tea (contents (filebuf three_archive))
                 (range_of (filebuf three_archive)).
Proof.
  assert (R : read_from_file RFC1321.md5 (Some three_file) archive_empty
              = (read_error.success, three_archive, []))
    by (vm_compute; reflexivity).
  assert (S : Z.of_nat (length three_file) < 2 ^ 64)
    by (vm_compute; reflexivity).
  pose proof (accepted_file RFC1321.md5 three_file archive_empty
                three_archive [] R S) as H.
  cbv zeta in H.
  destruct H as (_ & Hne & _ & _ & _ & _ & Hfile).
  split; [exact Hne | exact Hfile].
Defined.

(** X7. Unpacking and packing again gives the same file: when
    [read_from_file] accepts a file, assembling the members it enumerates
    with [load_members_from], in any codec and whatever the fresh array
    held, and flushing writes exactly the bytes of that file. *)
Theorem repack_identity (MD5 : list byte -> list byte)
    (indeterminate : nat -> byte) (file : list byte)
    (a a' b : archive) (d : list diagnostic) :
  (forall x, length (MD5 x) = MD5_DIGEST_LENGTH) ->
  read_from_file MD5 (Some file) a = (read_error.success, a', d) ->
  Z.of_nat (length file) < 2 ^ 64 ->
  flush_to_file true
    (load_members_from MD5 indeterminate (map member (members a')) b)
  = (write_error.success, archive_empty, Some file).
Proof.
  intros HMD5 Hread Hsmall.
  destruct (read_success_format MD5 file a a' d Hread Hsmall)
    as (_ & Hdec & _ & Hne & _).
  cbv zeta in Hdec.
  rewrite load_members_from_format by exact HMD5. cbv zeta.
  rewrite map_contents_member.
  set (region := chunk_region (members a')) in *.
  assert (L4 : (4 <= length region)%nat).
  { pose proof (length_chunk_region_ge (members a')) as G. fold region in G.
    destruct (members a'); [contradiction | cbn [length] in G; lia]. }
  rewrite flush_loaded by exact L4.
  unfold trailer. change (compute_md5_digest MD5 region ++ [x00])
    with (c_str (compute_md5_digest MD5 region)).
  rewrite <- Hdec.
  assert (W : whole (decrypt_buffer h1_tea file (whole file)) = whole file).
  { unfold whole at 1. rewrite length_decrypt_buffer by apply span_in_whole.
    reflexivity. }
  rewrite W, encrypt_decrypt_buffer by apply span_in_whole.
  reflexivity.
Qed.

Lemma repack_identity_witness :
  flush_to_file true
    (load_members_from RFC1321.md5 zeroed
       (map member (members three_archive)) archive_empty)
  = (write_error.success, archive_empty, Some three_file).
Proof.
  refine (repack_identity RFC1321.md5 zeroed three_file archive_empty
            three_archive archive_empty [] CodecClaims.md5_length _ _).
  - vm_compute. reflexivity.
  - vm_compute. reflexivity.
Defined.

(** X8. What [load_members_from] leaves in the codec, for any list of
    members, whatever the codec held and whatever the fresh array held:
    the view is the chunk region of the members, each chunk with the low
    32 bits of the member's size as its length field; the buffer is that
    region followed by its digest string and terminator; the buffer has
    the members' sizes plus 4 per member plus 33 bytes, and the view is
    the buffer without its last 33 bytes. *)
Theorem assembled_archive (MD5 : list byte -> list byte)
    (indeterminate : nat -> byte) (member_bufs : list byte_buffer)
    (a : archive) :
  (forall x, length (MD5 x) = MD5_DIGEST_LENGTH) ->
  let a1 := load_members_from MD5 indeterminate member_bufs a in
  let region := chunk_region (map contents member_bufs) in
  span_bytes (contents (filebuf a1)) (data a1) = region /\
  buffer (filebuf a1)
  = Some (region ++ c_str (compute_md5_digest MD5 region)) /\
  nbytes (filebuf a1)
  = (list_sum (map nbytes member_bufs) + 4 * length member_bufs + 33)%nat /\
  data a1 = mk_span 0 (nbytes (filebuf a1) - 33).
Proof.
  intros HMD5. cbv zeta.
  rewrite load_members_from_format by exact HMD5. cbv zeta.
  set (region := chunk_region (map contents member_bufs)).
  cbn [filebuf data contents buffer nbytes].
  assert (Lt : length (trailer MD5 region) = 33%nat)
    by (apply length_trailer, HMD5).
  assert (Lr : length region
               = (list_sum (map nbytes member_bufs)
                  + 4 * length member_bufs)%nat).
  { unfold region. rewrite <- total_size_region, list_sum_nbytes.
    reflexivity. }
  split.
  - destruct (span_of_parts [] region (trailer MD5 region))
      as (_ & _ & B & _). exact B.
  - split; [reflexivity|]. split.
    + rewrite length_app, Lt, Lr. reflexivity.
    + rewrite length_app, Lt. f_equal. lia.
Qed.

Lemma assembled_archive_witness :
  nbytes (filebuf (load_members_from RFC1321.md5 zeroed
                     [member [x07]; member []] archive_empty))
  = (list_sum (map nbytes [member [x07]; member []])
     + 4 * length [member [x07]; member []] + 33)%nat.
Proof.
  pose proof (assembled_archive RFC1321.md5 zeroed
                [member [x07]; member []] archive_empty
                CodecClaims.md5_length) as H.
  cbv zeta in H. destruct H as (_ & _ & H & _). exact H.
Defined.

(** X9. Flushing what was assembled: after [load_members_from] with an
    empty list, [flush_to_file] fails with [no_data_to_write], keeps the
    codec and writes nothing; after a non-empty list it succeeds when the
    file opens, and the file written has the size of the buffer and
    decrypts to the buffer. *)
Theorem assembled_flush (MD5 : list byte -> list byte)
    (indeterminate : nat -> byte) (member_bufs : list byte_buffer)
    (a : archive) (opens : bool) :
  (forall x, length (MD5 x) = MD5_DIGEST_LENGTH) ->
  let a1 := load_members_from MD5 indeterminate member_bufs a in
  (member_bufs = [] ->
   flush_to_file opens a1 = (write_error.no_data_to_write, a1, None)) /\
  (member_bufs <> [] ->
   exists file,
     flush_to_file true a1 = (write_error.success, archive_empty, Some file)
     /\ length file = nbytes (filebuf a1)
     /\ decrypt_buffer h1_tea file (mk_span 0 (length file))
        = contents (filebuf a1)).
Proof.
  intros HMD5. cbv zeta.
  rewrite load_members_from_format by exact HMD5. cbv zeta.
  set (region := chunk_region (map contents member_bufs)).
  split.
  - intros E. unfold region. rewrite E. reflexivity.
  - intros Hne.
    assert (L4 : (4 <= length region)%nat).
    { pose proof (length_chunk_region_ge (map contents member_bufs)) as G.
      fold region in G. rewrite length_map in G.
      destruct member_bufs; [contradiction | cbn [length] in G; lia]. }
    rewrite flush_loaded by exact L4.
    set (buf := region ++ trailer MD5 region).
    exists (encrypt_buffer h1_tea buf (whole buf)).
    split; [reflexivity|].
    cbn [filebuf contents buffer nbytes].
    assert (Le : length (encrypt_buffer h1_tea buf (whole buf)) = length buf)
      by (apply length_encrypt_buffer, span_in_whole).
    split; [exact Le|].
    rewrite Le. fold (whole buf).
    apply decrypt_encrypt_buffer, span_in_whole.
Qed.

Lemma assembled_flush_witness :
  flush_to_file true (load_members_from RFC1321.md5 zeroed [] archive_empty)
  = (write_error.no_data_to_write,
     load_members_from RFC1321.md5 zeroed [] archive_empty, None).
Proof.
  exact (proj1 (assembled_flush RFC1321.md5 zeroed [] archive_empty true
                  CodecClaims.md5_length) eq_refl).
Defined.


(** X11. The [for_each] that can stop early returns the first truthy
    result in the order of the members, with the state the visitor left
    at that member, and does not visit the members after it; it returns
    no result when no member gives a truthy one. *)
Theorem for_each_until_first {St R : Type} (a : archive)
    (truthy : R -> bool) (f : list byte -> St -> R * St) (st : St) :
  for_each_until a truthy
    (fun s => f (span_bytes (contents (filebuf a)) s)) st
  = visit_until truthy f (members a) st.
Proof.
  unfold for_each_until, members, for_each.
  apply for_each_until_loop_visit.
Qed.

End CodecExtras.

(* ------------------------------------------------------------------ *)
(** ** The program *)

Module MainFacts.

(** [read_from_file] prints nothing when it succeeds. *)
Lemma read_success_prints_nothing (MD5 : list byte -> list byte)
    (file : option (list byte)) (a a' : archive) (d : list diagnostic) :
  read_from_file MD5 file a = (read_error.success, a', d) -> d = [].
Proof.
  unfold read_from_file.
  destruct (negb (byte_buffer_bool (read_file file))); [discriminate|].
  destruct (nbytes (read_file file) <? 34)%nat; [discriminate|].
  destruct (negb (bytes_eqb _ _)); [discriminate|].
  destruct (member_loop _ _ _ _) as [e member].
  destruct (has_error _ e); [discriminate|].
  intros H. injection H as _ <-. reflexivity.
Qed.

Lemma combine_nil_r {A B : Type} (l : list A) : combine l (@nil B) = [].
Proof. destruct l; reflexivity. Qed.

Section Visitor.

Variable fs_opens : list byte -> bool.
Variables prefix extension : list byte.

Let path (name : list byte) : list byte :=
  snprintf_path prefix name extension.

Lemma unpack_visitor_next (done rest : list (list byte)) (name m : list byte)
    (written : list (list byte * list byte)) :
  unpack_visitor fs_opens prefix extension (done ++ name :: rest) m
    (length done, written)
  = if fs_opens (path name)
    then (unpack_success,
          (length (done ++ [name]), written ++ [(path name, m)]))
    else (unpack_write_error, (length done, written)).
Proof.
  unfold unpack_visitor, write_file.
  destruct (Nat.leb_spec (length (done ++ name :: rest)) (length done))
    as [H|_]; [rewrite length_app in H; cbn [length] in H; lia|].
  rewrite app_nth2, Nat.sub_diag by lia. cbn [nth]. fold (path name).
  destruct (fs_opens (path name)); [|reflexivity].
  rewrite length_app. cbn [length]. rewrite Nat.add_1_r. reflexivity.
Qed.

Lemma unpack_visitor_end (done : list (list byte)) (m : list byte)
    (written : list (list byte * list byte)) :
  unpack_visitor fs_opens prefix extension (done ++ []) m
    (length done, written)
  = (unpack_too_many_members, (length done, written)).
Proof.
  unfold unpack_visitor. rewrite app_nil_r, Nat.leb_refl. reflexivity.
Qed.

(** The visit when every destination that is reached can be written. *)
Lemma visit_unpack_written (ms : list (list byte)) :
  forall (done rest : list (list byte))
         (written : list (list byte * list byte)),
    (forall name, In name (firstn (length ms) rest) ->
                  fs_opens (path name) = true) ->
    visit_until unpack_error_bool
      (unpack_visitor fs_opens prefix extension (done ++ rest)) ms
      (length done, written)
    = (if (length rest <? length ms)%nat
       then Some unpack_too_many_members else None,
       ((length done + Nat.min (length rest) (length ms))%nat,
        written ++ combine (map path rest) ms)).
Proof.
  induction ms as [|m ms IH]; intros done rest written Hw.
  - cbn [visit_until length]. rewrite Nat.min_0_r, Nat.add_0_r.
    rewrite combine_nil_r, app_nil_r. reflexivity.
  - cbn [visit_until]. destruct rest as [|name rest].
    + rewrite unpack_visitor_end. cbn [unpack_error_bool unpack_error_value
        Z.eqb negb length Nat.ltb Nat.leb Nat.min map combine].
      rewrite Nat.add_0_r, app_nil_r. reflexivity.
    + rewrite unpack_visitor_next.
      rewrite (Hw name) by (cbn [length firstn]; left; reflexivity).
      cbn [unpack_error_bool unpack_error_value Z.eqb negb].
      replace (done ++ name :: rest) with ((done ++ [name]) ++ rest)
        by (rewrite <- app_assoc; reflexivity).
      rewrite IH.
      * cbn [length map combine Nat.min]. rewrite length_app.
        cbn [length]. rewrite <- app_assoc. cbn [app].
        replace (S (length rest) <? S (length ms))%nat
          with (length rest <? length ms)%nat by reflexivity.
        f_equal. f_equal. lia.
      * intros n Hn. apply Hw. cbn [length firstn]. right. exact Hn.
Qed.

(** The visit up to the first destination that cannot be written. *)
Lemma visit_unpack_failed (ms : list (list byte)) :
  forall (done ok rest : list (list byte)) (bad : list byte)
         (written : list (list byte * list byte)),
    (length ok < length ms)%nat ->
    (forall name, In name ok -> fs_opens (path name) = true) ->
    fs_opens (path bad) = false ->
    visit_until unpack_error_bool
      (unpack_visitor fs_opens prefix extension (done ++ ok ++ bad :: rest))
      ms (length done, written)
    = (Some unpack_write_error,
       ((length done + length ok)%nat,
        written ++ combine (map path ok) ms)).
Proof.
  induction ms as [|m ms IH]; intros done ok rest bad written Hlen Hok Hbad;
    [cbn [length] in Hlen; lia|].
  cbn [visit_until]. destruct ok as [|name ok].
  - cbn [app]. rewrite unpack_visitor_next, Hbad.
    cbn [unpack_error_bool unpack_error_value Z.eqb negb length map combine].
    rewrite Nat.add_0_r, app_nil_r. reflexivity.
  - cbn [app]. rewrite unpack_visitor_next.
    rewrite (Hok name) by (left; reflexivity).
    cbn [unpack_error_bool unpack_error_value Z.eqb negb].
    replace (done ++ name :: ok ++ bad :: rest)
      with ((done ++ [name]) ++ ok ++ bad :: rest)
      by (rewrite <- app_assoc; reflexivity).
    rewrite IH.
    + cbn [length map combine]. rewrite length_app. cbn [length].
      rewrite <- app_assoc. cbn [app]. f_equal. f_equal. lia.
    + cbn [length] in Hlen. lia.
    + intros n Hn. apply Hok. right. exact Hn.
    + exact Hbad.
Qed.

End Visitor.

Section Files.

Variable fs_read : list byte -> option (list byte).
Variables prefix extension : list byte.

Let path (name : list byte) : list byte :=
  snprintf_path prefix name extension.

(** What a member file holds, [[]] when it cannot be read. *)
Let held (name : list byte) : list byte :=
  match fs_read (path name) with Some bytes => bytes | None => [] end.

Lemma load_member_files_all (names : list (list byte)) :
  forall filebufs,
    (forall name, In name names -> held name <> []) ->
    load_member_files fs_read prefix extension names filebufs
    = inr (filebufs ++ map (fun name => member (held name)) names).
Proof.
  induction names as [|name names IH]; intros filebufs Hall.
  - cbn [load_member_files map]. rewrite app_nil_r. reflexivity.
  - cbn [load_member_files map]. fold (path name).
    pose proof (Hall name ltac:(left; reflexivity)) as Hn.
    unfold held in Hn |- *. unfold read_file.
    destruct (fs_read (path name)) as [bytes|]; [|contradiction].
    destruct (Nat.leb_spec (length bytes) 0) as [L0|_].
    { destruct bytes; [contradiction | cbn [length] in L0; lia]. }
    cbn [byte_buffer_bool buffer negb].
    rewrite IH by (intros n H; apply Hall; right; exact H).
    rewrite <- app_assoc. reflexivity.
Qed.

Lemma load_member_files_first_bad (ok rest : list (list byte))
    (bad : list byte) :
  forall filebufs,
    (forall name, In name ok -> held name <> []) ->
    held bad = [] ->
    load_member_files fs_read prefix extension (ok ++ bad :: rest) filebufs
    = inl (path bad).
Proof.
  induction ok as [|name ok IH]; intros filebufs Hok Hbad.
  - cbn [app load_member_files]. fold (path bad).
    unfold held in Hbad. unfold read_file.
    destruct (fs_read (path bad)) as [bytes|]; [|reflexivity].
    rewrite Hbad. reflexivity.
  - cbn [app load_member_files]. fold (path name).
    pose proof (Hok name ltac:(left; reflexivity)) as Hn.
    unfold held in Hn. unfold read_file.
    destruct (fs_read (path name)) as [bytes|]; [|contradiction].
    destruct (Nat.leb_spec (length bytes) 0) as [L0|_].
    { destruct bytes; [contradiction | cbn [length] in L0; lia]. }
    cbn [byte_buffer_bool buffer negb].
    apply IH; [intros n H; apply Hok; right; exact H | exact Hbad].
Qed.

End Files.

End MainFacts.
Import MainFacts.

Module MainExtras.

Section Run.

Variable MD5 : list byte -> list byte.
Variable indeterminate : nat -> byte.
Variables retail_fx_names custom_fx_names vs_names : list (list byte).
Variable fs_read : list byte -> option (list byte).
Variable fs_opens : list byte -> bool.
Variable op : operation_context.

(** The names that the operation uses and the path of a member file. *)
Let names : list (list byte) :=
  get_names retail_fx_names custom_fx_names vs_names (client op) (type op).

Let path (name : list byte) : list byte :=
  snprintf_path (prefix op) name (get_archive_member_extension (type op)).

(** X12. Unpacking writes the members under the names of the table, in
    order: when [read_from_file] accepts the input and every destination
    that is reached can be written, [perform_unpack_operation] returns no
    reason, writes the i-th member to the path of the i-th name for as
    many members as there are names, and prints their number.  An archive
    with fewer members than the table has names, or with more, is not
    reported. *)
Theorem unpack_writes_members (a' : archive) (d : list diagnostic) :
  read_from_file MD5 (fs_read (file op)) archive_empty
  = (read_error.success, a', d) ->
  (forall name, In name (firstn (length (members a')) names) ->
                fs_opens (path name) = true) ->
  perform_unpack_operation MD5 retail_fx_names custom_fx_names vs_names
    fs_read fs_opens op
  = (None, combine (map path names) (members a'),
     [printf_unpacked
        (Z.of_nat (Nat.min (length names) (length (members a'))))
        (prefix op)]).
Proof.
  intros Hread Hw.
  pose proof (read_success_prints_nothing MD5 _ _ _ _ Hread) as ->.
  unfold perform_unpack_operation. rewrite Hread.
  fold names.
  unfold for_each_until, enumerate.
  rewrite (for_each_until_loop_visit (contents (filebuf a'))
             unpack_error_bool
             (unpack_visitor fs_opens (prefix op)
                (get_archive_member_extension (type op)) names)).
  change (for_each_loop (S (sp_size (data a'))) (contents (filebuf a'))
            (fun s acc => acc ++ [span_bytes (contents (filebuf a')) s])
            (mk_enumerator (data a')) [])
    with (members a').
  pose proof (visit_unpack_written fs_opens (prefix op)
                (get_archive_member_extension (type op)) (members a')
                [] names [] Hw) as V.
  cbn [app length Nat.add] in V. rewrite V. clear V.
  fold path.
  destruct (length names <? length (members a'))%nat; reflexivity.
Qed.

(** X13. Unpacking stops at the first destination that cannot be
    written: [perform_unpack_operation] returns "failed to write member to
    corresponding file", has written the members before it and no member
    after it, and prints the name it failed on. *)
Theorem unpack_write_failure (a' : archive) (d : list diagnostic)
    (ok rest : list (list byte)) (bad : list byte) :
  read_from_file MD5 (fs_read (file op)) archive_empty
  = (read_error.success, a', d) ->
  names = ok ++ bad :: rest ->
  (length ok < length (members a'))%nat ->
  (forall name, In name ok -> fs_opens (path name) = true) ->
  fs_opens (path bad) = false ->
  perform_unpack_operation MD5 retail_fx_names custom_fx_names vs_names
    fs_read fs_opens op
  = (Some Literals.failed_to_write_member,
     combine (map path ok) (members a'),
     [printf_failed_to_write_member bad]).
Proof.
  intros Hread Hnames Hlen Hok Hbad.
  pose proof (read_success_prints_nothing MD5 _ _ _ _ Hread) as ->.
  unfold perform_unpack_operation. rewrite Hread.
  fold names.
  unfold for_each_until, enumerate.
  rewrite (for_each_until_loop_visit (contents (filebuf a'))
             unpack_error_bool
             (unpack_visitor fs_opens (prefix op)
                (get_archive_member_extension (type op)) names)).
  change (for_each_loop (S (sp_size (data a'))) (contents (filebuf a'))
            (fun s acc => acc ++ [span_bytes (contents (filebuf a')) s])
            (mk_enumerator (data a')) [])
    with (members a').
  rewrite Hnames.
  pose proof (visit_unpack_failed fs_opens (prefix op)
                (get_archive_member_extension (type op)) (members a')
                [] ok rest bad [] Hlen Hok Hbad) as V.
  cbn [app length Nat.add] in V. rewrite V. clear V.
  fold path.
  cbn [unpack_error_eqb unpack_error_bool unpack_error_value Z.eqb negb
       app map].
  rewrite app_nth2, Nat.sub_diag by lia. reflexivity.
Qed.

(** What a member file holds, [[]] when it cannot be read. *)
Let held (name : list byte) : list byte :=
  match fs_read (path name) with Some bytes => bytes | None => [] end.

(** X14. Packing needs every member file to be readable and not empty:
    at the first name of the table whose file cannot be read or is empty
    (the files of the names before it holding at least one byte),
    [perform_pack_operation] returns "failed to read member file", prints
    the path of that file and writes nothing. *)
Theorem pack_needs_member_files (ok rest : list (list byte))
    (bad : list byte) :
  names = ok ++ bad :: rest ->
  (forall name, In name ok ->
     exists bytes, fs_read (path name) = Some bytes /\ bytes <> []) ->
  fs_read (path bad) = None \/ fs_read (path bad) = Some [] ->
  perform_pack_operation MD5 indeterminate retail_fx_names custom_fx_names
    vs_names fs_read fs_opens op
  = (Some Literals.failed_to_read_member_file, [],
     [fprintf_on_file (path bad)]).
Proof.
  intros Hnames Hok Hbad.
  unfold perform_pack_operation. fold names. rewrite Hnames.
  rewrite (load_member_files_first_bad fs_read (prefix op)
             (get_archive_member_extension (type op)) ok rest bad []).
  - reflexivity.
  - intros name Hin. destruct (Hok name Hin) as (bytes & E & Hne).
    fold (path name). rewrite E. exact Hne.
  - fold (path bad). destruct Hbad as [E|E]; rewrite E; reflexivity.
Qed.

(** X15. Packing writes an archive that reads back: when the table has a
    name, every member file holds at least one byte and fewer than 2^32,
    the chunk region is addressable by [std::size_t] and the output can
    be opened, [perform_pack_operation] returns no reason, prints nothing
    and writes one file, the output; [read_from_file] accepts that file
    and enumerates the contents of the member files in the order of the
    table. *)
Theorem pack_reads_back :
  (forall x, length (MD5 x) = MD5_DIGEST_LENGTH) ->
  names <> [] ->
  (forall name, In name names -> held name <> []) ->
  Forall fits_length_field (map held names) ->
  Z.of_nat (length (chunk_region (map held names))) < 2 ^ 64 ->
  fs_opens (file op) = true ->
  exists written a',
    perform_pack_operation MD5 indeterminate retail_fx_names custom_fx_names
      vs_names fs_read fs_opens op
    = (None, [(file op, written)], []) /\
    read_from_file MD5 (Some written) archive_empty
    = (read_error.success, a', []) /\
    members a' = map held names.
Proof.
  intros HMD5 Hne Hall Hfit Hsmall Hopen.
  unfold perform_pack_operation. fold names.
  rewrite (load_member_files_all fs_read (prefix op)
             (get_archive_member_extension (type op)) names [])
    by exact Hall.
  cbn [app]. fold path. fold held.
  rewrite load_members_from_format by exact HMD5. cbv zeta.
  rewrite <- (map_map held member), map_contents_member.
  set (region := chunk_region (map held names)) in *.
  assert (L4 : (4 <= length region)%nat).
  { pose proof (length_chunk_region_ge (map held names)) as G.
    fold region in G. rewrite length_map in G.
    destruct names; [contradiction | cbn [length] in G; lia]. }
  rewrite Hopen, flush_loaded by exact L4.
  eexists. eexists. split; [reflexivity|].
  assert (Rne : region <> [])
    by (intros E; rewrite E in L4; cbn [length] in L4; lia).
  rewrite (read_encrypted MD5 HMD5 region archive_empty Rne).
  unfold region. rewrite validate_region by assumption.
  split; [reflexivity|].
  apply members_region; assumption.
Qed.

End Run.

(** X16. The two help flags: with [-h] as the first argument, [main]
    prints the usage and returns [EXIT_SUCCESS]; with [--help], which is
    compared as a pointer, it prints "invalid use" and the usage and
    returns [EXIT_FAILURE] unless the two pointers are equal.  No file is
    written in either case. *)
Theorem help_flags (MD5 : list byte -> list byte)
    (indeterminate : nat -> byte)
    (retail_fx_names custom_fx_names vs_names : list (list byte))
    (fs_read : list byte -> option (list byte))
    (fs_opens : list byte -> bool) (argv1_is_the_literal : bool)
    (argv : list (list byte)) :
  (2 <= length argv)%nat ->
  (nth 1 argv [] = Literals.lit_h ->
   main MD5 indeterminate retail_fx_names custom_fx_names vs_names fs_read
     fs_opens argv1_is_the_literal argv
   = (EXIT_SUCCESS, [], [print_usage (nth 0 argv [])])) /\
  (nth 1 argv [] = Literals.lit_help ->
   argv1_is_the_literal = false ->
   main MD5 indeterminate retail_fx_names custom_fx_names vs_names fs_read
     fs_opens argv1_is_the_literal argv
   = (EXIT_FAILURE, [], [puts_invalid_use; print_usage (nth 0 argv [])])).
Proof.
  intros Hargc.
  assert (H1 : (1 <=? length argv)%nat = true) by (apply Nat.leb_le; lia).
  assert (H2 : (2 <=? length argv)%nat = true) by (apply Nat.leb_le; lia).
  split.
  - intros E. unfold main. rewrite H1, H2, E. reflexivity.
  - intros E ->. unfold main. rewrite H1, H2, E.
    change (bytes_eqb Literals.lit_help Literals.lit_h) with false.
    change (bytes_eqb Literals.lit_help Literals.lit_u) with false.
    change (bytes_eqb Literals.lit_help Literals.lit_unpack) with false.
    change (bytes_eqb Literals.lit_help Literals.lit_p) with false.
    change (bytes_eqb Literals.lit_help Literals.lit_pack) with false.
    cbn [orb andb]. rewrite andb_false_r. reflexivity.
Qed.

Lemma three_archive_read :
  read_from_file RFC1321.md5 (run_fs_read (file run_unpack)) archive_empty
  = (read_error.success, three_archive, []).
Proof. vm_compute. reflexivity. Qed.

Lemma unpack_writes_members_witness :
  perform_unpack_operation RFC1321.md5 two_names [] [] run_fs_read
    run_fs_opens_all run_unpack
  = (None,
     [(snprintf_path Literals.prefix_fx [x61] Literals.ext_fx, []);
      (snprintf_path Literals.prefix_fx [x62] Literals.ext_fx,
       [x01; x02; x03; x04; x05])],
     [printf_unpacked 2 Literals.prefix_fx]).
Proof.
  rewrite (unpack_writes_members RFC1321.md5 two_names [] [] run_fs_read
             run_fs_opens_all run_unpack three_archive []
             three_archive_read (fun _ _ => eq_refl)).
  vm_compute. reflexivity.
Defined.

Lemma unpack_write_failure_witness :
  perform_unpack_operation RFC1321.md5 two_names [] [] run_fs_read
    run_fs_opens_first run_unpack
  = (Some Literals.failed_to_write_member,
     [(snprintf_path Literals.prefix_fx [x61] Literals.ext_fx, [])],
     [printf_failed_to_write_member [x62]]).
Proof.
  rewrite (unpack_write_failure RFC1321.md5 two_names [] [] run_fs_read
             run_fs_opens_first run_unpack three_archive []
             [[x61]] [] [x62] three_archive_read eq_refl).
  - vm_compute. reflexivity.
  - vm_compute. lia.
  - intros name [<-|[]]. vm_compute. reflexivity.
  - vm_compute. reflexivity.
Defined.

Lemma pack_needs_member_files_witness :
  perform_pack_operation RFC1321.md5 zeroed (two_names ++ [[x63]]) [] []
    run_fs_read run_fs_opens_all run_pack
  = (Some Literals.failed_to_read_member_file, [],
     [fprintf_on_file
        (snprintf_path Literals.prefix_fx [x63] Literals.ext_fx)]).
Proof.
  refine (pack_needs_member_files RFC1321.md5 zeroed
            (two_names ++ [[x63]]) [] [] run_fs_read run_fs_opens_all
            run_pack two_names [] [x63] eq_refl _ _).
  - intros name [<-|[<-|[]]].
    + exists [x0a]. split; [vm_compute; reflexivity | discriminate].
    + exists [x0b; x0c]. split; [vm_compute; reflexivity | discriminate].
  - left. vm_compute. reflexivity.
Defined.

Lemma pack_reads_back_witness :
  exists written,
    perform_pack_operation RFC1321.md5 zeroed two_names [] [] run_fs_read
      run_fs_opens_all run_pack
    = (None, [(file run_pack, written)], []).
Proof.
  destruct (pack_reads_back RFC1321.md5 zeroed two_names [] [] run_fs_read
              run_fs_opens_all run_pack CodecClaims.md5_length)
    as (written & a' & H & _).
  - discriminate.
  - intros name [<-|[<-|[]]]; vm_compute; discriminate.
  - repeat constructor; vm_compute; reflexivity.
  - vm_compute. reflexivity.
  - reflexivity.
  - exists written. exact H.
Defined.

Lemma help_flags_witness :
  main RFC1321.md5 zeroed two_names [] [] run_fs_read run_fs_opens_all false
    [Literals.h1sp; Literals.lit_help]
  = (EXIT_FAILURE, [], [puts_invalid_use; print_usage Literals.h1sp]).
Proof.
  assert (H : (2 <= length [Literals.h1sp; Literals.lit_help])%nat)
    by (cbn [length]; lia).
  exact (proj2 (help_flags RFC1321.md5 zeroed two_names [] [] run_fs_read
                  run_fs_opens_all false
                  [Literals.h1sp; Literals.lit_help] H) eq_refl eq_refl).
Defined.

End MainExtras.
